(** * Spatial query engine: geolocation and historical timeline servers

    A shallow embedding of the two tool servers
    [geolocation_server/server.py] and [historical_map_server/server.py]:
    the three static tables ([PLACES], [POIS], [EVENTS]), the haversine
    distance, and the six query operations, followed by the properties the
    specification states about them.

    Conventions of the model.
    - Python [float] is IEEE binary64, modelled by the primitive floats of
      Rocq ([PrimFloat]); comparisons, [+], [-], [*], [/] and [sqrt] are the
      kernel's correctly rounded operations.
    - Python [int] is [Z]; [None]-able arguments are [option].
    - Python [str] is the [string] of its UTF-8 bytes: [strip] removes
      the white space of Unicode, [lower] lowers an ASCII string byte by
      byte and leaves any other string to the case mapping of the
      interpreter's Unicode database, a function of the [Runtime].
    - An exception is a value of [exn] carried by the [res] monad.
    - The C library, the [round] builtin and the Unicode case mapping
      are a [Runtime] record: the functions together with the facts
      about them the proofs rely on.
    - The operations are embedded twice. On values, a table is a list of
      records and an annotated copy is a new record. In the module
      [Store] a table is a list of references to dictionary objects of a
      heap, [dict(x)] allocates and [x[k] = v] writes in place; the
      last part proves that the two embeddings agree. *)

From Stdlib Require Import ZArith List String Ascii Bool Lia.
From Stdlib Require Import Sorting.Permutation Sorting.Sorted.
From Stdlib Require Import DecimalString Decimal OrderedTypeEx.
From Stdlib Require Import Floats.
Import ListNotations.

Set Warnings "-inexact-float".
Set Implicit Arguments.

Local Open Scope string_scope.
Local Open Scope list_scope.

(* ================================================================== *)
(** * Python strings *)
(* ================================================================== *)

Module PyStr.

(** A [str] is modelled by its UTF-8 encoding, a [string] of bytes (a
    lone surrogate is encoded as the other code points of three bytes
    are). No encoding of a code point occurs inside the encoding of
    another one, so [==], [in], [<], [+] and [join] on the code points
    are [=], substring, lexicographic order, [++] and [concat] on the
    bytes. *)

Definition code (c : ascii) : nat := nat_of_ascii c.

(** [s.isascii()]. *)
Fixpoint is_ascii (s : string) : bool :=
  match s with
  | EmptyString => true
  | String c s' => (code c <? 128)%nat && is_ascii s'
  end.

(** [c.lower()] on an ASCII character. *)
Definition lower_ascii (c : ascii) : ascii :=
  let n := code c in
  if (65 <=? n)%nat && (n <=? 90)%nat then ascii_of_nat (n + 32) else c.

(** [ascii_upper_or_lower(self, 1)]: every byte lowered. *)
Fixpoint ascii_lower (s : string) : string :=
  match s with
  | EmptyString => EmptyString
  | String c s' => String (lower_ascii c) (ascii_lower s')
  end.

(** [s.lower()], after [unicode_lower] of [unicodeobject.c]: an ASCII
    string is lowered byte by byte; any other string goes through the
    case mapping of the Unicode database, [case_lower], which the
    interpreter brings. *)
Definition lower (case_lower : string -> string) (s : string) : string :=
  if is_ascii s then ascii_lower s else case_lower s.

(** The white space of [str.strip()] ([_PyUnicode_IsWhitespace]), by the
    bytes of a code point. One byte: TAB, LF, VT, FF, CR, FS, GS, RS, US
    and the space. *)
Definition space1 (a : ascii) : bool :=
  let n := code a in
  ((9 <=? n)%nat && (n <=? 13)%nat) || ((28 <=? n)%nat && (n <=? 32)%nat).

(** Two bytes: U+0085 and U+00A0. *)
Definition space2 (a b : ascii) : bool :=
  (code a =? 194)%nat && ((code b =? 133)%nat || (code b =? 160)%nat).

(** Three bytes: U+1680, U+2000 to U+200A, U+2028, U+2029, U+202F,
    U+205F and U+3000. *)
Definition space3 (a b c : ascii) : bool :=
  ((code a =? 225)%nat && (code b =? 154)%nat && (code c =? 128)%nat)
  || ((code a =? 226)%nat && (code b =? 128)%nat
      && (((128 <=? code c)%nat && (code c <=? 138)%nat)
          || (code c =? 168)%nat || (code c =? 169)%nat || (code c =? 175)%nat))
  || ((code a =? 226)%nat && (code b =? 129)%nat && (code c =? 159)%nat)
  || ((code a =? 227)%nat && (code b =? 128)%nat && (code c =? 128)%nat).

(** [s] begins with a white-space character. *)
Definition starts_with_space (s : string) : bool :=
  match s with
  | EmptyString => false
  | String a s1 =>
      space1 a ||
      match s1 with
      | EmptyString => false
      | String b s2 =>
          space2 a b ||
          match s2 with
          | EmptyString => false
          | String c _ => space3 a b c
          end
      end
  end.

(** [s] is made of white-space characters only. *)
Fixpoint all_space (s : string) : bool :=
  match s with
  | EmptyString => true
  | String a s1 =>
      if space1 a then all_space s1
      else
        match s1 with
        | EmptyString => false
        | String b s2 =>
            if space2 a b then all_space s2
            else
              match s2 with
              | EmptyString => false
              | String c s3 => if space3 a b c then all_space s3 else false
              end
        end
  end.

(** [s.lstrip()]: the white-space characters at the start are dropped. *)
Fixpoint lstrip (s : string) : string :=
  match s with
  | EmptyString => EmptyString
  | String a s1 =>
      if space1 a then lstrip s1
      else
        match s1 with
        | EmptyString => s
        | String b s2 =>
            if space2 a b then lstrip s2
            else
              match s2 with
              | EmptyString => s
              | String c s3 => if space3 a b c then lstrip s3 else s
              end
        end
  end.

(** [s.rstrip()]: the string is cut where what follows is white space
    only. *)
Fixpoint rstrip (s : string) : string :=
  match s with
  | EmptyString => EmptyString
  | String a s1 => if all_space s then EmptyString else String a (rstrip s1)
  end.

(** [s.strip()]. *)
Definition strip (s : string) : string := rstrip (lstrip s).

(** [q in s]: [q] occurs in [s] as a contiguous substring. *)
Fixpoint contains (q s : string) : bool :=
  prefix q s ||
  match s with
  | EmptyString => false
  | String _ s' => contains q s'
  end.

(** [str(n)] for an integer. *)
Definition of_Z (n : Z) : string := NilZero.string_of_int (Z.to_int n).

(** [sep.join(l)]. *)
Definition join (sep : string) (l : list string) : string := String.concat sep l.

(** [a < b] on strings: lexicographic on the code points. *)
Definition ltb (a b : string) : bool := String.ltb a b.

End PyStr.

(* ================================================================== *)
(** * Exceptions *)
(* ================================================================== *)

(** The exceptions the modelled code can raise. *)
Inductive exn : Type :=
| ValueError (msg : string)
| OverflowError (msg : string)
| KeyError (key : string).

(** The outcome of a call that may raise. *)
Inductive res (A : Type) : Type :=
| Ok (a : A)
| Raise (e : exn).

Arguments Ok {A} a.
Arguments Raise {A} e.

Definition bind {A B : Type} (m : res A) (k : A -> res B) : res B :=
  match m with
  | Ok a => k a
  | Raise e => Raise e
  end.

Notation "x <- m ;; k" := (bind m (fun x => k))
  (at level 61, m at next level, right associativity).

(** Run [f] on each element, left to right, stopping at the first exception. *)
Fixpoint mapM {A B : Type} (f : A -> res B) (l : list A) : res (list B) :=
  match l with
  | [] => Ok []
  | a :: l' => b <- f a ;; bs <- mapM f l' ;; Ok (b :: bs)
  end.

(* ================================================================== *)
(** * Python lists: [list.sort(key=...)] and [l[:n]] *)
(* ================================================================== *)

Section ListOps.

Variables (A K : Type).
Variable lt : K -> K -> bool.
Variable key : A -> K.

(** Insert [x] after every element whose key is not greater: an element
    already there with an equal key stays in front (stability). *)
Fixpoint insert_by (x : A) (l : list A) : list A :=
  match l with
  | [] => [x]
  | y :: l' => if lt (key x) (key y) then x :: y :: l' else y :: insert_by x l'
  end.

(** [l.sort(key=key)]: a stable sort that compares keys with [<] only.
    Elements are inserted in list order, so equal keys keep their order. *)
Definition sort_by (l : list A) : list A :=
  fold_left (fun acc x => insert_by x acc) l [].

(** [l[:n]] for an integer [n]: the first [n] elements, and for a
    negative [n] all but the last [-n]. *)
Definition slice_to (l : list A) (n : Z) : list A :=
  if (n <? 0)%Z
  then firstn (Z.to_nat (Z.of_nat (List.length l) + n)) l
  else firstn (Z.to_nat n) l.

End ListOps.

(* ================================================================== *)
(** * The static tables *)
(* ================================================================== *)

Local Open Scope float_scope.

(** A value of [GeolocationServer.PLACES]: the [info] dictionary. *)
Record Place : Type := mkPlace {
  place_lat : float;
  place_lon : float;
  place_city : string;
  place_type : string
}.

(** An element of [GeolocationServer.POIS]. *)
Record Poi : Type := mkPoi {
  poi_name : string;
  poi_lat : float;
  poi_lon : float;
  poi_type : string
}.

(** An element of [HistoricalTimelineServer.EVENTS]. *)
Record Event : Type := mkEvent {
  ev_title : string;
  ev_year : Z;
  ev_lat : float;
  ev_lon : float;
  ev_region : string;
  ev_description : string
}.

(** [GeolocationServer.PLACES]: a dictionary, iterated in insertion order. *)
Definition PLACES : list (string * Place) :=
  [ ("AUB", mkPlace 33.901 35.480 "Beirut" "university");
    ("Beirut", mkPlace 33.8938 35.5018 "Beirut" "city");
    ("Baalbek", mkPlace 34.006 36.203 "Baalbek" "city");
    ("Byblos", mkPlace 34.123 35.651 "Byblos" "city");
    ("Sidon", mkPlace 33.560 35.375 "Sidon" "city");
    ("Tyre", mkPlace 33.270 35.196 "Tyre" "city");
    ("Zahle", mkPlace 33.850 35.900 "Zahle" "city");
    ("Airport", mkPlace 33.8209 35.4884 "Beirut" "airport");
    ("RHUH", mkPlace 33.871 35.513 "Beirut" "hospital") ].

(** [GeolocationServer.POIS]. *)
Definition POIS : list Poi :=
  [ mkPoi "AUBMC" 33.896 35.478 "hospital";
    mkPoi "Rafik Hariri Univ. Hospital (RHUH)" 33.871 35.513 "hospital";
    mkPoi "Hotel-Dieu de France" 33.8869 35.5233 "hospital";
    mkPoi "LAU Medical Center – Rizk Hospital" 33.8927 35.5159 "hospital";
    mkPoi "Baalbek Governmental Hospital" 34.010 36.210 "hospital";
    mkPoi "Zahle Governmental Hospital" 33.846 35.904 "hospital";
    mkPoi "American University of Beirut (AUB)" 33.901 35.480 "university";
    mkPoi "Lebanese American University (LAU) Beirut" 33.8957 35.4865 "university";
    mkPoi "Saint Joseph University (USJ) – Huvelin" 33.8934 35.5103 "university";
    mkPoi "Beirut Souks" 33.901 35.504 "mall";
    mkPoi "ABC Achrafieh" 33.886 35.521 "mall";
    mkPoi "ABC Verdun" 33.883 35.486 "mall";
    mkPoi "City Centre Beirut" 33.868 35.535 "mall";
    mkPoi "National Museum of Beirut" 33.8833 35.5192 "museum";
    mkPoi "Sursock Museum" 33.8920 35.5171 "museum";
    mkPoi "Byblos Archaeological Site" 34.1239 35.6518 "museum";
    mkPoi "Baalbek Roman Temples" 34.0060 36.2030 "museum";
    mkPoi "Forum de Beyrouth" 33.898 35.535 "venue";
    mkPoi "Beiteddine Palace (Chouf)" 33.694 35.579 "museum";
    mkPoi "Roman Hippodrome of Tyre" 33.263 35.205 "museum";
    mkPoi "Byblos Old Souk" 34.121 35.648 "venue";
    mkPoi "Al Madina Theatre" 33.8937 35.4867 "theater";
    mkPoi "Horsh Beirut" 33.8727 35.5053 "park";
    mkPoi "Rouche (Pigeon Rocks)" 33.8896 35.4703 "park";
    mkPoi "Tyre Beach (South)" 33.257 35.214 "beach";
    mkPoi "Ramlet el-Baida Beach" 33.8749 35.4769 "beach";
    mkPoi "Beirut–Rafic Hariri International Airport" 33.8209 35.4884 "airport";
    mkPoi "Charles Helou Bus Station" 33.8994 35.5199 "venue";
    mkPoi "Phoenicia Hotel Beirut" 33.9015 35.4900 "hotel";
    mkPoi "Le Gray (Downtown)" 33.8967 35.5019 "hotel";
    mkPoi "Tawlet Mar Mikhael" 33.8968 35.5182 "restaurant";
    mkPoi "Mayrig Gemmayze" 33.8944 35.5148 "restaurant";
    mkPoi "Zahle Wine House" 33.8465 35.9035 "restaurant";
    mkPoi "Pharmacy 24/7 Hamra" 33.8955 35.4820 "pharmacy";
    mkPoi "US Embassy (Awkar - approx)" 33.956 35.589 "embassy";
    mkPoi "French Embassy (Achrafieh - approx)" 33.888 35.517 "embassy";
    mkPoi "Camille Chamoun Sports City Stadium" 33.859 35.494 "stadium" ].

(** [HistoricalTimelineServer.EVENTS]. *)
Definition EVENTS : list Event :=
  [ mkEvent "Founding of Beirut as a Roman colony" 14 33.895 35.480 "Beirut"
      "Beirut was declared a Roman colonia, marking its emergence as an imperial administrative center.";
    mkEvent "Beirut School of Law rises to prominence" 350 33.896 35.477 "Beirut"
      "The Beirut Law School shaped major Roman and Byzantine legal codes.";
    mkEvent "Byzantine earthquake devastates Beirut" 551 33.895 35.480 "Beirut"
      "A catastrophic earthquake destroyed parts of Roman Beirut.";
    mkEvent "Crusader conquest of Beirut" 1110 33.901 35.501 "Beirut"
      "Crusaders seized Beirut as part of expanding the Kingdom of Jerusalem.";
    mkEvent "Beirut port explosion" 2020 33.901 35.519 "Beirut"
      "A massive detonation reshaped the city's contemporary history.";
    mkEvent "Temple of Jupiter constructed" 60 34.006 36.203 "Baalbek"
      "The largest surviving Roman temple columns were erected here.";
    mkEvent "Temple of Bacchus completed" 150 34.006 36.203 "Baalbek"
      "One of the best-preserved ancient temples in the world.";
    mkEvent "Umayyad citadel reinforced" 685 34.006 36.203 "Baalbek"
      "Baalbek fortifications were expanded under early Islamic rule.";
    mkEvent "Ma'an dynasty rises" 1120 33.694 35.580 "Chouf"
      "The Ma'an family consolidated political power in Mount Lebanon.";
    mkEvent "Fakhreddine II reforms" 1623 33.695 35.580 "Chouf"
      "Economic and administrative reforms linked Mount Lebanon to Mediterranean trade.";
    mkEvent "Crusader County of Tripoli founded" 1109 34.438 35.830 "Tripoli"
      "Tripoli became the last major Crusader polity in the Levant.";
    mkEvent "Mamluk reconstruction of Tripoli" 1300 34.438 35.830 "Tripoli"
      "Mamluks rebuilt Tripoli inland after ending Crusader rule.";
    mkEvent "Phoenician expansion from Sidon" (-900) 33.560 35.375 "Sidon"
      "Sidon led major Phoenician maritime trade expansions across the Mediterranean.";
    mkEvent "Siege of Tyre by Alexander the Great" (-332) 33.270 35.196 "Tyre"
      "Alexander captured Tyre after constructing a causeway to the island city.";
    mkEvent "Byblos develops alphabetic writing" (-1200) 34.123 35.651 "Byblos"
      "Byblos played a key role in the evolution of the Phoenician alphabet.";
    mkEvent "Akkar on the frontier of Crusader Antioch" 1100 34.590 36.080 "Akkar"
      "A contested border zone between Crusaders and regional Islamic powers.";
    mkEvent "Anjar palace constructed" 715 33.726 35.929 "Bekaa"
      "Anjar was built under the Umayyads as a planned palace city.";
    mkEvent "Rise of Zahle as a trade center" 1700 33.850 35.900 "Zahle"
      "Zahle emerged as a major trade hub linking the Bekaa Valley with Beirut.";
    mkEvent "Lebanese Independence" 1943 33.8889 35.4944 "Lebanon"
      "Lebanon gained independence from the French Mandate.";
    mkEvent "End of Civil War" 1990 33.888 35.495 "Lebanon"
      "The Taif Agreement ended 15 years of civil conflict.";
    mkEvent "Cedar Revolution" 2005 33.888 35.495 "Lebanon"
      "Nationwide demonstrations reshaped Lebanon’s modern political landscape." ].

(* ================================================================== *)
(** * The runtime below the code: libm, [round] and the case mapping *)
(* ================================================================== *)

(** [float('inf')] and the constants of [math]. *)
Definition inf : float := infinity.
Definition Py_MATH_PI : float := 0x1.921fb54442d18p+1.
Definition degToRad : float := Py_MATH_PI / 180.

(** [abs x <= 1], for a number. *)
Definition unit_range (x : float) : bool := abs x <=? 1.

(** The platform functions the code reaches through [math] and [round], with
    the facts about them used below: what C99 Annex F fixes at NaN, at the
    infinities and at zero, the ranges of sine, cosine, arc sine and of a
    square, and that sine is an odd function. *)
Record Runtime : Type := mkRuntime {
  c_sin : float -> float;
  c_cos : float -> float;
  c_asin : float -> float;
  c_pow : float -> float -> float;
  (** [round(x, ndigits)] at a finite [x]. *)
  round_digits : float -> Z -> float;
  (** [s.lower()] at a string that is not all ASCII: the full lower-case
      mapping of the Unicode database. *)
  case_lower : string -> string;

  sin_nan : c_sin nan = nan;
  cos_nan : c_cos nan = nan;
  asin_nan : c_asin nan = nan;
  sin_inf : forall x, is_infinity x = true -> is_nan (c_sin x) = true;
  sin_zero : c_sin 0 = 0;
  asin_zero : c_asin 0 = 0;
  sin_odd : forall x, c_sin (- x) = - c_sin x;
  sin_range : forall x, is_finite x = true -> unit_range (c_sin x) = true;
  cos_range : forall x, is_finite x = true -> unit_range (c_cos x) = true;
  pow2_range : forall x, (0 <? x) = true -> (x <? 1) = true ->
    ((0 <=? c_pow x 2) && (c_pow x 2 <=? 1)) = true;
  asin_nonneg : forall x, (0 <=? x) = true -> is_nan (c_asin x) = false ->
    (0 <=? c_asin x) = true;
  asin_bound : forall x, is_nan (c_asin x) = false -> (abs (c_asin x) <=? 2) = true;
  round_finite : forall x n, is_finite x = true -> is_finite (round_digits x n) = true
}.


(** [s.lower()]. *)
Definition str_lower (RT : Runtime) (s : string) : string :=
  PyStr.lower (case_lower RT) s.
(* ================================================================== *)
(** * What the operations return *)
(* ================================================================== *)

(** [geocode]: [{"name", "lat", "lon", "meta"}] or [{"error"}]. *)
Inductive GeocodeResult : Type :=
| GeoMatch (name : string) (lat lon : float) (meta : Place)
| GeoError (error : string).

(** The dictionary under ["nearest_location"]. *)
Record NearestLocation : Type := mkNearest {
  nl_name : string;
  nl_city : string;
  nl_type : string;
  nl_distance_km : float;
  nl_lat : float;
  nl_lon : float
}.

(** [reverse_geocode]: [{"nearest_location"}] or [{"error"}]. *)
Inductive ReverseResult : Type :=
| RevMatch (nearest_location : NearestLocation)
| RevError (error : string).

(** [entry = dict(poi); entry["distance_km"] = ...]: the fields of the POI
    and the derived one. *)
Record PoiHit : Type := mkPoiHit {
  hit_poi : Poi;
  hit_distance_km : float
}.

(** The ["query"] echo of [nearby_search]. *)
Record NearbyQuery : Type := mkNearbyQuery {
  nq_lat : float;
  nq_lon : float;
  nq_type : string;
  nq_radius_km : float
}.

Record NearbyResult : Type := mkNearbyResult {
  nr_query : NearbyQuery;
  nr_results : list PoiHit
}.

(** [entry = dict(ev); entry["distance_km"] = ...]. *)
Record EventHit : Type := mkEventHit {
  eh_event : Event;
  eh_distance_km : float
}.

Record EventsQuery : Type := mkEventsQuery {
  eq_lat : float;
  eq_lon : float;
  eq_radius_km : float
}.

Record EventsResult : Type := mkEventsResult {
  er_query : EventsQuery;
  er_events : list EventHit
}.

Record TimelineResult : Type := mkTimelineResult {
  tr_region : string;
  tr_timeline : list Event
}.

(** [entry = dict(ev); entry["distance_to_route_km"] = ...]. *)
Record RouteEntry : Type := mkRouteEntry {
  re_event : Event;
  re_distance_to_route_km : float
}.

(** The values stored in the dictionary [route_history_summary] returns. *)
Inductive pyval : Type :=
| VInt (n : Z)
| VFloat (x : float)
| VStr (s : string)
| VEvents (l : list RouteEntry).

(** A result dictionary with its keys in insertion order. *)
Definition pydict : Type := list (string * pyval).

(** [d[k]] when the key is there. *)
Fixpoint dict_get (d : pydict) (k : string) : option pyval :=
  match d with
  | [] => None
  | (k', v) :: d' => if String.eqb k' k then Some v else dict_get d' k
  end.

(** [list(d.keys())]. *)
Definition dict_keys (d : pydict) : list string := map fst d.

Section Engine.

Variable RT : Runtime.

(** ** The [math] module and float arithmetic of CPython *)

(** [math_1] of [mathmodule.c]: call the libm function and turn a NaN
    result from a number, or an infinite result from a finite argument,
    into [ValueError]. *)
Definition math_1 (func : float -> float) (x : float) : res float :=
  let r := func x in
  if is_nan r && negb (is_nan x) then Raise (ValueError "math domain error")
  else if is_infinity r && is_finite x then Raise (ValueError "math domain error")
  else Ok r.

Definition math_sin : float -> res float := math_1 (c_sin RT).
Definition math_cos : float -> res float := math_1 (c_cos RT).
Definition math_asin : float -> res float := math_1 (c_asin RT).
Definition math_sqrt : float -> res float := math_1 sqrt.

(** [math.radians]. *)
Definition radians (x : float) : float := x * degToRad.

(** [x ** 2] on a float, after [float_pow] of [floatobject.c] at the
    exponent [2.0]: NaN, the infinities, zero, a negative base and a base
    of absolute value one are settled before libm's [pow] is called, and
    an infinite result of [pow] is an [OverflowError]. *)
Definition float_pow2 (iv : float) : res float :=
  if is_nan iv then Ok iv
  else if is_infinity iv then Ok (abs iv)
  else if iv =? 0 then Ok 0
  else
    let iv' := if iv <? 0 then - iv else iv in
    if iv' =? 1 then Ok 1
    else
      let ix := c_pow RT iv' 2 in
      if is_infinity ix then Raise (OverflowError "Numerical result out of range")
      else Ok ix.

(** [round(x, 3)]: NaN and the infinities round to themselves. *)
Definition round3 (x : float) : float :=
  if is_finite x then round_digits RT x 3 else x.

(** An [int] operand of a float operation, converted as Python does. *)
Definition float_of_int (n : Z) : float := of_uint63 (Uint63.of_Z n).

(** ** The haversine distance, once per server *)

(** [GeolocationServer._haversine_km]. *)
Definition _haversine_km (lat1 lon1 lat2 lon2 : float) : res float :=
  let r := 6371.0 in
  let dlat := radians (lat2 - lat1) in
  let dlon := radians (lon2 - lon1) in
  s1 <- math_sin (dlat / 2.0) ;;
  p1 <- float_pow2 s1 ;;
  c1 <- math_cos (radians lat1) ;;
  c2 <- math_cos (radians lat2) ;;
  s2 <- math_sin (dlon / 2.0) ;;
  p2 <- float_pow2 s2 ;;
  let a := p1 + c1 * c2 * p2 in
  q <- math_sqrt a ;;
  v <- math_asin q ;;
  Ok (2.0 * r * v).

(** [HistoricalTimelineServer._distance_km]: the same formula with the
    integer constants [6371] and [2]. *)
Definition _distance_km (lat1 lon1 lat2 lon2 : float) : res float :=
  let r := 6371%Z in
  let dlat := radians (lat2 - lat1) in
  let dlon := radians (lon2 - lon1) in
  s1 <- math_sin (dlat / float_of_int 2) ;;
  p1 <- float_pow2 s1 ;;
  c1 <- math_cos (radians lat1) ;;
  c2 <- math_cos (radians lat2) ;;
  s2 <- math_sin (dlon / float_of_int 2) ;;
  p2 <- float_pow2 s2 ;;
  let a := p1 + c1 * c2 * p2 in
  q <- math_sqrt a ;;
  v <- math_asin q ;;
  Ok (float_of_int (2 * r) * v).

(** ** Geolocation server *)

(** [name.lower() == q]. *)
Definition exact_match (q : string) (item : string * Place) : bool :=
  String.eqb (str_lower RT (fst item)) q.

(** [q in name.lower() or q in info["city"].lower()]. *)
Definition partial_match (q : string) (item : string * Place) : bool :=
  PyStr.contains q (str_lower RT (fst item))
  || PyStr.contains q (str_lower RT (place_city (snd item))).

(** [{"name": name, "lat": info["lat"], "lon": info["lon"], "meta": info}]. *)
Definition geo_found (item : string * Place) : GeocodeResult :=
  GeoMatch (fst item) (place_lat (snd item)) (place_lon (snd item)) (snd item).

(** [geocode(query)]: the two scans of [PLACES.items()], each returning at
    its first hit. *)
Definition geocode_in (places : list (string * Place)) (query : string) : GeocodeResult :=
  let q := str_lower RT (PyStr.strip query) in
  match find (exact_match q) places with
  | Some item => geo_found item
  | None =>
      match find (partial_match q) places with
      | Some item => geo_found item
      | None => GeoError ("No match found for '" ++ query ++ "'")
      end
  end.

Definition geocode (query : string) : GeocodeResult := geocode_in PLACES query.

(** The loop of [reverse_geocode]: [best] and [best_d] after the items. *)
Fixpoint reverse_scan (lat lon : float) (items : list (string * Place))
  (best : option (string * Place)) (best_d : float)
  : res (option (string * Place) * float) :=
  match items with
  | [] => Ok (best, best_d)
  | (name, info) :: rest =>
      d <- _haversine_km lat lon (place_lat info) (place_lon info) ;;
      if d <? best_d
      then reverse_scan lat lon rest (Some (name, info)) d
      else reverse_scan lat lon rest best best_d
  end.

Definition reverse_geocode_in (places : list (string * Place)) (lat lon : float)
  : res ReverseResult :=
  r <- reverse_scan lat lon places None inf ;;
  match r with
  | (None, _) => Ok (RevError "No places available.")
  | (Some (name, info), best_d) =>
      Ok (RevMatch (mkNearest name (place_city info) (place_type info)
                      (round3 best_d) (place_lat info) (place_lon info)))
  end.

Definition reverse_geocode (lat lon : float) : res ReverseResult :=
  reverse_geocode_in PLACES lat lon.

(** The loop of [nearby_search]: [hits] after the POIs. *)
Fixpoint nearby_scan (lat lon : float) (t : string) (radius_km : float)
  (pois : list Poi) (hits : list PoiHit) : res (list PoiHit) :=
  match pois with
  | [] => Ok hits
  | poi :: rest =>
      if negb (String.eqb (str_lower RT (poi_type poi)) t)
      then nearby_scan lat lon t radius_km rest hits
      else
        d <- _haversine_km lat lon (poi_lat poi) (poi_lon poi) ;;
        if d <=? radius_km
        then nearby_scan lat lon t radius_km rest (hits ++ [mkPoiHit poi (round3 d)])
        else nearby_scan lat lon t radius_km rest hits
  end.

Definition nearby_search_in (pois : list Poi) (lat lon : float) (poi_type : string)
  (radius_km : float) (limit : option Z) : res NearbyResult :=
  let t := str_lower RT (PyStr.strip poi_type) in
  hits <- nearby_scan lat lon t radius_km pois [] ;;
  let hits := sort_by PrimFloat.ltb hit_distance_km hits in
  let hits := match limit with
              | Some n => slice_to hits n
              | None => hits
              end in
  Ok (mkNearbyResult (mkNearbyQuery lat lon poi_type radius_km) hits).

Definition nearby_search (lat lon : float) (poi_type : string)
  (radius_km : float) (limit : option Z) : res NearbyResult :=
  nearby_search_in POIS lat lon poi_type radius_km limit.

(** ** Historical timeline server *)

(** [HistoricalTimelineServer._filter_years]. *)
Fixpoint _filter_years (events : list Event) (start_year end_year : option Z)
  : list Event :=
  match events with
  | [] => []
  | ev :: rest =>
      let y := ev_year ev in
      if match start_year with Some s => (y <? s)%Z | None => false end
      then _filter_years rest start_year end_year
      else if match end_year with Some e => (y >? e)%Z | None => false end
      then _filter_years rest start_year end_year
      else ev :: _filter_years rest start_year end_year
  end.

(** The loop of [events_near_location]: [results] after the events. *)
Fixpoint events_scan (lat lon radius_km : float) (events : list Event)
  (results : list EventHit) : res (list EventHit) :=
  match events with
  | [] => Ok results
  | ev :: rest =>
      d <- _distance_km lat lon (ev_lat ev) (ev_lon ev) ;;
      if d <=? radius_km
      then events_scan lat lon radius_km rest (results ++ [mkEventHit ev (round3 d)])
      else events_scan lat lon radius_km rest results
  end.

Definition events_near_location_in (table : list Event) (lat lon radius_km : float)
  (start_year end_year : option Z) : res EventsResult :=
  let events := _filter_years table start_year end_year in
  results <- events_scan lat lon radius_km events [] ;;
  let results := sort_by PrimFloat.ltb eh_distance_km results in
  Ok (mkEventsResult (mkEventsQuery lat lon radius_km) results).

Definition events_near_location (lat lon radius_km : float)
  (start_year end_year : option Z) : res EventsResult :=
  events_near_location_in EVENTS lat lon radius_km start_year end_year.

Definition region_timeline_in (table : list Event) (region_name : string)
  (start_year end_year : option Z) (limit : option Z) : TimelineResult :=
  let r := str_lower RT region_name in
  let matches :=
    filter (fun ev => PyStr.contains r (str_lower RT (ev_region ev))) table in
  let matches := _filter_years matches start_year end_year in
  let matches := sort_by Z.ltb ev_year matches in
  let matches := match limit with
                 | Some n => slice_to matches n
                 | None => matches
                 end in
  mkTimelineResult region_name matches.

Definition region_timeline (region_name : string)
  (start_year end_year : option Z) (limit : option Z) : TimelineResult :=
  region_timeline_in EVENTS region_name start_year end_year limit.

(** The first loop of [route_history_summary]: [total] after the legs. *)
Fixpoint route_length (path : list (float * float)) (total : float) : res float :=
  match path with
  | (lat1, lon1) :: (((lat2, lon2) :: _) as rest) =>
      d <- _distance_km lat1 lon1 lat2 lon2 ;;
      route_length rest (total + d)
  | _ => Ok total
  end.

(** [min(...)] over the rest of a generator of distances: the running
    minimum is replaced when an item is [<] it. *)
Fixpoint min_scan (ev : Event) (path : list (float * float)) (cur : float) : res float :=
  match path with
  | [] => Ok cur
  | (lat, lon) :: rest =>
      d <- _distance_km lat lon (ev_lat ev) (ev_lon ev) ;;
      min_scan ev rest (if d <? cur then d else cur)
  end.

(** [min(_distance_km(lat, lon, ev["lat"], ev["lon"]) for lat, lon in path)]. *)
Definition closest_vertex (ev : Event) (path : list (float * float)) : res float :=
  match path with
  | [] => Raise (ValueError "min() arg is an empty sequence")
  | (lat, lon) :: rest =>
      d <- _distance_km lat lon (ev_lat ev) (ev_lon ev) ;;
      min_scan ev rest d
  end.

(** The second loop of [route_history_summary]: [nearby] after the events. *)
Fixpoint corridor_scan (path : list (float * float)) (corridor_km : float)
  (events : list Event) (nearby : list RouteEntry) : res (list RouteEntry) :=
  match events with
  | [] => Ok nearby
  | ev :: rest =>
      closest <- closest_vertex ev path ;;
      if closest <=? corridor_km
      then corridor_scan path corridor_km rest
             (nearby ++ [mkRouteEntry ev (round3 closest)])
      else corridor_scan path corridor_km rest nearby
  end.

(** [sorted({ev["region"] for ev in nearby})]. *)
Definition sorted_regions (nearby : list RouteEntry) : list string :=
  sort_by PyStr.ltb (fun s => s)
    (nodup string_dec (map (fun e => ev_region (re_event e)) nearby)).

(** The narrative of [route_history_summary]. *)
Definition narrative (nearby : list RouteEntry) : string :=
  match nearby with
  | [] => "No historical events fall within the specified corridor."
  | first :: _ =>
      let regions := sorted_regions nearby in
      let earliest := ev_year (re_event first) in
      let latest := ev_year (re_event (last nearby first)) in
      "This route intersects historically significant regions including "
      ++ PyStr.join ", " regions ++ ". Events span from "
      ++ PyStr.of_Z earliest ++ " to " ++ PyStr.of_Z latest
      ++ ", covering Phoenician, Hellenistic, Roman, Byzantine, Islamic, "
      ++ "Mamluk, Ottoman, and modern Lebanese periods."
  end.

Definition route_history_summary_in (table : list Event)
  (path : list (float * float)) (corridor_km : float) : res pydict :=
  if (Z.of_nat (List.length path) <? 2)%Z
  then Ok [ ("selected_events", VEvents []);
            ("summary", VStr "Route is too short for evaluation.");
            ("path_length_km", VInt 0) ]
  else
    total <- route_length path 0.0 ;;
    nearby <- corridor_scan path corridor_km table [] ;;
    let nearby := sort_by Z.ltb (fun e => ev_year (re_event e)) nearby in
    let summary := narrative nearby in
    Ok [ ("path_length_km", VFloat (round3 total));
         ("corridor_km", VFloat corridor_km);
         ("selected_events", VEvents nearby);
         ("summary", VStr summary) ].

Definition route_history_summary (path : list (float * float)) (corridor_km : float)
  : res pydict :=
  route_history_summary_in EVENTS path corridor_km.

End Engine.
(* ================================================================== *)
(** * The operations over a store of dictionaries *)
(* ================================================================== *)

(** The second embedding keeps what the first one abstracts: the entries
    of the tables are dictionary objects in a heap, the tables hold
    references to them, [dict(x)] allocates a new object and
    [x[k] = v] writes into the object [x] refers to. Lists that the
    operations build are local values. *)
Module Store.

(** The value of a key of a stored dictionary. *)
Inductive field : Type :=
| FNum (x : float)
| FInt (n : Z)
| FStr (s : string).

(** A dictionary: its items in insertion order. *)
Definition dict : Type := list (string * field).

(** A reference to a dictionary of the heap. *)
Definition loc : Type := nat.

Record store : Type := mkStore {
  heap : list dict;
  PLACES_ref : list (string * loc);
  POIS_ref : list loc;
  EVENTS_ref : list loc
}.

(** A computation that reads and writes the store and may raise. *)
Definition M (A : Type) : Type := store -> res A * store.

Definition ret {A : Type} (a : A) : M A := fun s => (Ok a, s).

Definition mbind {A B : Type} (m : M A) (k : A -> M B) : M B :=
  fun s => match m s with
           | (Ok a, s') => k a s'
           | (Raise e, s') => (Raise e, s')
           end.

Notation "x <~ m ;; k" := (mbind m (fun x => k))
  (at level 61, m at next level, right associativity).

(** A computation that does not touch the store. *)
Definition lift {A : Type} (r : res A) : M A := fun s => (r, s).

(** [d[k]], when the key is there. *)
Fixpoint lookup (d : dict) (k : string) : option field :=
  match d with
  | [] => None
  | (k', v) :: d' => if String.eqb k' k then Some v else lookup d' k
  end.

(** [d[k] = v] on the items: the value of an existing key is replaced in
    place, a new key goes to the end. *)
Fixpoint dict_set (d : dict) (k : string) (v : field) : dict :=
  match d with
  | [] => [(k, v)]
  | (k', v') :: d' =>
      if String.eqb k' k then (k', v) :: d' else (k', v') :: dict_set d' k v
  end.

Definition get_num (d : dict) (k : string) : res float :=
  match lookup d k with Some (FNum x) => Ok x | _ => Raise (KeyError k) end.

Definition get_int (d : dict) (k : string) : res Z :=
  match lookup d k with Some (FInt n) => Ok n | _ => Raise (KeyError k) end.

Definition get_str (d : dict) (k : string) : res string :=
  match lookup d k with Some (FStr x) => Ok x | _ => Raise (KeyError k) end.

(** The dictionary a reference points to. *)
Definition deref (l : loc) : M dict :=
  fun s => match nth_error (heap s) l with
           | Some d => (Ok d, s)
           | None => (Raise (KeyError "dangling reference"), s)
           end.

(** [dict(x)]: a new object with the items of [x]. *)
Definition copy_dict (l : loc) : M loc :=
  fun s => match nth_error (heap s) l with
           | Some d =>
               (Ok (List.length (heap s)),
                mkStore (heap s ++ [d]) (PLACES_ref s) (POIS_ref s) (EVENTS_ref s))
           | None => (Raise (KeyError "dangling reference"), s)
           end.

(** The heap with the object at [l] replaced. *)
Fixpoint update (h : list dict) (l : loc) (d : dict) : list dict :=
  match h, l with
  | [], _ => []
  | _ :: h', O => d :: h'
  | x :: h', S l' => x :: update h' l' d
  end.

(** [x[k] = v]. *)
Definition set_item (l : loc) (k : string) (v : field) : M unit :=
  fun s => match nth_error (heap s) l with
           | Some d =>
               (Ok tt,
                mkStore (update (heap s) l (dict_set d k v))
                  (PLACES_ref s) (POIS_ref s) (EVENTS_ref s))
           | None => (Raise (KeyError "dangling reference"), s)
           end.

Definition get_places : M (list (string * loc)) := fun s => (Ok (PLACES_ref s), s).
Definition get_pois : M (list loc) := fun s => (Ok (POIS_ref s), s).
Definition get_events : M (list loc) := fun s => (Ok (EVENTS_ref s), s).

(** Run [f] on each element, left to right. *)
Fixpoint mapM_st {A B : Type} (f : A -> M B) (l : list A) : M (list B) :=
  match l with
  | [] => ret []
  | a :: l' => b <~ f a ;; bs <~ mapM_st f l' ;; ret (b :: bs)
  end.

(** [[x for x in l if p(x)]] with a test that reads the store. *)
Fixpoint filterM_st {A : Type} (p : A -> M bool) (l : list A) : M (list A) :=
  match l with
  | [] => ret []
  | a :: l' =>
      b <~ p a ;; r <~ filterM_st p l' ;; ret (if b then a :: r else r)
  end.

(** [refs.sort(key=lambda x: x[k])] on a numeric key: the keys are read
    once, then the references are sorted on them. *)
Definition sort_refs_num (k : string) (refs : list loc) : M (list loc) :=
  keys <~ mapM_st (fun r => d <~ deref r ;; lift (get_num d k)) refs ;;
  ret (map fst (sort_by PrimFloat.ltb snd (combine refs keys))).

Definition sort_refs_int (k : string) (refs : list loc) : M (list loc) :=
  keys <~ mapM_st (fun r => d <~ deref r ;; lift (get_int d k)) refs ;;
  ret (map fst (sort_by Z.ltb snd (combine refs keys))).

Section Operations.

Variable RT : Runtime.

(** ** Geolocation server *)

(** What a successful [geocode] returns: the name, the coordinates read
    from [info], and [info] itself (the stored object, not a copy). *)
Inductive geocode_ref : Type :=
| GeoFound (name : string) (lat lon : float) (meta : loc)
| GeoNone (error : string).

Definition geo_entry (name : string) (ref : loc) : M geocode_ref :=
  info <~ deref ref ;;
  la <~ lift (get_num info "lat") ;;
  lo <~ lift (get_num info "lon") ;;
  ret (GeoFound name la lo ref).

Fixpoint geocode_exact (q : string) (items : list (string * loc))
  : M (option geocode_ref) :=
  match items with
  | [] => ret None
  | (name, ref) :: rest =>
      if String.eqb (str_lower RT name) q
      then r <~ geo_entry name ref ;; ret (Some r)
      else geocode_exact q rest
  end.

Fixpoint geocode_partial (q : string) (items : list (string * loc))
  : M (option geocode_ref) :=
  match items with
  | [] => ret None
  | (name, ref) :: rest =>
      if PyStr.contains q (str_lower RT name)
      then r <~ geo_entry name ref ;; ret (Some r)
      else
        info <~ deref ref ;;
        city <~ lift (get_str info "city") ;;
        if PyStr.contains q (str_lower RT city)
        then r <~ geo_entry name ref ;; ret (Some r)
        else geocode_partial q rest
  end.

Definition geocode (query : string) : M geocode_ref :=
  let q := str_lower RT (PyStr.strip query) in
  places <~ get_places ;;
  r <~ geocode_exact q places ;;
  match r with
  | Some found => ret found
  | None =>
      r <~ geocode_partial q places ;;
      match r with
      | Some found => ret found
      | None => ret (GeoNone ("No match found for '" ++ query ++ "'")%string)
      end
  end.

Fixpoint reverse_scan (lat lon : float) (items : list (string * loc))
  (best : option (string * loc)) (best_d : float)
  : M (option (string * loc) * float) :=
  match items with
  | [] => ret (best, best_d)
  | (name, ref) :: rest =>
      info <~ deref ref ;;
      la <~ lift (get_num info "lat") ;;
      lo <~ lift (get_num info "lon") ;;
      d <~ lift (_haversine_km RT lat lon la lo) ;;
      if d <? best_d
      then reverse_scan lat lon rest (Some (name, ref)) d
      else reverse_scan lat lon rest best best_d
  end.

Definition reverse_geocode (lat lon : float) : M ReverseResult :=
  places <~ get_places ;;
  r <~ reverse_scan lat lon places None inf ;;
  match r with
  | (None, _) => ret (RevError "No places available.")
  | (Some (name, ref), best_d) =>
      info <~ deref ref ;;
      city <~ lift (get_str info "city") ;;
      ty <~ lift (get_str info "type") ;;
      la <~ lift (get_num info "lat") ;;
      lo <~ lift (get_num info "lon") ;;
      ret (RevMatch (mkNearest name city ty (round3 RT best_d) la lo))
  end.

Fixpoint nearby_scan (lat lon : float) (t : string) (radius_km : float)
  (pois : list loc) (hits : list loc) : M (list loc) :=
  match pois with
  | [] => ret hits
  | ref :: rest =>
      poi <~ deref ref ;;
      ty <~ lift (get_str poi "type") ;;
      if negb (String.eqb (str_lower RT ty) t)
      then nearby_scan lat lon t radius_km rest hits
      else
        la <~ lift (get_num poi "lat") ;;
        lo <~ lift (get_num poi "lon") ;;
        d <~ lift (_haversine_km RT lat lon la lo) ;;
        if d <=? radius_km
        then
          entry <~ copy_dict ref ;;
          _ <~ set_item entry "distance_km" (FNum (round3 RT d)) ;;
          nearby_scan lat lon t radius_km rest (hits ++ [entry])
        else nearby_scan lat lon t radius_km rest hits
  end.

Definition nearby_search (lat lon : float) (poi_type : string)
  (radius_km : float) (limit : option Z) : M (NearbyQuery * list loc) :=
  let t := str_lower RT (PyStr.strip poi_type) in
  pois <~ get_pois ;;
  hits <~ nearby_scan lat lon t radius_km pois [] ;;
  hits <~ sort_refs_num "distance_km" hits ;;
  let hits := match limit with
              | Some n => slice_to hits n
              | None => hits
              end in
  ret (mkNearbyQuery lat lon poi_type radius_km, hits).

(** ** Historical timeline server *)

Fixpoint _filter_years (events : list loc) (start_year end_year : option Z)
  : M (list loc) :=
  match events with
  | [] => ret []
  | ref :: rest =>
      ev <~ deref ref ;;
      y <~ lift (get_int ev "year") ;;
      if match start_year with Some s => (y <? s)%Z | None => false end
      then _filter_years rest start_year end_year
      else if match end_year with Some e => (y >? e)%Z | None => false end
      then _filter_years rest start_year end_year
      else out <~ _filter_years rest start_year end_year ;; ret (ref :: out)
  end.

Fixpoint events_scan (lat lon radius_km : float) (events : list loc)
  (results : list loc) : M (list loc) :=
  match events with
  | [] => ret results
  | ref :: rest =>
      ev <~ deref ref ;;
      la <~ lift (get_num ev "lat") ;;
      lo <~ lift (get_num ev "lon") ;;
      d <~ lift (_distance_km RT lat lon la lo) ;;
      if d <=? radius_km
      then
        entry <~ copy_dict ref ;;
        _ <~ set_item entry "distance_km" (FNum (round3 RT d)) ;;
        events_scan lat lon radius_km rest (results ++ [entry])
      else events_scan lat lon radius_km rest results
  end.

Definition events_near_location (lat lon radius_km : float)
  (start_year end_year : option Z) : M (EventsQuery * list loc) :=
  table <~ get_events ;;
  events <~ _filter_years table start_year end_year ;;
  results <~ events_scan lat lon radius_km events [] ;;
  results <~ sort_refs_num "distance_km" results ;;
  ret (mkEventsQuery lat lon radius_km, results).

Definition region_timeline (region_name : string)
  (start_year end_year : option Z) (limit : option Z) : M (string * list loc) :=
  let r := str_lower RT region_name in
  table <~ get_events ;;
  matches <~ filterM_st (fun ref =>
               ev <~ deref ref ;;
               region <~ lift (get_str ev "region") ;;
               ret (PyStr.contains r (str_lower RT region))) table ;;
  matches <~ _filter_years matches start_year end_year ;;
  matches <~ sort_refs_int "year" matches ;;
  let matches := match limit with
                 | Some n => slice_to matches n
                 | None => matches
                 end in
  ret (region_name, matches).

Fixpoint min_scan (ev : dict) (path : list (float * float)) (cur : float) : M float :=
  match path with
  | [] => ret cur
  | (lat, lon) :: rest =>
      la <~ lift (get_num ev "lat") ;;
      lo <~ lift (get_num ev "lon") ;;
      d <~ lift (_distance_km RT lat lon la lo) ;;
      min_scan ev rest (if d <? cur then d else cur)
  end.

Definition closest_vertex (ev : dict) (path : list (float * float)) : M float :=
  match path with
  | [] => lift (Raise (ValueError "min() arg is an empty sequence"))
  | (lat, lon) :: rest =>
      la <~ lift (get_num ev "lat") ;;
      lo <~ lift (get_num ev "lon") ;;
      d <~ lift (_distance_km RT lat lon la lo) ;;
      min_scan ev rest d
  end.

Fixpoint corridor_scan (path : list (float * float)) (corridor_km : float)
  (events : list loc) (nearby : list loc) : M (list loc) :=
  match events with
  | [] => ret nearby
  | ref :: rest =>
      ev <~ deref ref ;;
      closest <~ closest_vertex ev path ;;
      if closest <=? corridor_km
      then
        entry <~ copy_dict ref ;;
        _ <~ set_item entry "distance_to_route_km" (FNum (round3 RT closest)) ;;
        corridor_scan path corridor_km rest (nearby ++ [entry])
      else corridor_scan path corridor_km rest nearby
  end.

(** The values of the dictionary [route_history_summary] returns. *)
Inductive rval : Type :=
| RInt (n : Z)
| RFloat (x : float)
| RStr (s : string)
| RRefs (l : list loc).

(** [ev[k]] for each reference. *)
Definition read_strs (k : string) (refs : list loc) : M (list string) :=
  mapM_st (fun r => d <~ deref r ;; lift (get_str d k)) refs.

Definition narrative (nearby : list loc) : M string :=
  match nearby with
  | [] => ret "No historical events fall within the specified corridor."
  | first :: _ =>
      regions <~ read_strs "region" nearby ;;
      let regions := sort_by PyStr.ltb (fun s => s) (nodup string_dec regions) in
      ev <~ deref first ;;
      earliest <~ lift (get_int ev "year") ;;
      ev <~ deref (last nearby first) ;;
      latest <~ lift (get_int ev "year") ;;
      ret ("This route intersects historically significant regions including "
           ++ PyStr.join ", " regions ++ ". Events span from "
           ++ PyStr.of_Z earliest ++ " to " ++ PyStr.of_Z latest
           ++ ", covering Phoenician, Hellenistic, Roman, Byzantine, Islamic, "
           ++ "Mamluk, Ottoman, and modern Lebanese periods.")%string
  end.

Definition route_history_summary (path : list (float * float)) (corridor_km : float)
  : M (list (string * rval)) :=
  if (Z.of_nat (List.length path) <? 2)%Z
  then ret [ ("selected_events", RRefs []);
             ("summary", RStr "Route is too short for evaluation.");
             ("path_length_km", RInt 0) ]
  else
    total <~ lift (route_length RT path 0.0) ;;
    table <~ get_events ;;
    nearby <~ corridor_scan path corridor_km table [] ;;
    nearby <~ sort_refs_int "year" nearby ;;
    summary <~ narrative nearby ;;
    ret [ ("path_length_km", RFloat (round3 RT total));
          ("corridor_km", RFloat corridor_km);
          ("selected_events", RRefs nearby);
          ("summary", RStr summary) ].

End Operations.

(** ** The store that holds the three tables *)

Definition place_dict (p : Place) : dict :=
  [ ("lat", FNum (place_lat p)); ("lon", FNum (place_lon p));
    ("city", FStr (place_city p)); ("type", FStr (place_type p)) ].

Definition poi_dict (p : Poi) : dict :=
  [ ("name", FStr (poi_name p)); ("lat", FNum (poi_lat p));
    ("lon", FNum (poi_lon p)); ("type", FStr (poi_type p)) ].

Definition event_dict (e : Event) : dict :=
  [ ("title", FStr (ev_title e)); ("year", FInt (ev_year e));
    ("lat", FNum (ev_lat e)); ("lon", FNum (ev_lon e));
    ("region", FStr (ev_region e)); ("description", FStr (ev_description e)) ].

(** The tables as the module loads them: the dictionaries of [PLACES],
    then those of [POIS], then those of [EVENTS]. *)
Definition loaded : store :=
  let np := List.length PLACES in
  let nq := List.length POIS in
  mkStore
    (map (fun item => place_dict (snd item)) PLACES
     ++ map poi_dict POIS ++ map event_dict EVENTS)
    (combine (map fst PLACES) (seq 0 np))
    (seq np nq)
    (seq (np + nq) (List.length EVENTS)).

(** ** A call of one of the six operations *)

Inductive call : Type :=
| CallGeocode (query : string)
| CallReverseGeocode (lat lon : float)
| CallNearbySearch (lat lon : float) (poi_type : string) (radius_km : float)
    (limit : option Z)
| CallEventsNearLocation (lat lon radius_km : float) (start_year end_year : option Z)
| CallRegionTimeline (region_name : string) (start_year end_year : option Z)
    (limit : option Z)
| CallRouteHistorySummary (path : list (float * float)) (corridor_km : float).

Inductive answer : Type :=
| AGeocode (r : geocode_ref)
| AReverseGeocode (r : ReverseResult)
| ANearbySearch (query : NearbyQuery) (results : list loc)
| AEventsNearLocation (query : EventsQuery) (events : list loc)
| ARegionTimeline (region : string) (timeline : list loc)
| ARouteHistorySummary (r : list (string * rval)).

Definition run (RT : Runtime) (c : call) : M answer :=
  match c with
  | CallGeocode query => r <~ geocode RT query ;; ret (AGeocode r)
  | CallReverseGeocode lat lon =>
      r <~ reverse_geocode RT lat lon ;; ret (AReverseGeocode r)
  | CallNearbySearch lat lon poi_type radius_km limit =>
      r <~ nearby_search RT lat lon poi_type radius_km limit ;;
      ret (ANearbySearch (fst r) (snd r))
  | CallEventsNearLocation lat lon radius_km start_year end_year =>
      r <~ events_near_location RT lat lon radius_km start_year end_year ;;
      ret (AEventsNearLocation (fst r) (snd r))
  | CallRegionTimeline region_name start_year end_year limit =>
      r <~ region_timeline RT region_name start_year end_year limit ;;
      ret (ARegionTimeline (fst r) (snd r))
  | CallRouteHistorySummary path corridor_km =>
      r <~ route_history_summary RT path corridor_km ;;
      ret (ARouteHistorySummary r)
  end.

(** The references under ["selected_events"]. *)
Fixpoint selected_events (r : list (string * rval)) : list loc :=
  match r with
  | [] => []
  | (k, RRefs l) :: r' =>
      if String.eqb k "selected_events" then l else selected_events r'
  | _ :: r' => selected_events r'
  end.

(** The records of an answer that carry a derived field. *)
Definition derived_records (a : answer) : list loc :=
  match a with
  | ANearbySearch _ results => results
  | AEventsNearLocation _ events => events
  | ARouteHistorySummary r => selected_events r
  | _ => []
  end.

(** The derived field of the records an operation returns, and the table
    whose entries it copies. *)
Definition derived_field (c : call) : string :=
  match c with
  | CallRouteHistorySummary _ _ => "distance_to_route_km"
  | _ => "distance_km"
  end.

Definition source_table (c : call) (s : store) : list loc :=
  match c with
  | CallNearbySearch _ _ _ _ _ => POIS_ref s
  | CallEventsNearLocation _ _ _ _ _ => EVENTS_ref s
  | CallRouteHistorySummary _ _ => EVENTS_ref s
  | _ => []
  end.

End Store.

(* ================================================================== *)
(** * Facts about binary64 arithmetic *)
(* ================================================================== *)

(** The primitive operations are specified on [spec_float]; the facts the
    engine needs are proved there and carried back along [Prim2SF]. *)
Module FloatFacts.

(** ** Classification *)

Definition sf_is_nan (f : spec_float) : bool :=
  match f with S754_nan => true | _ => false end.

Definition sf_is_inf (f : spec_float) : bool :=
  match f with S754_infinity _ => true | _ => false end.

Lemma pos_compare_cont_eq (m1 m2 : positive) :
  PosDef.Pos.compare_cont Eq m1 m2 = (m1 ?= m2)%positive.
Proof. reflexivity. Qed.

Lemma SFcompare_refl (f : spec_float) :
  SFcompare f f = if sf_is_nan f then None else Some Eq.
Proof.
  destruct f as [s|s| |s m e]; simpl; try reflexivity.
  - destruct s; reflexivity.
  - rewrite Z.compare_refl, pos_compare_cont_eq, Pos.compare_refl.
    destruct s; reflexivity.
Qed.

Lemma is_nan_spec (x : float) : is_nan x = sf_is_nan (Prim2SF x).
Proof.
  unfold is_nan. rewrite eqb_spec. unfold SFeqb. rewrite SFcompare_refl.
  destruct (sf_is_nan (Prim2SF x)); reflexivity.
Qed.

Lemma is_infinity_spec (x : float) : is_infinity x = sf_is_inf (Prim2SF x).
Proof.
  unfold is_infinity. rewrite eqb_spec, abs_spec.
  change (Prim2SF infinity) with (S754_infinity false).
  destruct (Prim2SF x) as [s|s| |s m e]; reflexivity.
Qed.

Lemma is_finite_spec (x : float) :
  is_finite x = negb (sf_is_nan (Prim2SF x) || sf_is_inf (Prim2SF x)).
Proof. unfold is_finite. now rewrite is_nan_spec, is_infinity_spec. Qed.

Lemma nan_unique (x : float) : is_nan x = true -> x = nan.
Proof.
  rewrite is_nan_spec. intros H. apply Prim2SF_inj.
  change (Prim2SF nan) with S754_nan.
  destruct (Prim2SF x); simpl in H; congruence.
Qed.

Lemma is_finite_not_nan (x : float) : is_finite x = true -> is_nan x = false.
Proof.
  unfold is_finite. destruct (is_nan x); simpl; congruence.
Qed.

Lemma is_finite_not_inf (x : float) : is_finite x = true -> is_infinity x = false.
Proof.
  unfold is_finite. destruct (is_nan x), (is_infinity x); simpl; congruence.
Qed.

(** ** The order *)

Ltac sf_compare_cases :=
  repeat match goal with
  | H : context [PosDef.Pos.compare_cont Eq ?a ?b] |- _ =>
      rewrite (pos_compare_cont_eq a b) in H
  | |- context [PosDef.Pos.compare_cont Eq ?a ?b] =>
      rewrite (pos_compare_cont_eq a b)
  end;
  repeat match goal with
  | H : context [(?a ?= ?b)%Z] |- _ => destruct (Z.compare_spec a b); subst
  | |- context [(?a ?= ?b)%Z] => destruct (Z.compare_spec a b); subst
  | H : context [(?a ?= ?b)%positive] |- _ => destruct (Pos.compare_spec a b); subst
  | |- context [(?a ?= ?b)%positive] => destruct (Pos.compare_spec a b); subst
  end;
  simpl in *; try reflexivity; try discriminate; try lia.

Lemma SFcompare_antisym (x y : spec_float) :
  SFcompare y x = option_map CompOpp (SFcompare x y).
Proof.
  destruct x as [sx|sx| |sx mx ex], y as [sy|sy| |sy my ey]; simpl;
    try destruct sx; try destruct sy; simpl; try reflexivity; sf_compare_cases.
Qed.

Lemma SFcompare_defined (x y : spec_float) :
  sf_is_nan x = false -> sf_is_nan y = false -> exists c, SFcompare x y = Some c.
Proof.
  destruct x, y; simpl; intros; try discriminate; eauto.
Qed.

Lemma SFcompare_lt_trans (x y z : spec_float) :
  SFcompare x y = Some Lt -> SFcompare y z = Some Lt -> SFcompare x z = Some Lt.
Proof.
  destruct x as [sx|sx| |sx mx ex], y as [sy|sy| |sy my ey], z as [sz|sz| |sz mz ez];
    simpl; try destruct sx; try destruct sy; try destruct sz; simpl;
    try discriminate; try reflexivity; intros H1 H2; sf_compare_cases.
Qed.

Lemma SFcompare_eq_l (x y z : spec_float) :
  SFcompare x y = Some Eq -> SFcompare x z = SFcompare y z.
Proof.
  destruct x as [sx|sx| |sx mx ex], y as [sy|sy| |sy my ey], z as [sz|sz| |sz mz ez];
    simpl; try destruct sx; try destruct sy; try destruct sz; simpl;
    try discriminate; try reflexivity; intros H1; sf_compare_cases.
Qed.

Lemma SFcompare_eq_r (x y z : spec_float) :
  SFcompare x y = Some Eq -> SFcompare z x = SFcompare z y.
Proof.
  intros H. rewrite (SFcompare_antisym x z), (SFcompare_antisym y z).
  now rewrite (SFcompare_eq_l _ _ z H).
Qed.

(** [<] and [<=] read on the comparison. *)
Lemma ltb_compare (x y : float) :
  (x <? y)%float = true <-> SFcompare (Prim2SF x) (Prim2SF y) = Some Lt.
Proof.
  rewrite ltb_spec. unfold SFltb.
  destruct (SFcompare (Prim2SF x) (Prim2SF y)) as [[]|]; split; congruence.
Qed.

Lemma leb_compare (x y : float) :
  (x <=? y)%float = true <->
  SFcompare (Prim2SF x) (Prim2SF y) = Some Lt \/
  SFcompare (Prim2SF x) (Prim2SF y) = Some Eq.
Proof.
  rewrite leb_spec. unfold SFleb.
  destruct (SFcompare (Prim2SF x) (Prim2SF y)) as [[]|]; split;
    intros; try tauto; try congruence; destruct H; congruence.
Qed.

Lemma ltb_trans (x y z : float) :
  (x <? y)%float = true -> (y <? z)%float = true -> (x <? z)%float = true.
Proof. rewrite !ltb_compare. apply SFcompare_lt_trans. Qed.

Lemma leb_ltb_trans (x y z : float) :
  (x <=? y)%float = true -> (y <? z)%float = true -> (x <? z)%float = true.
Proof.
  rewrite leb_compare, !ltb_compare. intros [H|H] Hyz.
  - eapply SFcompare_lt_trans; eauto.
  - now rewrite (SFcompare_eq_l _ _ _ H).
Qed.

Lemma ltb_leb_trans (x y z : float) :
  (x <? y)%float = true -> (y <=? z)%float = true -> (x <? z)%float = true.
Proof.
  rewrite leb_compare, !ltb_compare. intros Hxy [H|H].
  - eapply SFcompare_lt_trans; eauto.
  - now rewrite <- (SFcompare_eq_r _ _ _ H).
Qed.

Lemma leb_trans (x y z : float) :
  (x <=? y)%float = true -> (y <=? z)%float = true -> (x <=? z)%float = true.
Proof.
  intros Hxy Hyz. apply leb_compare in Hyz. destruct Hyz as [H|H].
  - apply leb_compare. left. apply ltb_compare.
    eapply leb_ltb_trans; eauto. now apply ltb_compare.
  - apply leb_compare. rewrite <- (SFcompare_eq_r _ _ _ H).
    now apply leb_compare.
Qed.

Lemma ltb_leb (x y : float) : (x <? y)%float = true -> (x <=? y)%float = true.
Proof. rewrite ltb_compare, leb_compare. tauto. Qed.

Lemma ltb_asym (x y : float) : (x <? y)%float = true -> (y <? x)%float = false.
Proof.
  rewrite ltb_compare. intros H. rewrite ltb_spec. unfold SFltb.
  rewrite SFcompare_antisym, H. reflexivity.
Qed.

Lemma leb_not_ltb (x y : float) : (x <=? y)%float = true -> (y <? x)%float = false.
Proof.
  rewrite leb_compare. intros H. rewrite ltb_spec. unfold SFltb.
  rewrite SFcompare_antisym. destruct H as [H|H]; rewrite H; reflexivity.
Qed.

(** Among numbers the order is total. *)
Lemma not_ltb_leb (x y : float) :
  is_nan x = false -> is_nan y = false ->
  (y <? x)%float = false -> (x <=? y)%float = true.
Proof.
  rewrite !is_nan_spec, ltb_spec, leb_spec. unfold SFltb, SFleb. intros Hx Hy.
  destruct (SFcompare_defined _ _ Hx Hy) as [c Hc].
  rewrite SFcompare_antisym, Hc. destruct c; simpl; congruence.
Qed.

Lemma leb_refl (x : float) : is_nan x = false -> (x <=? x)%float = true.
Proof.
  rewrite is_nan_spec, leb_spec. unfold SFleb. rewrite SFcompare_refl.
  intros ->. reflexivity.
Qed.

(** A comparison that holds has numbers on both sides. *)
Lemma leb_not_nan (x y : float) :
  (x <=? y)%float = true -> is_nan x = false /\ is_nan y = false.
Proof.
  rewrite !is_nan_spec, leb_spec. unfold SFleb.
  destruct (Prim2SF x), (Prim2SF y); simpl; intros; try discriminate; auto.
Qed.

Lemma ltb_not_nan (x y : float) :
  (x <? y)%float = true -> is_nan x = false /\ is_nan y = false.
Proof. intros H. apply leb_not_nan. now apply ltb_leb. Qed.

Lemma ltb_inf (x : float) :
  (x <? infinity)%float = false -> is_nan x = true \/ x = infinity.
Proof.
  rewrite ltb_spec, is_nan_spec. unfold SFltb.
  change (Prim2SF infinity) with (S754_infinity false). intros H.
  destruct (Prim2SF x) as [s|s| |s m e] eqn:E; simpl in *; auto;
    try destruct s; try discriminate.
  right. apply Prim2SF_inj. now rewrite E.
Qed.

Lemma ltb_irrefl (x : float) : (x <? x)%float = false.
Proof.
  destruct (x <? x)%float eqn:E; auto. pose proof (@ltb_asym _ _ E). congruence.
Qed.

Lemma not_leb_ltb (x y : float) :
  is_nan x = false -> is_nan y = false ->
  (x <=? y)%float = false -> (y <? x)%float = true.
Proof.
  rewrite !is_nan_spec, ltb_spec, leb_spec. unfold SFltb, SFleb. intros Hx Hy.
  destruct (SFcompare_defined _ _ Hx Hy) as [c Hc].
  rewrite (SFcompare_antisym (Prim2SF x) (Prim2SF y)), Hc.
  destruct c; simpl; congruence.
Qed.

(** Whatever is below something is below [inf]. *)
Lemma ltb_lt_inf (x y : float) :
  (x <? y)%float = true -> (x <? infinity)%float = true.
Proof.
  rewrite !ltb_spec. unfold SFltb.
  change (Prim2SF infinity) with (S754_infinity false).
  destruct (Prim2SF x) as [sx|sx| |sx mx ex], (Prim2SF y) as [sy|sy| |sy my ey];
    simpl; try destruct sx; try destruct sy; simpl; auto; discriminate.
Qed.

Lemma finite_lt_inf (x : float) :
  is_finite x = true -> (x <? infinity)%float = true.
Proof.
  rewrite is_finite_spec, ltb_spec. unfold SFltb.
  change (Prim2SF infinity) with (S754_infinity false).
  destruct (Prim2SF x) as [s|s| |s m e]; simpl; try discriminate; auto.
Qed.

End FloatFacts.

(* ================================================================== *)
(** * Facts about [sort_by] and [slice_to] *)
(* ================================================================== *)

Section SortFacts.

Variables (A K : Type).
Variable lt : K -> K -> bool.
Variable key : A -> K.

(** The keys on which [lt] behaves as an order: every integer and string,
    every float but NaN. *)
Variable good : K -> Prop.

Hypothesis lt_asym : forall x y, lt x y = true -> lt y x = false.
Hypothesis lt_negtrans : forall x y z, good x -> good y -> good z ->
  lt y x = false -> lt z y = false -> lt z x = false.

(** [a] may stand before [b]: the key of [b] is not below the key of [a]. *)
Definition key_le (a b : A) : Prop := lt (key b) (key a) = false.

(** Two keys neither of which is below the other. *)
Definition key_tie (k1 k2 : K) : bool := negb (lt k1 k2) && negb (lt k2 k1).

(** [out] is [l] sorted by key, ascending, elements with tied keys in the
    order they have in [l]. *)
Definition stable_sorted (l out : list A) : Prop :=
  Permutation out l /\
  StronglySorted key_le out /\
  forall k, good k ->
    filter (fun a => key_tie (key a) k) out = filter (fun a => key_tie (key a) k) l.

Lemma insert_by_perm (x : A) (l : list A) :
  Permutation (insert_by lt key x l) (x :: l).
Proof.
  induction l as [|y l IH]; simpl.
  - reflexivity.
  - destruct (lt (key x) (key y)).
    + reflexivity.
    + rewrite IH. apply perm_swap.
Qed.

Lemma fold_insert_perm (l acc : list A) :
  Permutation (fold_left (fun acc x => insert_by lt key x acc) l acc) (acc ++ l).
Proof.
  revert acc. induction l as [|x l IH]; intros acc; simpl.
  - now rewrite app_nil_r.
  - rewrite IH, insert_by_perm. apply Permutation_middle.
Qed.

Lemma sort_by_perm (l : list A) : Permutation (sort_by lt key l) l.
Proof. unfold sort_by. now rewrite fold_insert_perm. Qed.

Lemma insert_by_sorted (x : A) (l : list A) :
  good (key x) -> Forall (fun a => good (key a)) l ->
  StronglySorted key_le l -> StronglySorted key_le (insert_by lt key x l).
Proof.
  intros Gx Gl Hs. induction Hs as [|y l Hs IH Hy]; simpl.
  - constructor; constructor.
  - inversion Gl as [|? ? Gy Gl']; subst.
    destruct (lt (key x) (key y)) eqn:E.
    + constructor.
      * now constructor.
      * constructor.
        -- unfold key_le. now apply lt_asym.
        -- rewrite Forall_forall in *. intros z Hz. unfold key_le.
           assert (Gz : good (key z)) by now apply Gl'.
           assert (Hyx : lt (key y) (key x) = false) by now apply lt_asym.
           assert (Hzy : lt (key z) (key y) = false) by now apply Hy.
           exact (lt_negtrans Gx Gy Gz Hyx Hzy).
    + constructor.
      * now apply IH.
      * rewrite Forall_forall in *. intros z Hz.
        apply (Permutation_in _ (insert_by_perm x l)) in Hz.
        destruct Hz as [<-|Hz]; [exact E | now apply Hy].
Qed.

Lemma fold_insert_sorted (l acc : list A) :
  Forall (fun a => good (key a)) l -> Forall (fun a => good (key a)) acc ->
  StronglySorted key_le acc ->
  StronglySorted key_le (fold_left (fun acc x => insert_by lt key x acc) l acc).
Proof.
  revert acc. induction l as [|x l IH]; intros acc Gl Ga Hs; simpl; auto.
  inversion Gl; subst. apply IH; auto.
  - rewrite Forall_forall in *. intros z Hz.
    apply (Permutation_in _ (insert_by_perm x acc)) in Hz.
    destruct Hz as [<-|Hz]; auto.
  - now apply insert_by_sorted.
Qed.

(** Inserting [x] puts it behind the elements whose keys tie with its own. *)
Lemma insert_by_tie (x : A) (l : list A) (k : K) :
  good k -> good (key x) -> Forall (fun a => good (key a)) l ->
  StronglySorted key_le l ->
  filter (fun a => key_tie (key a) k) (insert_by lt key x l) =
  filter (fun a => key_tie (key a) k) l ++ (if key_tie (key x) k then [x] else []).
Proof.
  intros Gk Gx Gl Hs. induction Hs as [|y l Hs IH Hy]; simpl.
  - destruct (key_tie (key x) k); reflexivity.
  - inversion Gl as [|? ? Gy Gl']; subst.
    destruct (lt (key x) (key y)) eqn:E.
    + destruct (key_tie (key x) k) eqn:T.
      2:{ simpl. rewrite T. now rewrite app_nil_r. }
      (* nothing from [y] on ties with [k]: it would tie with [x] *)
      assert (N : forall a, In a (y :: l) -> key_tie (key a) k = false).
      { intros a Ha. destruct (key_tie (key a) k) eqn:Ta; auto. exfalso.
        unfold key_tie in T, Ta.
        apply andb_prop in T. destruct T as [T1 T2].
        apply andb_prop in Ta. destruct Ta as [Ta1 Ta2].
        apply negb_true_iff in T1, T2, Ta1, Ta2.
        assert (Ga : good (key a)).
        { rewrite Forall_forall in Gl. now apply Gl. }
        assert (Hxa : lt (key x) (key a) = false).
        { apply lt_negtrans with (y := k); auto. }
        assert (Hya : lt (key a) (key y) = false).
        { destruct Ha as [<-|Ha].
          - destruct (lt (key y) (key y)) eqn:R; auto.
            pose proof (lt_asym R). congruence.
          - rewrite Forall_forall in Hy. now apply Hy. }
        assert (C : lt (key x) (key y) = false).
        { apply lt_negtrans with (y := key a); auto. }
        congruence. }
      simpl filter at 1. rewrite T.
      assert (F : filter (fun a => key_tie (key a) k) (y :: l) = []).
      { clear - N. induction (y :: l) as [|b m IHm]; simpl; auto.
        rewrite (N b (or_introl eq_refl)). apply IHm.
        intros a Ha. apply N. now right. }
      simpl filter at 1. simpl in F. rewrite F. reflexivity.
    + simpl. rewrite (IH Gl'). now destruct (key_tie (key y) k).
Qed.

Lemma fold_insert_tie (l acc : list A) (k : K) :
  good k -> Forall (fun a => good (key a)) l -> Forall (fun a => good (key a)) acc ->
  StronglySorted key_le acc ->
  filter (fun a => key_tie (key a) k)
    (fold_left (fun acc x => insert_by lt key x acc) l acc) =
  filter (fun a => key_tie (key a) k) acc ++ filter (fun a => key_tie (key a) k) l.
Proof.
  intros Gk. revert acc. induction l as [|x l IH]; intros acc Gl Ga Hs; simpl.
  - now rewrite app_nil_r.
  - inversion Gl; subst. rewrite IH; auto.
    + rewrite insert_by_tie by auto. rewrite <- app_assoc.
      now destruct (key_tie (key x) k).
    + rewrite Forall_forall in *. intros z Hz.
      apply (Permutation_in _ (insert_by_perm x acc)) in Hz.
      destruct Hz as [<-|Hz]; auto.
    + now apply insert_by_sorted.
Qed.

(** [sort_by] is a stable sort on lists whose keys are ordered by [lt]. *)
Lemma sort_by_stable_sorted (l : list A) :
  Forall (fun a => good (key a)) l -> stable_sorted l (sort_by lt key l).
Proof.
  intros G. split; [|split].
  - apply sort_by_perm.
  - apply fold_insert_sorted; auto. constructor.
  - intros k Gk. unfold sort_by. rewrite fold_insert_tie; auto. constructor.
Qed.

(** In a list sorted by key the head has the least key and the last
    element the greatest. *)
Lemma sorted_head_le (x : A) (l : list A) :
  StronglySorted key_le (x :: l) -> forall a, In a l -> key_le x a.
Proof.
  intros H a Ha. inversion H as [|? ? _ F]; subst.
  rewrite Forall_forall in F. now apply F.
Qed.

Lemma sorted_last_ge (l : list A) (d : A) :
  StronglySorted key_le l -> forall a, In a (removelast l) -> key_le a (last l d).
Proof.
  induction 1 as [|x l Hs IH F]; simpl; intros a Ha; [contradiction|].
  destruct l as [|y l]; [contradiction|].
  destruct Ha as [<-|Ha].
  - rewrite Forall_forall in F. apply F.
    destruct (@exists_last _ (y :: l)) as (l' & z & E); [discriminate|].
    rewrite E. rewrite last_last. rewrite <- E || idtac.
    rewrite E. apply in_or_app. right. now left.
  - now apply IH.
Qed.

End SortFacts.

Section SliceFacts.

Variable A : Type.

Lemma slice_to_nonneg (l : list A) (n : Z) :
  (0 <= n)%Z -> slice_to l n = firstn (Z.to_nat n) l.
Proof.
  intros H. unfold slice_to. destruct (Z.ltb_spec n 0); [lia | reflexivity].
Qed.

Lemma slice_to_neg (l : list A) (n : Z) :
  (n < 0)%Z -> slice_to l n = firstn (List.length l - Z.to_nat (- n)) l.
Proof.
  intros H. unfold slice_to. destruct (Z.ltb_spec n 0); [|lia].
  f_equal. lia.
Qed.

Lemma slice_to_length (l : list A) (n : Z) :
  (0 <= n)%Z -> (Z.of_nat (List.length (slice_to l n)) <= n)%Z.
Proof.
  intros H. rewrite slice_to_nonneg by assumption.
  rewrite length_firstn. lia.
Qed.

End SliceFacts.

(* ================================================================== *)
(** * Facts about strings and scans *)
(* ================================================================== *)

(** [q] occurs in [s]: some text, then [q], then some text. *)
Definition is_substring (q s : string) : Prop :=
  exists a b, s = (a ++ q ++ b)%string.

(** [x] is the first element of [l] that satisfies [p]. *)
Definition first_such {A : Type} (p : A -> bool) (l : list A) (x : A) : Prop :=
  exists pre post, l = pre ++ x :: post /\ p x = true /\
                   forall y, In y pre -> p y = false.

(** [x] is the first element of [l] with the property [P]. *)
Definition first_where {A : Type} (P : A -> Prop) (l : list A) (x : A) : Prop :=
  exists pre post, l = pre ++ x :: post /\ P x /\ forall y, In y pre -> ~ P y.

Lemma prefix_iff (q s : string) :
  prefix q s = true <-> exists b, s = (q ++ b)%string.
Proof.
  revert s. induction q as [|c q IH]; intros s.
  - split; [intros _; now exists s | intros _; now destruct s].
  - destruct s as [|d s]; simpl.
    + split; [discriminate | intros [b Hb]; discriminate].
    + destruct (ascii_dec c d) as [->|N].
      * rewrite IH. split; intros [b Hb]; exists b; congruence.
      * split; [discriminate | intros [b Hb]; congruence].
Qed.

Lemma contains_iff (q s : string) :
  PyStr.contains q s = true <-> is_substring q s.
Proof.
  unfold is_substring. induction s as [|c s IH].
  - change (PyStr.contains q EmptyString) with (prefix q EmptyString || false).
    rewrite orb_false_r, prefix_iff. split.
    + intros [b Hb]. now exists EmptyString, b.
    + intros (a & b & H). destruct a; simpl in H.
      * now exists b.
      * discriminate.
  - change (PyStr.contains q (String c s))
      with (prefix q (String c s) || PyStr.contains q s).
    rewrite orb_true_iff, IH, prefix_iff. split.
    + intros [[b Hb]|(a & b & H)].
      * now exists EmptyString, b.
      * exists (String c a), b. simpl. now rewrite H.
    + intros (a & b & H). destruct a as [|d a]; simpl in H.
      * left. now exists b.
      * right. exists a, b. congruence.
Qed.

Lemma find_first_such {A : Type} (p : A -> bool) (l : list A) (x : A) :
  find p l = Some x <-> first_such p l x.
Proof.
  unfold first_such. induction l as [|y l IH]; simpl.
  - split; [discriminate | intros (pre & post & H & _)].
    now destruct pre.
  - destruct (p y) eqn:E.
    + split.
      * intros [= <-]. exists [], l. simpl. intuition.
      * intros (pre & post & H & Hx & Hpre). destruct pre as [|z pre]; simpl in H.
        -- congruence.
        -- injection H as <- _. rewrite (Hpre y) in E; [discriminate | now left].
    + rewrite IH. split.
      * intros (pre & post & -> & Hx & Hpre). exists (y :: pre), post.
        simpl. repeat split; auto. intros z [<-|Hz]; auto.
      * intros (pre & post & H & Hx & Hpre). destruct pre as [|z pre]; simpl in H.
        -- congruence.
        -- injection H as <- ->. exists pre, post. repeat split; auto.
           intros z Hz. apply Hpre. now right.
Qed.

Lemma first_such_where {A : Type} (p : A -> bool) (P : A -> Prop) (l : list A) (x : A) :
  (forall y, p y = true <-> P y) -> first_such p l x -> first_where P l x.
Proof.
  intros R (pre & post & E & Hx & Hpre). exists pre, post. repeat split; auto.
  - now apply R.
  - intros y Hy Py. apply R in Py. rewrite (Hpre y Hy) in Py. discriminate.
Qed.

Lemma find_none_iff {A : Type} (p : A -> bool) (l : list A) :
  find p l = None <-> forall y, In y l -> p y = false.
Proof.
  split.
  - intros H y Hy. now apply (find_none p l H).
  - induction l as [|y l IH]; simpl; intros H; auto.
    rewrite (H y (or_introl eq_refl)). apply IH. intros z Hz. apply H. now right.
Qed.

(** The year window of [_filter_years]. *)
Definition year_in_range (start_year end_year : option Z) (y : Z) : bool :=
  match start_year with Some s => (s <=? y)%Z | None => true end &&
  match end_year with Some e => (y <=? e)%Z | None => true end.

Lemma _filter_years_filter (events : list Event) (start_year end_year : option Z) :
  _filter_years events start_year end_year =
  filter (fun ev => year_in_range start_year end_year (ev_year ev)) events.
Proof.
  induction events as [|ev rest IH]; simpl; auto.
  unfold year_in_range at 1.
  destruct start_year as [s|], end_year as [e|]; simpl;
    repeat match goal with
    | |- context [(?a <? ?b)%Z] => destruct (Z.ltb_spec a b)
    | |- context [(?a >? ?b)%Z] => rewrite (Z.gtb_ltb a b)
    | |- context [(?a <=? ?b)%Z] => destruct (Z.leb_spec a b)
    end; simpl; try lia; rewrite IH; reflexivity.
Qed.

Lemma year_in_range_iff (start_year end_year : option Z) (y : Z) :
  year_in_range start_year end_year y = true <->
  (forall s, start_year = Some s -> (s <= y)%Z) /\
  (forall e, end_year = Some e -> (y <= e)%Z).
Proof.
  unfold year_in_range. rewrite andb_true_iff.
  destruct start_year as [s|], end_year as [e|]; rewrite ?Z.leb_le; split;
    intros [H1 H2]; split; auto; try (intros ? [= <-]; assumption);
    try discriminate; auto.
Qed.

Lemma filter_filter {A : Type} (p q : A -> bool) (l : list A) :
  filter q (filter p l) = filter (fun x => p x && q x) l.
Proof.
  induction l as [|x l IH]; simpl; auto.
  destruct (p x); simpl; [destruct (q x)|]; now rewrite IH.
Qed.

(** Integer keys are ordered by [Z.ltb]. *)
Lemma Z_ltb_asym (x y : Z) : (x <? y)%Z = true -> (y <? x)%Z = false.
Proof. rewrite Z.ltb_lt, Z.ltb_ge. lia. Qed.

Lemma Z_ltb_negtrans (x y z : Z) :
  True -> True -> True -> (y <? x)%Z = false -> (z <? y)%Z = false -> (z <? x)%Z = false.
Proof. rewrite !Z.ltb_ge. lia. Qed.

Lemma sort_by_year_stable {A : Type} (key : A -> Z) (l : list A) :
  stable_sorted Z.ltb key (fun _ => True) l (sort_by Z.ltb key l).
Proof.
  apply sort_by_stable_sorted.
  - exact Z_ltb_asym.
  - exact Z_ltb_negtrans.
  - apply Forall_forall. auto.
Qed.


(* ================================================================== *)
(** * Trimming and lower-casing *)
(* ================================================================== *)

Lemma str_lower_ascii (RT : Runtime) (s : string) :
  PyStr.is_ascii s = true -> str_lower RT s = PyStr.ascii_lower s.
Proof. intros H. unfold str_lower, PyStr.lower. now rewrite H. Qed.

Lemma str_lower_eq (RT : Runtime) (s : string) :
  str_lower RT s
  = if PyStr.is_ascii s then PyStr.ascii_lower s else case_lower RT s.
Proof. reflexivity. Qed.

(** What [lstrip] drops is white space, and what it leaves does not begin
    with a white-space character. *)
Lemma lstrip_spec_le (n : nat) (s : string) :
  (String.length s <= n)%nat ->
  exists pre, s = (pre ++ PyStr.lstrip s)%string
              /\ PyStr.all_space pre = true
              /\ PyStr.starts_with_space (PyStr.lstrip s) = false.
Proof.
  revert s. induction n as [|n IH]; intros s Hn.
  - destruct s; [|cbn in Hn; lia]. exists EmptyString. auto.
  - destruct s as [|a s1]; [exists EmptyString; auto|].
    cbn [PyStr.lstrip]. destruct (PyStr.space1 a) eqn:E1.
    { destruct (IH s1) as (pre & Hs & Hw & Hl); [cbn in Hn; lia|].
      exists (String a pre). cbn [append PyStr.all_space]. rewrite E1.
      split; [congruence | auto]. }
    destruct s1 as [|b s2].
    { exists EmptyString. cbn. rewrite E1. auto. }
    destruct (PyStr.space2 a b) eqn:E2.
    { destruct (IH s2) as (pre & Hs & Hw & Hl); [cbn in Hn; lia|].
      exists (String a (String b pre)). cbn [append PyStr.all_space].
      rewrite E1, E2. split; [congruence | auto]. }
    destruct s2 as [|c s3].
    { exists EmptyString. cbn. rewrite E1, E2. auto. }
    destruct (PyStr.space3 a b c) eqn:E3.
    { destruct (IH s3) as (pre & Hs & Hw & Hl); [cbn in Hn; lia|].
      exists (String a (String b (String c pre))). cbn [append PyStr.all_space].
      rewrite E1, E2, E3. split; [congruence | auto]. }
    exists EmptyString. cbn. rewrite E1, E2, E3. auto.
Qed.

Lemma lstrip_spec (s : string) :
  exists pre, s = (pre ++ PyStr.lstrip s)%string
              /\ PyStr.all_space pre = true
              /\ PyStr.starts_with_space (PyStr.lstrip s) = false.
Proof. apply (@lstrip_spec_le (String.length s) s). lia. Qed.

Lemma all_space_app_le (n : nat) (x y : string) :
  (String.length x <= n)%nat ->
  PyStr.all_space x = true -> PyStr.all_space y = true ->
  PyStr.all_space (x ++ y) = true.
Proof.
  revert x. induction n as [|n IH]; intros x Hn Hx Hy.
  - destruct x; [exact Hy | cbn in Hn; lia].
  - destruct x as [|a x1]; [exact Hy|].
    cbn [append PyStr.all_space] in *. destruct (PyStr.space1 a).
    { apply IH; auto. cbn in Hn. lia. }
    destruct x1 as [|b x2]; [discriminate|].
    cbn [append] in *. destruct (PyStr.space2 a b).
    { apply IH; auto. cbn in Hn. lia. }
    destruct x2 as [|c x3]; [discriminate|].
    cbn [append] in *. destruct (PyStr.space3 a b c); [|discriminate].
    apply IH; auto. cbn in Hn. lia.
Qed.

Lemma all_space_app (x y : string) :
  PyStr.all_space x = true -> PyStr.all_space y = true ->
  PyStr.all_space (x ++ y) = true.
Proof. apply (@all_space_app_le (String.length x) x y). lia. Qed.

(** What [rstrip] drops is white space. *)
Lemma rstrip_app (s : string) :
  exists post, s = (PyStr.rstrip s ++ post)%string /\ PyStr.all_space post = true.
Proof.
  induction s as [|a s1 IH]; [exists EmptyString; auto|].
  cbn [PyStr.rstrip]. destruct (PyStr.all_space (String a s1)) eqn:E.
  - exists (String a s1). auto.
  - destruct IH as (post & Hs & Hw). exists post. cbn [append].
    split; [congruence | exact Hw].
Qed.

(** What [rstrip] leaves does not end with white space. *)
Lemma rstrip_trimmed (s u v : string) :
  PyStr.rstrip s = (u ++ v)%string -> v <> EmptyString ->
  PyStr.all_space v = false.
Proof.
  revert u. induction s as [|a s1 IH]; intros u H Hv.
  - destruct u, v; cbn in H; try discriminate. contradiction.
  - cbn [PyStr.rstrip] in H. destruct (PyStr.all_space (String a s1)) eqn:E.
    + destruct u, v; cbn in H; try discriminate. contradiction.
    + destruct u as [|a' u'].
      * cbn [append] in H. subst v.
        destruct (PyStr.all_space (String a (PyStr.rstrip s1))) eqn:F; [|reflexivity].
        destruct (rstrip_app s1) as (post & Hs & Hw).
        pose proof (all_space_app _ _ F Hw) as G.
        cbn [append] in G. rewrite <- Hs in G. congruence.
      * cbn [append] in H. injection H as _ H. exact (IH u' H Hv).
Qed.

Lemma starts_with_space_app (x y : string) :
  PyStr.starts_with_space x = true -> PyStr.starts_with_space (x ++ y) = true.
Proof.
  destruct x as [|a [|b [|c x]]]; cbn; try discriminate; auto.
  - rewrite orb_false_r. intros ->. reflexivity.
  - rewrite orb_false_r. destruct (PyStr.space1 a); [reflexivity|].
    cbn. intros ->. reflexivity.
Qed.

(** [s.strip()] is [s] without the white space around it: what is cut
    at both ends is white space, and what is left neither begins nor
    ends with a white-space character. *)
Definition trimmed_of (s t : string) : Prop :=
  (exists pre post, s = (pre ++ t ++ post)%string
                    /\ PyStr.all_space pre = true /\ PyStr.all_space post = true)
  /\ PyStr.starts_with_space t = false
  /\ (forall u v, t = (u ++ v)%string -> v <> EmptyString ->
                  PyStr.all_space v = false).

Lemma strip_spec (s : string) : trimmed_of s (PyStr.strip s).
Proof.
  unfold trimmed_of, PyStr.strip.
  destruct (lstrip_spec s) as (pre & Hs & Hw & Hl).
  destruct (rstrip_app (PyStr.lstrip s)) as (post & Ht & Hp).
  split; [|split].
  - exists pre, post. split; [|auto]. rewrite Hs at 1. now rewrite <- Ht.
  - destruct (PyStr.starts_with_space (PyStr.rstrip (PyStr.lstrip s))) eqn:E;
      [|reflexivity].
    apply starts_with_space_app with (y := post) in E.
    rewrite <- Ht in E. congruence.
  - intros u v. apply rstrip_trimmed.
Qed.
(* ================================================================== *)
(** * Facts about binary64 rounding, signs and magnitudes *)
(* ================================================================== *)

Module FloatArith.

Import FloatFacts.

(** ** Rounding on [spec_float] *)

(** A number with the sign [s]. *)
Definition sf_signed (s : bool) (f : spec_float) : Prop :=
  match f with
  | S754_zero s' | S754_infinity s' | S754_finite s' _ _ => s' = s
  | S754_nan => False
  end.

Lemma iter_pos_inv {A : Type} (P : A -> Prop) (f : A -> A) :
  (forall x, P x -> P (f x)) -> forall p x, P x -> P (iter_pos f p x).
Proof.
  intros Hf. induction p as [p IH|p IH|]; intros x Hx; simpl; auto.
Qed.

Lemma shr_1_nonneg (mrs : shr_record) :
  (0 <= shr_m mrs)%Z -> (0 <= shr_m (shr_1 mrs))%Z.
Proof.
  destruct mrs as [m r s]. simpl. destruct m as [|p|p]; simpl; try lia.
  destruct p; simpl; lia.
Qed.

Lemma shr_fexp_nonneg (m e : Z) (l : location) :
  (0 <= m)%Z -> (0 <= shr_m (fst (shr_fexp prec emax m e l)))%Z.
Proof.
  intros H. unfold shr_fexp, shr.
  assert (H0 : (0 <= shr_m (shr_record_of_loc m l))%Z).
  { destruct l as [|[]]; simpl; exact H. }
  destruct (fexp prec emax (Zdigits2 m + e) - e)%Z; simpl; auto.
  apply iter_pos_inv; auto. apply shr_1_nonneg.
Qed.

Lemma round_nearest_even_nonneg (m : Z) (l : location) :
  (0 <= m)%Z -> (0 <= round_nearest_even m l)%Z.
Proof.
  intros H. destruct l as [|[]]; simpl; try lia. destruct (IntDef.Z.even m); lia.
Qed.

Lemma binary_round_aux_signed (s : bool) (m e : Z) (l : location) :
  (0 <= m)%Z -> sf_signed s (binary_round_aux prec emax s m e l).
Proof.
  intros H. unfold binary_round_aux.
  pose proof (shr_fexp_nonneg e l H) as H1.
  destruct (shr_fexp prec emax m e l) as [mrs' e'] eqn:E1. simpl in H1.
  pose proof (round_nearest_even_nonneg (loc_of_shr_record mrs') H1) as H2.
  pose proof (shr_fexp_nonneg e' loc_Exact H2) as H3.
  destruct (shr_fexp prec emax _ e' loc_Exact) as [mrs'' e''] eqn:E2. simpl in H3.
  destruct (shr_m mrs'') as [|p|p]; try lia; [reflexivity|].
  destruct (e'' <=? emax - prec)%Z; reflexivity.
Qed.

Lemma binary_round_aux_opp (s : bool) (m e : Z) (l : location) :
  binary_round_aux prec emax (negb s) m e l = SFopp (binary_round_aux prec emax s m e l).
Proof.
  unfold binary_round_aux.
  destruct (shr_fexp prec emax m e l) as [mrs' e'].
  destruct (shr_fexp prec emax _ e' loc_Exact) as [mrs'' e''].
  destruct (shr_m mrs''); try reflexivity.
  destruct (e'' <=? emax - prec)%Z; reflexivity.
Qed.

(** The digits of a mantissa. *)
Lemma digits2_pos_size (p : positive) : digits2_pos p = Pos.size p.
Proof. induction p; simpl; congruence. Qed.

Lemma Zdigits2_nonneg (m : Z) : (0 <= m)%Z -> (0 <= Zdigits2 m)%Z.
Proof. destruct m; simpl; lia. Qed.

Lemma Zdigits2_gt (m : Z) : (0 <= m)%Z -> (m < 2 ^ Zdigits2 m)%Z.
Proof.
  destruct m as [|p|p]; simpl; try lia. intros _.
  rewrite digits2_pos_size. pose proof (Pos.size_gt p) as H.
  apply Pos2Z.pos_lt_pos in H. rewrite Pos2Z.inj_pow in H. exact H.
Qed.

Lemma Zdigits2_le (p : positive) : (2 ^ (Zdigits2 (Z.pos p) - 1) <= Z.pos p)%Z.
Proof.
  unfold Zdigits2. rewrite digits2_pos_size. pose proof (Pos.size_le p) as H.
  apply Pos2Z.pos_le_pos in H. rewrite Pos2Z.inj_pow in H.
  assert (E : (2 ^ Z.pos (Pos.size p) = 2 * 2 ^ (Z.pos (Pos.size p) - 1))%Z).
  { rewrite <- Z.pow_succ_r by lia. f_equal. lia. }
  change (2 * 1)%Z with 2%Z in H. rewrite E in H. lia.
Qed.

Lemma Zdigits2_bound (m : Z) (d : Z) :
  (0 <= m)%Z -> (0 <= d)%Z -> (m < 2 ^ d)%Z -> (Zdigits2 m <= d)%Z.
Proof.
  intros Hm Hd H. destruct m as [|p|p]; try lia. { simpl; lia. }
  pose proof (Zdigits2_le p) as L.
  destruct (Z.le_gt_cases (Zdigits2 (Z.pos p)) d) as [|G]; auto.
  assert (2 ^ d <= 2 ^ (Zdigits2 (Z.pos p) - 1))%Z by (apply Z.pow_le_mono_r; lia).
  lia.
Qed.

Lemma shr_1_digits (mrs : shr_record) :
  (0 <= shr_m mrs)%Z ->
  Zdigits2 (shr_m (shr_1 mrs)) = Z.max 0 (Zdigits2 (shr_m mrs) - 1).
Proof.
  destruct mrs as [m r s]. cbn [shr_m]. destruct m as [|p|p]; try lia.
  - reflexivity.
  - intros _. destruct p; cbn [shr_1 shr_m Zdigits2 digits2_pos];
      rewrite ?Pos2Z.inj_succ; lia.
Qed.

Lemma iter_shr_1_digits (p : positive) (mrs : shr_record) :
  (0 <= shr_m mrs)%Z ->
  (0 <= shr_m (iter_pos shr_1 p mrs))%Z /\
  Zdigits2 (shr_m (iter_pos shr_1 p mrs)) = Z.max 0 (Zdigits2 (shr_m mrs) - Z.pos p).
Proof.
  revert mrs. induction p as [p IH|p IH|]; intros mrs H; simpl.
  - pose proof (shr_1_nonneg mrs H) as H1.
    pose proof (shr_1_digits mrs H) as D1.
    destruct (IH _ H1) as [H2 D2]. destruct (IH _ H2) as [H3 D3].
    split; auto. rewrite D3, D2, D1. lia.
  - destruct (IH _ H) as [H2 D2]. destruct (IH _ H2) as [H3 D3].
    split; auto. rewrite D3, D2. lia.
  - split; [now apply shr_1_nonneg | now apply shr_1_digits].
Qed.

Lemma fexp_eq (k : Z) : fexp prec emax k = Z.max (k - 53) (-1074).
Proof. reflexivity. Qed.

Lemma shr_fexp_exp (m e : Z) (l : location) :
  snd (shr_fexp prec emax m e l) = Z.max e (fexp prec emax (Zdigits2 m + e)).
Proof.
  unfold shr_fexp, shr.
  destruct (fexp prec emax (Zdigits2 m + e) - e)%Z eqn:E; simpl; lia.
Qed.

Lemma shr_fexp_digits (m e : Z) (l : location) :
  (0 <= m)%Z -> (Zdigits2 (shr_m (fst (shr_fexp prec emax m e l))) <= 53)%Z.
Proof.
  intros H. unfold shr_fexp, shr.
  assert (H0 : shr_m (shr_record_of_loc m l) = m).
  { destruct l as [|[]]; reflexivity. }
  pose proof (Zdigits2_nonneg H) as Dn.
  destruct (fexp prec emax (Zdigits2 m + e) - e)%Z eqn:E; simpl;
    rewrite fexp_eq in E.
  - rewrite H0. lia.
  - destruct (@iter_shr_1_digits p (shr_record_of_loc m l)) as [_ D].
    { now rewrite H0. }
    rewrite D, H0. lia.
  - rewrite H0. lia.
Qed.

Lemma round_nearest_even_le (m : Z) (l : location) :
  (round_nearest_even m l <= m + 1)%Z.
Proof.
  destruct l as [|[]]; simpl; try lia. destruct (IntDef.Z.even m); lia.
Qed.

(** Rounding does not overflow below the top binade. *)
Lemma binary_round_aux_no_overflow (s : bool) (m e : Z) (l : location) :
  (0 <= m)%Z -> (e <= 970)%Z -> (Zdigits2 m + e <= 1023)%Z ->
  sf_is_inf (binary_round_aux prec emax s m e l) = false.
Proof.
  intros H He Hd. unfold binary_round_aux.
  pose proof (shr_fexp_nonneg e l H) as H1.
  pose proof (shr_fexp_digits e l H) as D1.
  pose proof (shr_fexp_exp m e l) as E1.
  destruct (shr_fexp prec emax m e l) as [mrs' e']. simpl in H1, D1, E1.
  set (m2 := round_nearest_even (shr_m mrs') (loc_of_shr_record mrs')).
  assert (H2 : (0 <= m2)%Z) by now apply round_nearest_even_nonneg.
  assert (D2 : (Zdigits2 m2 <= 54)%Z).
  { apply Zdigits2_bound; auto; try lia.
    pose proof (Zdigits2_gt H1) as G.
    pose proof (round_nearest_even_le (shr_m mrs') (loc_of_shr_record mrs')) as L.
    fold m2 in L.
    assert (2 ^ Zdigits2 (shr_m mrs') <= 2 ^ 53)%Z.
    { apply Z.pow_le_mono_r; try lia. }
    change (2 ^ 54)%Z with (2 * 2 ^ 53)%Z. lia. }
  pose proof (shr_fexp_exp m2 e' loc_Exact) as E2.
  destruct (shr_fexp prec emax m2 e' loc_Exact) as [mrs'' e'']. simpl in E2.
  destruct (shr_m mrs''); try reflexivity.
  rewrite !fexp_eq in *.
  destruct (Z.leb_spec e'' (emax - prec)); [reflexivity|].
  change (emax - prec)%Z with 971%Z in *. lia.
Qed.

(** ** Carried to the primitive floats *)

Lemma binary_round_aux_signed_or_nan (s : bool) (m e : Z) (l : location) :
  sf_is_nan (binary_round_aux prec emax s m e l) = false ->
  sf_signed s (binary_round_aux prec emax s m e l).
Proof.
  unfold binary_round_aux.
  destruct (shr_fexp prec emax m e l) as [mrs' e'].
  destruct (shr_fexp prec emax _ e' loc_Exact) as [mrs'' e''].
  destruct (shr_m mrs''); try reflexivity; try discriminate.
  destruct (e'' <=? emax - prec)%Z; reflexivity.
Qed.

Lemma binary_round_opp (s : bool) (m : positive) (e : Z) :
  binary_round prec emax (negb s) m e = SFopp (binary_round prec emax s m e).
Proof.
  unfold binary_round. destruct (shl_align m e _) as [mz ez].
  apply binary_round_aux_opp.
Qed.

Lemma binary_round_signed (s : bool) (m : positive) (e : Z) :
  sf_signed s (binary_round prec emax s m e).
Proof.
  unfold binary_round. destruct (shl_align m e _) as [mz ez].
  apply binary_round_aux_signed. lia.
Qed.

Lemma sf_signed_not_nan (s : bool) (f : spec_float) :
  sf_signed s f -> sf_is_nan f = false.
Proof. destruct f; simpl; auto. contradiction. Qed.

Lemma mul_comm (x y : float) : x * y = y * x.
Proof.
  apply Prim2SF_inj. rewrite !mul_spec. unfold SF64mul, SFmul.
  destruct (Prim2SF x) as [sx|sx| |sx mx ex], (Prim2SF y) as [sy|sy| |sy my ey];
    try reflexivity; try (now rewrite xorb_comm).
  now rewrite xorb_comm, Pos.mul_comm, Z.add_comm.
Qed.

Lemma opp_involutive (x : float) : - - x = x.
Proof.
  apply Prim2SF_inj. rewrite !opp_spec.
  destruct (Prim2SF x); simpl; now rewrite ?negb_involutive.
Qed.

Lemma xorb_negb_l (a b : bool) : xorb (negb a) b = negb (xorb a b).
Proof. now destruct a, b. Qed.

Lemma mul_opp_l (x y : float) : (- x) * y = - (x * y).
Proof.
  apply Prim2SF_inj. rewrite opp_spec, !mul_spec, opp_spec. unfold SF64mul, SFmul.
  destruct (Prim2SF x) as [sx|sx| |sx mx ex], (Prim2SF y) as [sy|sy| |sy my ey];
    simpl; try reflexivity; try (now rewrite xorb_negb_l).
  rewrite xorb_negb_l. apply binary_round_aux_opp.
Qed.

Lemma div_opp_l (x y : float) : (- x) / y = - (x / y).
Proof.
  apply Prim2SF_inj. rewrite opp_spec, !div_spec, opp_spec. unfold SF64div, SFdiv.
  destruct (Prim2SF x) as [sx|sx| |sx mx ex], (Prim2SF y) as [sy|sy| |sy my ey];
    simpl; try reflexivity; try (now rewrite xorb_negb_l).
  rewrite xorb_negb_l.
  destruct (SFdiv_core_binary prec emax (Z.pos mx) ex (Z.pos my) ey) as [[mz ez] lz].
  apply binary_round_aux_opp.
Qed.

Lemma binary_normalize_opp (m e : Z) :
  m <> 0%Z ->
  binary_normalize prec emax (- m) e false = SFopp (binary_normalize prec emax m e false).
Proof.
  destruct m as [|p|p]; intros H; try congruence; simpl.
  - apply (binary_round_opp false).
  - rewrite <- (binary_round_opp true). reflexivity.
Qed.

(** [x - y] is the opposite of [y - x], but for two zero differences. *)
Lemma sub_antisym (x y : float) :
  x - y = - (y - x) \/ (x - y = 0 /\ y - x = 0).
Proof.
  assert (T : forall a b : float, Prim2SF a = SFopp (Prim2SF b) -> a = - b).
  { intros a b H. apply Prim2SF_inj. now rewrite opp_spec. }
  assert (Z0 : forall a : float, Prim2SF a = S754_zero false -> a = 0).
  { intros a H. apply Prim2SF_inj. exact H. }
  pose proof (sub_spec x y) as Sxy. pose proof (sub_spec y x) as Syx.
  unfold SF64sub, SFsub in *.
  destruct (Prim2SF x) as [sx|sx| |sx mx ex], (Prim2SF y) as [sy|sy| |sy my ey];
    try (left; apply T; rewrite Sxy, Syx; simpl;
         try destruct sx; try destruct sy; reflexivity).
  - destruct sx, sy;
      try (left; apply T; rewrite Sxy, Syx; reflexivity);
      right; split; apply Z0; assumption.
  - rewrite (Z.min_comm ey ex) in Syx.
    set (ez := IntDef.Z.min ex ey) in *.
    set (a := cond_Zopp sx (Z.pos (fst (shl_align mx ex ez)))) in *.
    set (b := cond_Zopp sy (Z.pos (fst (shl_align my ey ez)))) in *.
    destruct (Z.eq_dec (a - b) 0) as [E|N].
    + right. assert (E' : (b - a = 0)%Z) by lia.
      rewrite E in Sxy. rewrite E' in Syx. split; apply Z0; assumption.
    + left. apply T. rewrite Sxy, Syx.
      replace (a - b)%Z with (- (b - a))%Z by lia.
      apply binary_normalize_opp. lia.
Qed.

Lemma sub_diag (x : float) : is_finite x = true -> x - x = 0.
Proof.
  rewrite is_finite_spec. intros H. apply Prim2SF_inj. rewrite sub_spec.
  unfold SF64sub, SFsub.
  destruct (Prim2SF x) as [s|s| |s m e]; simpl in H; try discriminate.
  - destruct s; reflexivity.
  - rewrite Z.sub_diag. reflexivity.
Qed.

Lemma is_nan_opp (x : float) : is_nan (- x) = is_nan x.
Proof. rewrite !is_nan_spec, opp_spec. now destruct (Prim2SF x). Qed.

Lemma is_infinity_opp (x : float) : is_infinity (- x) = is_infinity x.
Proof. rewrite !is_infinity_spec, opp_spec. now destruct (Prim2SF x). Qed.

Lemma is_finite_opp (x : float) : is_finite (- x) = is_finite x.
Proof. unfold is_finite. now rewrite is_nan_opp, is_infinity_opp. Qed.

Lemma abs_opp (x : float) : abs (- x) = abs x.
Proof.
  apply Prim2SF_inj. rewrite !abs_spec, opp_spec. now destruct (Prim2SF x).
Qed.

Lemma eqb_zero_opp (x : float) : (- x =? 0) = (x =? 0).
Proof.
  rewrite !eqb_spec, opp_spec. change (Prim2SF 0) with (S754_zero false).
  destruct (Prim2SF x) as [s|s| |s m e]; try destruct s; reflexivity.
Qed.

(** The base [float_pow] hands to libm is the absolute value. *)
Lemma pow_base_abs (x : float) :
  is_nan x = false -> (x =? 0) = false -> (if x <? 0 then - x else x) = abs x.
Proof.
  rewrite is_nan_spec, eqb_spec, ltb_spec. change (Prim2SF 0) with (S754_zero false).
  intros Hn Hz. apply Prim2SF_inj.
  assert (E : Prim2SF (if SFltb (Prim2SF x) (S754_zero false) then - x else x)
              = SFabs (Prim2SF x)).
  { destruct (Prim2SF x) as [s|s| |s m e] eqn:Ex; simpl in *; try discriminate;
      destruct s; simpl; rewrite ?opp_spec, Ex; reflexivity. }
  now rewrite abs_spec.
Qed.

Lemma mul_finite_not_nan (x y : float) :
  is_finite x = true -> is_finite y = true -> is_nan (x * y) = false.
Proof.
  rewrite !is_finite_spec, is_nan_spec, mul_spec. unfold SF64mul, SFmul.
  destruct (Prim2SF x) as [sx|sx| |sx mx ex], (Prim2SF y) as [sy|sy| |sy my ey];
    simpl; try discriminate; auto.
  intros _ _. eapply sf_signed_not_nan. apply binary_round_aux_signed. lia.
Qed.

Lemma binary_normalize_not_nan (m e : Z) (sz : bool) :
  sf_is_nan (binary_normalize prec emax m e sz) = false.
Proof.
  destruct m; simpl; auto; eapply sf_signed_not_nan; apply binary_round_signed.
Qed.

Lemma add_finite_not_nan (x y : float) :
  is_finite x = true -> is_nan y = false -> is_nan (x + y) = false.
Proof.
  rewrite is_finite_spec, !is_nan_spec, add_spec. unfold SF64add, SFadd.
  destruct (Prim2SF x) as [sx|sx| |sx mx ex], (Prim2SF y) as [sy|sy| |sy my ey];
    simpl; try discriminate; auto.
  - destruct sx, sy; reflexivity.
  - intros _ _. apply binary_normalize_not_nan.
Qed.

(** ** Magnitudes *)

(** A zero, or a finite number whose exponent is at most [B]. *)
Definition expo_le (B : Z) (x : float) : Prop :=
  match Prim2SF x with
  | S754_zero _ => True
  | S754_finite _ _ e => (e <= B)%Z
  | _ => False
  end.

Lemma valid_digits (x : float) (s : bool) (m : positive) (e : Z) :
  Prim2SF x = S754_finite s m e -> (Zdigits2 (Z.pos m) <= 53)%Z /\ (e <= 971)%Z.
Proof.
  intros E. pose proof (Prim2SF_valid x) as V. rewrite E in V.
  unfold SpecFloat.valid_binary, bounded, canonical_mantissa in V.
  apply andb_prop in V. destruct V as [C B].
  apply Z.eqb_eq in C. apply Z.leb_le in B. rewrite fexp_eq in C.
  change (emax - prec)%Z with 971%Z in B. simpl Zdigits2. split; lia.
Qed.

Lemma finite_expo (x : float) : is_finite x = true -> expo_le 971 x.
Proof.
  rewrite is_finite_spec. unfold expo_le.
  destruct (Prim2SF x) as [s|s| |s m e] eqn:E; simpl; try discriminate; auto.
  intros _. now destruct (valid_digits _ E).
Qed.

Lemma unit_range_expo (x : float) : unit_range x = true -> expo_le (-52) x.
Proof.
  unfold unit_range, expo_le. rewrite leb_spec, abs_spec.
  change (Prim2SF 1) with (S754_finite false 4503599627370496 (-52)).
  destruct (Prim2SF x) as [s|s| |s m e]; try exact (fun _ => I);
    try (unfold SFleb, SFabs, SFcompare; discriminate).
  unfold SFleb, SFabs, SFcompare.
  destruct (Z.compare_spec e (-52)); intros; try lia; discriminate.
Qed.

Lemma abs_le_two_expo (x : float) : (abs x <=? 2) = true -> expo_le (-51) x.
Proof.
  unfold expo_le. rewrite leb_spec, abs_spec.
  change (Prim2SF 2) with (S754_finite false 4503599627370496 (-51)).
  destruct (Prim2SF x) as [s|s| |s m e]; try exact (fun _ => I);
    try (unfold SFleb, SFabs, SFcompare; discriminate).
  unfold SFleb, SFabs, SFcompare.
  destruct (Z.compare_spec e (-51)); intros; try lia; discriminate.
Qed.

Lemma unit_range_finite (x : float) : unit_range x = true -> is_finite x = true.
Proof.
  intros H. apply unit_range_expo in H. rewrite is_finite_spec.
  unfold expo_le in H. destruct (Prim2SF x); simpl; auto; contradiction.
Qed.

Lemma Zdigits2_mul (a b : positive) :
  (Zdigits2 (Z.pos (a * b)) <= Zdigits2 (Z.pos a) + Zdigits2 (Z.pos b))%Z.
Proof.
  pose proof (@Zdigits2_gt (Z.pos a)) as Ha. pose proof (@Zdigits2_gt (Z.pos b)) as Hb.
  pose proof (@Zdigits2_nonneg (Z.pos a)) as Na.
  pose proof (@Zdigits2_nonneg (Z.pos b)) as Nb.
  apply Zdigits2_bound; try lia.
  rewrite Z.pow_add_r by lia. rewrite Pos2Z.inj_mul.
  apply Z.mul_lt_mono_nonneg; lia.
Qed.

(** A product whose exponents leave room does not overflow. *)
Lemma mul_expo_finite (x y : float) (a b : Z) :
  expo_le a x -> expo_le b y -> (a + b <= 917)%Z -> is_finite (x * y) = true.
Proof.
  unfold expo_le. rewrite is_finite_spec, mul_spec. unfold SF64mul, SFmul.
  destruct (Prim2SF x) as [sx|sx| |sx mx ex] eqn:Ex,
           (Prim2SF y) as [sy|sy| |sy my ey] eqn:Ey;
    simpl; try contradiction; auto.
  intros Ha Hb Hab.
  destruct (valid_digits _ Ex) as [Dx _]. destruct (valid_digits _ Ey) as [Dy _].
  pose proof (Zdigits2_mul mx my) as Dm.
  assert (N : sf_is_nan (binary_round_aux prec emax (xorb sx sy)
                           (Z.pos (mx * my)) (ex + ey) loc_Exact) = false).
  { eapply sf_signed_not_nan. apply binary_round_aux_signed. lia. }
  assert (I : sf_is_inf (binary_round_aux prec emax (xorb sx sy)
                           (Z.pos (mx * my)) (ex + ey) loc_Exact) = false).
  { apply binary_round_aux_no_overflow; lia. }
  now rewrite N, I.
Qed.

(** A finite square is not negative, so its product with zero is [+0]. *)
Lemma square_mul_zero (c : float) :
  is_finite (c * c) = true -> (c * c) * 0 = 0.
Proof.
  rewrite is_finite_spec. intros F. apply Prim2SF_inj.
  rewrite mul_spec. rewrite mul_spec in *. change (Prim2SF 0) with (S754_zero false).
  assert (S : sf_signed false (SF64mul (Prim2SF c) (Prim2SF c))).
  { unfold SF64mul, SFmul. destruct (Prim2SF c) as [s|s| |s m e]; simpl in *;
      try discriminate; try (now destruct s).
    rewrite xorb_nilpotent. apply binary_round_aux_signed. lia. }
  unfold SF64mul at 1. unfold SFmul.
  destruct (SF64mul (Prim2SF c) (Prim2SF c)) as [s|s| |s m e]; simpl in *;
    try discriminate; subst; reflexivity.
Qed.

(** ** Signs *)

Lemma nonneg_cases (v : float) :
  (0 <=? v) = true ->
  match Prim2SF v with
  | S754_zero _ => True
  | S754_infinity s | S754_finite s _ _ => s = false
  | S754_nan => False
  end.
Proof.
  rewrite leb_spec. change (Prim2SF 0) with (S754_zero false). unfold SFleb.
  destruct (Prim2SF v) as [s|s| |s m e]; simpl; auto; try discriminate;
    destruct s; auto; discriminate.
Qed.

Lemma signed_false_nonneg (v : float) :
  sf_signed false (Prim2SF v) -> (0 <=? v) = true.
Proof.
  rewrite leb_spec. change (Prim2SF 0) with (S754_zero false). unfold SFleb.
  destruct (Prim2SF v) as [s|s| |s m e]; simpl; intros H; subst; auto; contradiction.
Qed.

Lemma zero_nonneg (v : float) :
  (exists s, Prim2SF v = S754_zero s) -> (0 <=? v) = true.
Proof.
  intros [s E]. rewrite leb_spec, E. reflexivity.
Qed.

(** A positive finite factor keeps a number that is not negative so. *)
Lemma mul_pos_nonneg (k v : float) :
  (0 <? k) = true -> is_finite k = true -> (0 <=? v) = true -> (0 <=? k * v) = true.
Proof.
  rewrite ltb_spec, is_finite_spec. change (Prim2SF 0) with (S754_zero false).
  intros Hk Fk Hv. apply nonneg_cases in Hv.
  destruct (Prim2SF k) as [sk|sk| |sk mk ek] eqn:Ek; simpl in *; try discriminate.
  destruct sk; [discriminate|].
  destruct (Prim2SF v) as [sv|sv| |sv mv ev] eqn:Ev; try contradiction.
  - apply zero_nonneg. exists (xorb false sv). rewrite mul_spec, Ek, Ev. reflexivity.
  - subst. apply signed_false_nonneg. rewrite mul_spec, Ek, Ev. reflexivity.
  - subst. apply signed_false_nonneg. rewrite mul_spec, Ek, Ev.
    unfold SF64mul, SFmul. apply binary_round_aux_signed. lia.
Qed.

(** A square root that is a number is not negative. *)
Lemma sqrt_nonneg (a : float) : is_nan (sqrt a) = false -> (0 <=? sqrt a) = true.
Proof.
  rewrite is_nan_spec. intros H.
  pose proof (sqrt_spec a) as S. unfold SF64sqrt, SFsqrt in S.
  destruct (Prim2SF a) as [s|s| |s m e].
  - apply zero_nonneg. eauto.
  - destruct s; [rewrite S in H; discriminate|].
    apply signed_false_nonneg. rewrite S. reflexivity.
  - rewrite S in H; discriminate.
  - destruct s; [rewrite S in H; discriminate|].
    destruct (SFsqrt_core_binary prec emax (Z.pos m) e) as [[mz ez] lz].
    apply signed_false_nonneg. rewrite S. apply binary_round_aux_signed_or_nan.
    now rewrite <- S.
Qed.

(** ** Operations that keep numbers numbers *)

Lemma sub_finite_not_nan (x y : float) :
  is_finite x = true -> is_finite y = true -> is_nan (x - y) = false.
Proof.
  rewrite !is_finite_spec, is_nan_spec, sub_spec. unfold SF64sub, SFsub.
  destruct (Prim2SF x) as [sx|sx| |sx mx ex], (Prim2SF y) as [sy|sy| |sy my ey];
    simpl; try discriminate; auto.
  - destruct sx, sy; reflexivity.
  - intros _ _. apply binary_normalize_not_nan.
Qed.

Lemma sub_nan_r (x : float) : x - nan = nan.
Proof.
  apply Prim2SF_inj. rewrite sub_spec. change (Prim2SF nan) with S754_nan.
  unfold SF64sub, SFsub. now destruct (Prim2SF x).
Qed.

Lemma add_nan_l (y : float) : nan + y = nan.
Proof.
  apply Prim2SF_inj. rewrite add_spec. reflexivity.
Qed.

Lemma mul_nonzero_not_nan (x y : float) :
  is_nan x = false -> is_finite y = true -> (y =? 0) = false ->
  is_nan (x * y) = false.
Proof.
  rewrite is_finite_spec, !is_nan_spec, eqb_spec, mul_spec.
  change (Prim2SF 0) with (S754_zero false). unfold SF64mul, SFmul.
  destruct (Prim2SF x) as [sx|sx| |sx mx ex], (Prim2SF y) as [sy|sy| |sy my ey];
    simpl; try discriminate; auto.
  intros _ _ _. eapply sf_signed_not_nan. apply binary_round_aux_signed. lia.
Qed.

Lemma SFdiv_core_binary_nonneg (m1 m2 : positive) (e1 e2 : Z) :
  (0 <= fst (fst (SFdiv_core_binary prec emax (Z.pos m1) e1 (Z.pos m2) e2)))%Z.
Proof.
  unfold SFdiv_core_binary.
  set (e' := IntDef.Z.min _ _). set (s := (e1 - e2 - e')%Z).
  set (m' := match s with
             | Z.pos _ => IntDef.Z.shiftl (Z.pos m1) s
             | 0%Z => Z.pos m1
             | Z.neg _ => 0%Z
             end).
  assert (Hm : (0 <= m')%Z).
  { unfold m'. destruct s; try lia. apply Z.shiftl_nonneg. lia. }
  pose proof (Z.div_eucl_eq m' (Z.pos m2) ltac:(lia)) as E.
  pose proof (Z.mod_pos_bound m' (Z.pos m2) ltac:(lia)) as B.
  unfold Z.modulo in B.
  change IntDef.Z.div_eucl with Z.div_eucl.
  destruct (Z.div_eucl m' (Z.pos m2)) as [q r]. simpl. nia.
Qed.

Lemma div_nonzero_not_nan (x y : float) :
  is_nan x = false -> is_finite y = true -> (y =? 0) = false ->
  is_nan (x / y) = false.
Proof.
  rewrite is_finite_spec, !is_nan_spec, eqb_spec, div_spec.
  change (Prim2SF 0) with (S754_zero false). unfold SF64div, SFdiv.
  destruct (Prim2SF x) as [sx|sx| |sx mx ex], (Prim2SF y) as [sy|sy| |sy my ey];
    simpl; try discriminate; auto.
  intros _ _ _. pose proof (SFdiv_core_binary_nonneg mx my ex ey) as H.
  destruct (SFdiv_core_binary prec emax (Z.pos mx) ex (Z.pos my) ey) as [[mz ez] lz].
  simpl in H. eapply sf_signed_not_nan. now apply binary_round_aux_signed.
Qed.

Lemma not_nan_not_inf_finite (x : float) :
  is_nan x = false -> is_infinity x = false -> is_finite x = true.
Proof. unfold is_finite. now intros -> ->. Qed.

End FloatArith.

(* ================================================================== *)
(** * A runtime that satisfies the laws *)
(* ================================================================== *)

(** The laws of [Runtime] are consistent: they hold of the degenerate
    functions below, for which every sine and arc sine is a zero and every
    cosine of a finite angle is one; its case mapping lowers the ASCII
    letters and is used at ASCII strings only. The instances of the
    theorems further down are taken at this runtime. *)
Module FlatRuntime.

Import FloatFacts FloatArith.

Definition flat_sin (x : float) : float := x * 0.
Definition flat_cos (x : float) : float := if is_finite x then 1 else nan.
Definition flat_pow (x y : float) : float := 0.
Definition flat_round (x : float) (n : Z) : float := x.

Lemma mul_zero_cases (x : float) :
  match Prim2SF x with
  | S754_zero s | S754_finite s _ _ => Prim2SF (x * 0) = S754_zero s
  | _ => Prim2SF (x * 0) = S754_nan
  end.
Proof.
  rewrite mul_spec. change (Prim2SF 0) with (S754_zero false).
  unfold SF64mul, SFmul.
  destruct (Prim2SF x) as [s|s| |s m e]; try reflexivity; now rewrite xorb_false_r.
Qed.

Lemma flat_sin_inf (x : float) : is_infinity x = true -> is_nan (flat_sin x) = true.
Proof.
  rewrite is_infinity_spec, is_nan_spec. unfold flat_sin.
  pose proof (mul_zero_cases x) as H.
  destruct (Prim2SF x); simpl; try discriminate. now rewrite H.
Qed.

Lemma flat_sin_range (x : float) : is_finite x = true -> unit_range (flat_sin x) = true.
Proof.
  rewrite is_finite_spec. unfold flat_sin, unit_range.
  rewrite leb_spec, abs_spec. pose proof (mul_zero_cases x) as H.
  destruct (Prim2SF x); simpl; try discriminate; now rewrite H.
Qed.

Lemma flat_cos_range (x : float) : is_finite x = true -> unit_range (flat_cos x) = true.
Proof. unfold flat_cos. intros ->. reflexivity. Qed.

Lemma flat_asin_nonneg (x : float) :
  (0 <=? x) = true -> is_nan (flat_sin x) = false -> (0 <=? flat_sin x) = true.
Proof.
  intros H N. apply nonneg_cases in H. rewrite is_nan_spec in N. unfold flat_sin in *.
  pose proof (mul_zero_cases x) as Z.
  destruct (Prim2SF x) as [s|s| |s m e]; try contradiction.
  - apply zero_nonneg. eauto.
  - rewrite Z in N. discriminate.
  - apply zero_nonneg. eauto.
Qed.

Lemma flat_asin_bound (x : float) :
  is_nan (flat_sin x) = false -> (abs (flat_sin x) <=? 2) = true.
Proof.
  rewrite is_nan_spec, leb_spec, abs_spec. unfold flat_sin.
  pose proof (mul_zero_cases x) as Z.
  destruct (Prim2SF x) as [s|s| |s m e]; rewrite Z; try discriminate; reflexivity.
Qed.

Definition flat_runtime : Runtime :=
  {| c_sin := flat_sin;
     c_cos := flat_cos;
     c_asin := flat_sin;
     c_pow := flat_pow;
     round_digits := flat_round;
     case_lower := PyStr.ascii_lower;
     sin_nan := eq_refl;
     cos_nan := eq_refl;
     asin_nan := eq_refl;
     sin_inf := flat_sin_inf;
     sin_zero := eq_refl;
     asin_zero := eq_refl;
     sin_odd := fun x => mul_opp_l x 0;
     sin_range := flat_sin_range;
     cos_range := flat_cos_range;
     pow2_range := fun _ _ _ => eq_refl;
     asin_nonneg := flat_asin_nonneg;
     asin_bound := flat_asin_bound;
     round_finite := fun x _ H => H |}.

End FlatRuntime.

(* ================================================================== *)
(** * Facts about the [math] wrappers and the haversine distance *)
(* ================================================================== *)

Section HaversineFacts.

Import FloatFacts FloatArith.

Variable RT : Runtime.

(** ** [math_1] *)

Lemma math_1_raise (f : float -> float) (x : float) (e : exn) :
  math_1 f x = Raise e -> e = ValueError "math domain error".
Proof.
  unfold math_1. destruct (is_nan (f x) && negb (is_nan x)); [congruence|].
  destruct (is_infinity (f x) && is_finite x); congruence.
Qed.

Lemma math_1_ok (f : float -> float) (x r : float) :
  math_1 f x = Ok r ->
  r = f x /\ (is_nan x = false -> is_nan r = false) /\
  (is_finite x = true -> is_finite r = true).
Proof.
  unfold math_1.
  destruct (is_nan (f x)) eqn:N, (is_nan x) eqn:Nx; simpl; try discriminate;
    destruct (is_infinity (f x)) eqn:I, (is_finite x) eqn:Fx; simpl;
    try discriminate; intros [= <-]; repeat split; auto; try discriminate;
    unfold is_finite in *; rewrite ?N, ?I, ?Nx in *; simpl in *; auto.
Qed.

Lemma math_1_nan (f : float -> float) : f nan = nan -> math_1 f nan = Ok nan.
Proof. intros H. unfold math_1. rewrite H. reflexivity. Qed.

(** A finite argument of a function that stays finite there gives a result. *)
Lemma math_1_finite (f : float -> float) (x : float) :
  is_finite (f x) = true -> math_1 f x = Ok (f x).
Proof.
  intros H. unfold math_1.
  rewrite (@is_finite_not_nan _ H), (@is_finite_not_inf _ H). reflexivity.
Qed.

Lemma math_1_opp (f : float -> float) (x : float) :
  f (- x) = - f x ->
  math_1 f (- x) = match math_1 f x with Ok r => Ok (- r) | Raise e => Raise e end.
Proof.
  intros H. unfold math_1.
  rewrite H, !is_nan_opp, is_infinity_opp, is_finite_opp.
  destruct (is_nan (f x) && negb (is_nan x)); auto.
  destruct (is_infinity (f x) && is_finite x); auto.
Qed.

Lemma math_sin_finite (x : float) :
  is_finite x = true ->
  math_sin RT x = Ok (c_sin RT x) /\ unit_range (c_sin RT x) = true.
Proof.
  intros H. pose proof (@sin_range RT x H) as U. split; auto.
  apply math_1_finite. now apply unit_range_finite.
Qed.

Lemma math_cos_finite (x : float) :
  is_finite x = true ->
  math_cos RT x = Ok (c_cos RT x) /\ unit_range (c_cos RT x) = true.
Proof.
  intros H. pose proof (@cos_range RT x H) as U. split; auto.
  apply math_1_finite. now apply unit_range_finite.
Qed.

(** The sine of an infinity is a domain error. *)
Lemma math_sin_inf (x : float) :
  is_infinity x = true -> math_sin RT x = Raise (ValueError "math domain error").
Proof.
  intros H. unfold math_sin, math_1. rewrite (@sin_inf RT x H).
  assert (N : is_nan x = false).
  { rewrite is_nan_spec. rewrite is_infinity_spec in H.
    now destruct (Prim2SF x). }
  now rewrite N.
Qed.

(** ** [radians] and halving *)

Lemma radians_opp (x : float) : radians (- x) = - radians x.
Proof. apply mul_opp_l. Qed.

Lemma radians_finite (x : float) : is_finite x = true -> is_finite (radians x) = true.
Proof.
  intros H. unfold radians.
  apply mul_expo_finite with (a := 971%Z) (b := (-58)%Z).
  - now apply finite_expo.
  - unfold expo_le.
    replace (Prim2SF degToRad) with (S754_finite false 5030569068109113 (-58))
      by (vm_compute; reflexivity).
    lia.
  - lia.
Qed.

(** ** Squares *)

Lemma leb_neq_ltb (x y : float) :
  (x <=? y) = true -> (x =? y) = false -> (x <? y) = true.
Proof.
  rewrite leb_spec, eqb_spec, ltb_spec. unfold SFleb, SFeqb, SFltb.
  destruct (SFcompare (Prim2SF x) (Prim2SF y)) as [[]|]; congruence.
Qed.

Lemma abs_pos (x : float) :
  is_nan x = false -> (x =? 0) = false -> (0 <? abs x) = true.
Proof.
  rewrite is_nan_spec, eqb_spec, ltb_spec, abs_spec.
  change (Prim2SF 0) with (S754_zero false).
  destruct (Prim2SF x) as [s|s| |s m e]; simpl; try discriminate; auto.
Qed.

Lemma range01_unit (p : float) :
  (0 <=? p) = true -> (p <=? 1) = true -> unit_range p = true.
Proof.
  intros H0 H1. unfold unit_range. apply nonneg_cases in H0.
  rewrite leb_spec in *. rewrite abs_spec.
  destruct (Prim2SF p) as [s|s| |s m e]; try contradiction; subst; auto.
Qed.

(** The square of a number of absolute value at most one is computed
    without error and lies between zero and one. *)
Lemma float_pow2_unit (s : float) :
  unit_range s = true ->
  exists p, float_pow2 RT s = Ok p /\ (0 <=? p) = true /\ (p <=? 1) = true.
Proof.
  intros U. pose proof (@unit_range_finite _ U) as F.
  pose proof (@is_finite_not_nan _ F) as N. pose proof (@is_finite_not_inf _ F) as I.
  unfold float_pow2. rewrite N, I.
  destruct (s =? 0) eqn:Z.
  - exists 0. repeat split; reflexivity.
  - rewrite (@pow_base_abs _ N Z).
    destruct (abs s =? 1) eqn:O.
    + exists 1. repeat split; reflexivity.
    + pose proof (@abs_pos _ N Z) as P.
      pose proof (@leb_neq_ltb _ _ U O) as L.
      pose proof (@pow2_range RT _ P L) as R.
      apply andb_prop in R. destruct R as [R0 R1].
      pose proof (@unit_range_finite _ (@range01_unit _ R0 R1)) as Fp.
      rewrite (@is_finite_not_inf _ Fp). eauto.
Qed.

(** Squaring forgets the sign. *)
Lemma float_pow2_opp (s : float) : float_pow2 RT (- s) = float_pow2 RT s.
Proof.
  unfold float_pow2. rewrite is_nan_opp, is_infinity_opp, abs_opp, eqb_zero_opp.
  destruct (is_nan s) eqn:N.
  - rewrite (@nan_unique _ N). reflexivity.
  - destruct (is_infinity s); auto.
    destruct (s =? 0) eqn:Z; auto.
    rewrite (@pow_base_abs s N Z).
    assert (N' : is_nan (- s) = false) by now rewrite is_nan_opp.
    assert (Z' : (- s =? 0) = false) by now rewrite eqb_zero_opp.
    rewrite (@pow_base_abs (- s) N' Z'), abs_opp. reflexivity.
Qed.

(** ** The haversine of an angle given in degrees *)

(** [math.sin(radians(z) / 2) ** 2]. *)
Definition half_sin_sq (z : float) : res float :=
  s <- math_sin RT (radians z / 2.0) ;; float_pow2 RT s.

Lemma half_sin_sq_opp (z : float) : half_sin_sq (- z) = half_sin_sq z.
Proof.
  unfold half_sin_sq. rewrite radians_opp, div_opp_l.
  unfold math_sin. rewrite math_1_opp by apply sin_odd.
  destruct (math_1 (c_sin RT) (radians z / 2)); simpl; auto.
  apply float_pow2_opp.
Qed.

Lemma half_sin_sq_sub (x y : float) : half_sin_sq (x - y) = half_sin_sq (y - x).
Proof.
  destruct (sub_antisym x y) as [E|[E1 E2]].
  - rewrite E. apply half_sin_sq_opp.
  - now rewrite E1, E2.
Qed.

Lemma half_sin_sq_zero : half_sin_sq 0 = Ok 0.
Proof.
  unfold half_sin_sq, math_sin, math_1.
  change (radians 0 / 2) with 0. rewrite sin_zero. reflexivity.
Qed.

Lemma half_sin_sq_nan : half_sin_sq nan = Ok nan.
Proof.
  unfold half_sin_sq, math_sin. change (radians nan / 2) with nan.
  rewrite math_1_nan by apply sin_nan. reflexivity.
Qed.

(** [_haversine_km] with the two half-angle terms named. *)
Lemma _haversine_km_eq (lat1 lon1 lat2 lon2 : float) :
  _haversine_km RT lat1 lon1 lat2 lon2 =
  (p1 <- half_sin_sq (lat2 - lat1) ;;
   c1 <- math_cos RT (radians lat1) ;;
   c2 <- math_cos RT (radians lat2) ;;
   p2 <- half_sin_sq (lon2 - lon1) ;;
   q <- math_sqrt (p1 + c1 * c2 * p2) ;;
   v <- math_asin RT q ;;
   Ok (12742 * v)).
Proof.
  unfold _haversine_km, half_sin_sq.
  change (2.0 * 6371.0) with 12742.
  destruct (math_sin RT (radians (lat2 - lat1) / 2)); simpl; auto.
  destruct (float_pow2 RT a); simpl; auto.
  destruct (math_cos RT (radians lat1)); simpl; auto.
  destruct (math_cos RT (radians lat2)); simpl; auto.
  destruct (math_sin RT (radians (lon2 - lon1) / 2)); simpl; auto.
Qed.

(** The two servers compute the same distance. *)
Lemma _distance_km_eq (lat1 lon1 lat2 lon2 : float) :
  _distance_km RT lat1 lon1 lat2 lon2 = _haversine_km RT lat1 lon1 lat2 lon2.
Proof. reflexivity. Qed.

(** ** The distance *)

Lemma half_sin_sq_range (z p : float) :
  is_nan z = false -> half_sin_sq z = Ok p ->
  (0 <=? p) = true /\ (p <=? 1) = true.
Proof.
  intros N H. unfold half_sin_sq in H.
  set (u := radians z / 2) in *.
  assert (Nu : is_nan u = false).
  { unfold u, radians. apply div_nonzero_not_nan; try reflexivity.
    apply mul_nonzero_not_nan; auto. }
  destruct (is_infinity u) eqn:I.
  - rewrite (@math_sin_inf u I) in H. discriminate.
  - destruct (@math_sin_finite u (@not_nan_not_inf_finite _ Nu I)) as [E U].
    rewrite E in H. simpl in H.
    destruct (@float_pow2_unit _ U) as (p' & E' & R). congruence.
Qed.

(** The distance from a point to itself is [0.0]. *)
Lemma _haversine_km_self (lat lon : float) :
  is_finite lat = true -> is_finite lon = true ->
  _haversine_km RT lat lon lat lon = Ok 0.
Proof.
  intros Flat Flon. rewrite _haversine_km_eq.
  rewrite !sub_diag by assumption. rewrite half_sin_sq_zero. simpl.
  destruct (@math_cos_finite _ (@radians_finite _ Flat)) as [E U].
  rewrite E. simpl.
  assert (F : is_finite (c_cos RT (radians lat) * c_cos RT (radians lat)) = true).
  { apply mul_expo_finite with (a := (-52)%Z) (b := (-52)%Z);
      try (now apply unit_range_expo); lia. }
  rewrite (@square_mul_zero _ F).
  change (0 + 0) with 0. change (math_sqrt 0) with (Ok 0). simpl.
  unfold math_asin, math_1. rewrite asin_zero. reflexivity.
Qed.

(** The distance is symmetric, errors included. *)
Lemma _haversine_km_sym (lat1 lon1 lat2 lon2 : float) :
  _haversine_km RT lat1 lon1 lat2 lon2 = _haversine_km RT lat2 lon2 lat1 lon1.
Proof.
  rewrite !_haversine_km_eq.
  rewrite (half_sin_sq_sub lat2 lat1), (half_sin_sq_sub lon2 lon1).
  destruct (half_sin_sq (lat1 - lat2)) as [p1|e]; simpl; auto.
  destruct (math_cos RT (radians lat1)) as [c1|e1] eqn:E1,
           (math_cos RT (radians lat2)) as [c2|e2] eqn:E2; simpl; auto.
  - now rewrite (mul_comm c1 c2).
  - apply math_1_raise in E1, E2. congruence.
Qed.

(** A distance between finite coordinates is a finite number and is not
    negative. *)
Lemma _haversine_km_nonneg (lat1 lon1 lat2 lon2 d : float) :
  is_finite lat1 = true -> is_finite lon1 = true ->
  is_finite lat2 = true -> is_finite lon2 = true ->
  _haversine_km RT lat1 lon1 lat2 lon2 = Ok d ->
  is_finite d = true /\ (0 <=? d) = true.
Proof.
  intros F1 G1 F2 G2. rewrite _haversine_km_eq.
  destruct (half_sin_sq (lat2 - lat1)) as [p1|] eqn:P1; simpl; [|discriminate].
  destruct (@math_cos_finite _ (@radians_finite _ F1)) as [E1 U1].
  destruct (@math_cos_finite _ (@radians_finite _ F2)) as [E2 U2].
  rewrite E1, E2. simpl.
  destruct (half_sin_sq (lon2 - lon1)) as [p2|] eqn:P2; simpl; [|discriminate].
  apply half_sin_sq_range in P1; [|now apply sub_finite_not_nan].
  apply half_sin_sq_range in P2; [|now apply sub_finite_not_nan].
  destruct P1 as [P1a P1b]. destruct P2 as [P2a P2b].
  pose proof (@unit_range_finite _ (@range01_unit _ P1a P1b)) as Fp1.
  pose proof (@unit_range_finite _ (@range01_unit _ P2a P2b)) as Fp2.
  set (c1 := c_cos RT (radians lat1)) in *. set (c2 := c_cos RT (radians lat2)) in *.
  assert (Fc : is_finite (c1 * c2) = true).
  { apply mul_expo_finite with (a := (-52)%Z) (b := (-52)%Z);
      try (now apply unit_range_expo); lia. }
  assert (Na : is_nan (p1 + c1 * c2 * p2) = false).
  { apply add_finite_not_nan; auto. now apply mul_finite_not_nan. }
  destruct (math_sqrt (p1 + c1 * c2 * p2)) as [q|] eqn:Q; simpl; [|discriminate].
  apply math_1_ok in Q. destruct Q as (Eq & Nq & _). specialize (Nq Na).
  assert (Pq : (0 <=? q) = true).
  { rewrite Eq in *. now apply sqrt_nonneg. }
  destruct (math_asin RT q) as [v|] eqn:V; simpl; [|discriminate].
  apply math_1_ok in V. destruct V as (Ev & Nv & _). specialize (Nv Nq).
  assert (Pv : (0 <=? v) = true).
  { rewrite Ev in *. now apply asin_nonneg. }
  intros [= <-].
  assert (Pd : (0 <=? 12742 * v) = true).
  { apply mul_pos_nonneg; auto. }
  split; auto.
  apply mul_expo_finite with (a := (-39)%Z) (b := (-51)%Z); try lia.
  - unfold expo_le.
    replace (Prim2SF 12742) with (S754_finite false 7004988580560896 (-39))
      by (vm_compute; reflexivity).
    lia.
  - apply abs_le_two_expo. rewrite Ev in *. now apply asin_bound.
Qed.

(** A NaN query point is at distance NaN from a finite latitude. *)
Lemma _haversine_km_nan (lat2 lon2 : float) :
  is_finite lat2 = true -> _haversine_km RT nan nan lat2 lon2 = Ok nan.
Proof.
  intros F. rewrite _haversine_km_eq. rewrite !sub_nan_r, half_sin_sq_nan. simpl.
  change (radians nan) with nan. unfold math_cos at 1.
  rewrite math_1_nan by apply cos_nan. simpl.
  destruct (@math_cos_finite _ (@radians_finite _ F)) as [E _]. rewrite E. simpl.
  rewrite add_nan_l. change (math_sqrt nan) with (Ok nan (A:=float)). simpl.
  unfold math_asin. rewrite math_1_nan by apply asin_nan. reflexivity.
Qed.

(** Two finite latitudes whose difference overflows: the sine of an
    infinity is asked for, which is an error. *)
Lemma _haversine_km_overflow :
  _haversine_km RT 1e308 0 (-1e308) 0 = Raise (ValueError "math domain error").
Proof.
  rewrite _haversine_km_eq. unfold half_sin_sq at 1.
  change (radians (-1e308 - 1e308) / 2) with neg_infinity.
  rewrite math_sin_inf by reflexivity. reflexivity.
Qed.

End HaversineFacts.
(* ================================================================== *)
(** * Name resolution and the regional timeline *)
(* ================================================================== *)

(** U+00A0 NO-BREAK SPACE and U+3000 IDEOGRAPHIC SPACE, in UTF-8. *)
Definition nbsp : string :=
  String (ascii_of_nat 194) (String (ascii_of_nat 160) EmptyString).

Definition ideographic_space : string :=
  String (ascii_of_nat 227)
    (String (ascii_of_nat 128) (String (ascii_of_nat 128) EmptyString)).

Lemma exact_match_iff (RT : Runtime) (q : string) (item : string * Place) :
  exact_match RT q item = true <-> str_lower RT (fst item) = q.
Proof. unfold exact_match. apply String.eqb_eq. Qed.

Lemma partial_match_iff (RT : Runtime) (q : string) (item : string * Place) :
  partial_match RT q item = true <->
  is_substring q (str_lower RT (fst item)) \/
  is_substring q (str_lower RT (place_city (snd item))).
Proof. unfold partial_match. now rewrite orb_true_iff, !contains_iff. Qed.

(** The three outcomes of [geocode] over any table. *)
Lemma geocode_in_cases (RT : Runtime) (places : list (string * Place))
  (query : string) :
  let q := str_lower RT (PyStr.strip query) in
  let exact item := str_lower RT (fst item) = q in
  let partial item :=
    is_substring q (str_lower RT (fst item)) \/
    is_substring q (str_lower RT (place_city (snd item))) in
  (exists item, first_where exact places item /\
                geocode_in RT places query = geo_found item)
  \/ ((forall item, In item places -> ~ exact item) /\
      exists item, first_where partial places item /\
                   geocode_in RT places query = geo_found item)
  \/ ((forall item, In item places -> ~ exact item /\ ~ partial item) /\
      geocode_in RT places query = GeoError ("No match found for '" ++ query ++ "'")).
Proof.
  intros q exact partial. unfold geocode_in. fold q.
  destruct (find (exact_match RT q) places) as [item|] eqn:E1.
  - left. exists item. split; auto.
    apply find_first_such in E1.
    eapply first_such_where; eauto. intros y. apply exact_match_iff.
  - assert (N1 : forall item, In item places -> ~ exact item).
    { intros item Hi He. apply exact_match_iff in He.
      rewrite (proj1 (find_none_iff _ _) E1 item Hi) in He. discriminate. }
    destruct (find (partial_match RT q) places) as [item|] eqn:E2.
    + right. left. split; auto. exists item. split; auto.
      apply find_first_such in E2.
      eapply first_such_where; eauto. intros y. apply partial_match_iff.
    + right. right. split; auto. intros item Hi. split; auto.
      intros Hp. apply partial_match_iff in Hp.
      rewrite (proj1 (find_none_iff _ _) E2 item Hi) in Hp. discriminate.
Qed.

(** The names and cities of the table are ASCII: they are lowered byte
    by byte. *)
Lemma PLACES_ascii (RT : Runtime) (item : string * Place) :
  In item PLACES ->
  str_lower RT (fst item) = PyStr.ascii_lower (fst item)
  /\ str_lower RT (place_city (snd item)) = PyStr.ascii_lower (place_city (snd item)).
Proof.
  intros H.
  assert (A : forallb (fun it => PyStr.is_ascii (fst it)
                                 && PyStr.is_ascii (place_city (snd it)))
                PLACES = true) by (vm_compute; reflexivity).
  rewrite forallb_forall in A. specialize (A item H).
  apply andb_prop in A. destruct A as [A1 A2].
  split; now apply str_lower_ascii.
Qed.

(** C4. [geocode] trims the query (the white space of Unicode at both
    ends, nothing else) and lower-cases it (byte by byte when it is
    ASCII, as the names and cities of the table are), then returns the
    first place of the table whose lower-cased name is the normalized
    query; failing that the first place whose lower-cased name or city
    contains it; failing that the error value that quotes the query as it
    was given. It is a total function (nothing is raised). ["aub"],
    ["AUB"], ["  aUb"] followed by a tab and a newline, and ["AUB"]
    between a no-break space and an ideographic space resolve to the
    same place; ["BAAL"] resolves to Baalbek. *)
Theorem geocode_two_phase (RT : Runtime) (query : string) :
  let trimmed := PyStr.strip query in
  let q := str_lower RT trimmed in
  let exact (item : string * Place) := str_lower RT (fst item) = q in
  let partial (item : string * Place) :=
    is_substring q (str_lower RT (fst item)) \/
    is_substring q (str_lower RT (place_city (snd item))) in
  trimmed_of query trimmed
  /\ q = (if PyStr.is_ascii trimmed then PyStr.ascii_lower trimmed
          else case_lower RT trimmed)
  /\ (forall item, In item PLACES ->
        str_lower RT (fst item) = PyStr.ascii_lower (fst item)
        /\ str_lower RT (place_city (snd item))
           = PyStr.ascii_lower (place_city (snd item)))
  /\ ((exists item, first_where exact PLACES item /\
                    geocode RT query = geo_found item)
      \/ ((forall item, In item PLACES -> ~ exact item) /\
          exists item, first_where partial PLACES item /\
                       geocode RT query = geo_found item)
      \/ ((forall item, In item PLACES -> ~ exact item /\ ~ partial item) /\
          geocode RT query = GeoError ("No match found for '" ++ query ++ "'")))
  /\ geocode RT "aub" = geocode RT "AUB"
  /\ geocode RT "AUB"
     = GeoMatch "AUB" 33.901 35.480 (mkPlace 33.901 35.480 "Beirut" "university")
  /\ geocode RT ("  aUb" ++ String (ascii_of_nat 9) (String (ascii_of_nat 10) ""))
     = geocode RT "AUB"
  /\ geocode RT (nbsp ++ "AUB" ++ ideographic_space) = geocode RT "AUB"
  /\ geocode RT "BAAL"
     = GeoMatch "Baalbek" 34.006 36.203 (mkPlace 34.006 36.203 "Baalbek" "city")
  /\ geocode RT "nonexistent-place-xyz"
     = GeoError "No match found for 'nonexistent-place-xyz'".
Proof.
  split; [apply strip_spec|].
  split; [reflexivity|].
  split; [apply PLACES_ascii|].
  split; [apply geocode_in_cases|].
  repeat split; vm_compute; reflexivity.
Qed.

(** The events [region_timeline] keeps, in table order. *)
Definition timeline_kept (RT : Runtime) (table : list Event)
  (region_name : string) (start_year end_year : option Z) : list Event :=
  filter (fun ev =>
            PyStr.contains (str_lower RT region_name) (str_lower RT (ev_region ev))
            && year_in_range start_year end_year (ev_year ev)) table.

Lemma timeline_kept_iff (RT : Runtime) (table : list Event) (region_name : string)
  (start_year end_year : option Z) (ev : Event) :
  In ev (timeline_kept RT table region_name start_year end_year) <->
  In ev table /\
  is_substring (str_lower RT region_name) (str_lower RT (ev_region ev)) /\
  (forall s, start_year = Some s -> (s <= ev_year ev)%Z) /\
  (forall e, end_year = Some e -> (ev_year ev <= e)%Z).
Proof.
  unfold timeline_kept.
  rewrite filter_In, andb_true_iff, contains_iff, year_in_range_iff. tauto.
Qed.

Lemma region_timeline_in_eq (RT : Runtime) (table : list Event)
  (region_name : string) (start_year end_year limit : option Z) :
  region_timeline_in RT table region_name start_year end_year limit =
  let sorted := sort_by Z.ltb ev_year
                  (timeline_kept RT table region_name start_year end_year) in
  mkTimelineResult region_name
    match limit with
    | Some n => slice_to sorted n
    | None => sorted
    end.
Proof.
  unfold region_timeline_in, timeline_kept.
  now rewrite _filter_years_filter, filter_filter.
Qed.

Lemma In_firstn {A : Type} (n : nat) (l : list A) (x : A) :
  In x (firstn n l) -> In x l.
Proof.
  revert n. induction l as [|y l IH]; intros [|n]; simpl; try tauto.
  intros [H|H]; eauto.
Qed.

Lemma StronglySorted_weaken {A : Type} (R S : A -> A -> Prop) (l : list A) :
  (forall a b, R a b -> S a b) -> StronglySorted R l -> StronglySorted S l.
Proof.
  intros I H. induction H as [|x l Hs IH F]; constructor; auto.
  rewrite Forall_forall in *. auto.
Qed.

Lemma StronglySorted_firstn {A : Type} (R : A -> A -> Prop) (n : nat) (l : list A) :
  StronglySorted R l -> StronglySorted R (firstn n l).
Proof.
  intros H. revert n. induction H as [|x l Hs IH F]; intros [|n]; simpl;
    try constructor; auto.
  rewrite Forall_forall in *. intros y Hy. apply F.
  now apply (In_firstn n l).
Qed.

Lemma StronglySorted_slice_to {A : Type} (R : A -> A -> Prop) (n : Z) (l : list A) :
  StronglySorted R l -> StronglySorted R (slice_to l n).
Proof.
  intros H. unfold slice_to. destruct (n <? 0)%Z; now apply StronglySorted_firstn.
Qed.

(** A limit that is null or not negative. *)
Definition limit_given (limit : option Z) : Prop :=
  match limit with
  | Some n => (0 <= n)%Z
  | None => True
  end.

(** The first [limit] entries of a list, the whole list for a null
    limit. *)
Definition first_entries {A : Type} (limit : option Z) (l : list A) : list A :=
  match limit with
  | Some n => firstn (Z.to_nat n) l
  | None => l
  end.

(** C6. The limit [-1] on the three events of Baalbek: the slice
    [matches[:-1]] returns the two earliest of them, where at most
    [limit] events, none here, were to be returned; the region written
    ["bAALBEK"] gives the same two; with the limit 25 the three come
    back, and with the limit 0 none. *)
Theorem region_timeline_at_negative_limit (RT : Runtime) :
  map ev_year (tr_timeline (region_timeline RT "Baalbek" None None (Some (-1)%Z)))
  = [60; 150]%Z
  /\ tr_timeline (region_timeline RT "bAALBEK" None None (Some (-1)%Z))
     = tr_timeline (region_timeline RT "Baalbek" None None (Some (-1)%Z))
  /\ map ev_year (tr_timeline (region_timeline RT "Baalbek" None None (Some 25%Z)))
     = [60; 150; 685]%Z
  /\ tr_timeline (region_timeline RT "Baalbek" None None (Some 0%Z)) = [].
Proof. repeat split; vm_compute; reflexivity. Qed.

(** [region_timeline] over any table, for a limit that is null or not
    negative. *)
Lemma region_timeline_in_spec (RT : Runtime) (table : list Event)
  (region_name : string) (start_year end_year limit : option Z) :
  limit_given limit ->
  let kept := timeline_kept RT table region_name start_year end_year in
  let out := region_timeline_in RT table region_name start_year end_year limit in
  (exists sorted,
     stable_sorted Z.ltb ev_year (fun _ => True) kept sorted /\
     tr_region out = region_name /\
     tr_timeline out = first_entries limit sorted)
  /\ StronglySorted (fun a b => (ev_year a <= ev_year b)%Z) (tr_timeline out).
Proof.
  intros L kept out. unfold out. rewrite region_timeline_in_eq. fold kept.
  cbv zeta. cbn [tr_region tr_timeline].
  destruct (sort_by_year_stable ev_year kept) as (P & S & T).
  split.
  - exists (sort_by Z.ltb ev_year kept). split; [now repeat split|].
    split; auto. destruct limit as [n|]; auto.
    cbn in L. cbn [first_entries]. now apply slice_to_nonneg.
  - assert (S' : StronglySorted (fun a b => (ev_year a <= ev_year b)%Z)
                   (sort_by Z.ltb ev_year kept)).
    { eapply StronglySorted_weaken; [|exact S].
      intros a b Hab. unfold key_le in Hab. apply Z.ltb_ge in Hab. exact Hab. }
    destruct limit as [n|]; auto. now apply StronglySorted_slice_to.
Qed.

(** The regions of the table are ASCII: they are lowered byte by byte. *)
Lemma EVENTS_ascii (RT : Runtime) (ev : Event) :
  In ev EVENTS -> str_lower RT (ev_region ev) = PyStr.ascii_lower (ev_region ev).
Proof.
  intros H.
  assert (A : forallb (fun e => PyStr.is_ascii (ev_region e)) EVENTS = true)
    by (vm_compute; reflexivity).
  rewrite forallb_forall in A. apply str_lower_ascii. exact (A ev H).
Qed.

(** For a limit that is null or not negative, [region_timeline] keeps
    exactly the events whose lower-cased region contains the lower-cased
    [region_name] (the argument is not trimmed) and whose year lies in
    the inclusive window, sorts them by year (stable, so equal years
    keep the table order), and returns the whole list when [limit] is
    null and its first [limit] entries otherwise. The result is in
    ascending year order. ["bAALBEK"] and ["Baalbek"] select the same
    events, of the years 60, 150, 685; ["baal"] selects them too. *)
Theorem region_timeline_within_limit (RT : Runtime) (region_name : string)
  (start_year end_year limit : option Z) :
  limit_given limit ->
  let kept := timeline_kept RT EVENTS region_name start_year end_year in
  let out := region_timeline RT region_name start_year end_year limit in
  (forall ev, In ev kept <->
     In ev EVENTS /\
     is_substring (str_lower RT region_name) (PyStr.ascii_lower (ev_region ev)) /\
     (forall s, start_year = Some s -> (s <= ev_year ev)%Z) /\
     (forall e, end_year = Some e -> (ev_year ev <= e)%Z))
  /\ str_lower RT region_name
     = (if PyStr.is_ascii region_name then PyStr.ascii_lower region_name
        else case_lower RT region_name)
  /\ (exists sorted,
        stable_sorted Z.ltb ev_year (fun _ => True) kept sorted /\
        tr_region out = region_name /\
        tr_timeline out = first_entries limit sorted)
  /\ StronglySorted (fun a b => (ev_year a <= ev_year b)%Z) (tr_timeline out)
  /\ tr_timeline (region_timeline RT "bAALBEK" None None (Some 25%Z))
     = tr_timeline (region_timeline RT "Baalbek" None None (Some 25%Z))
  /\ tr_timeline (region_timeline RT "baal" None None None)
     = tr_timeline (region_timeline RT "Baalbek" None None (Some 25%Z))
  /\ map ev_year (tr_timeline (region_timeline RT "Baalbek" None None (Some 25%Z)))
     = [60; 150; 685]%Z.
Proof.
  intros L kept out.
  destruct (@region_timeline_in_spec RT EVENTS region_name start_year end_year
              limit L) as [A B].
  split; [|split; [|split; [|split]]].
  - intros ev. unfold kept. rewrite timeline_kept_iff. split.
    + intros (H1 & H2 & H3). split; [exact H1|].
      rewrite <- (@EVENTS_ascii RT ev H1). auto.
    + intros (H1 & H2 & H3). split; [exact H1|].
      rewrite (@EVENTS_ascii RT ev H1). auto.
  - reflexivity.
  - exact A.
  - exact B.
  - repeat split; vm_compute; reflexivity.
Qed.

Lemma region_timeline_within_limit_witness :
  let RT := FlatRuntime.flat_runtime in
  let kept := timeline_kept RT EVENTS "Beirut" (Some 0%Z) None in
  let out := region_timeline RT "Beirut" (Some 0%Z) None (Some 3%Z) in
  (forall ev, In ev kept <->
     In ev EVENTS /\
     is_substring (str_lower RT "Beirut") (PyStr.ascii_lower (ev_region ev)) /\
     (forall s, Some 0%Z = Some s -> (s <= ev_year ev)%Z) /\
     (forall e, @None Z = Some e -> (ev_year ev <= e)%Z))
  /\ str_lower RT "Beirut"
     = (if PyStr.is_ascii "Beirut" then PyStr.ascii_lower "Beirut"
        else case_lower RT "Beirut")
  /\ (exists sorted,
        stable_sorted Z.ltb ev_year (fun _ => True) kept sorted /\
        tr_region out = "Beirut" /\
        tr_timeline out = first_entries (Some 3%Z) sorted)
  /\ StronglySorted (fun a b => (ev_year a <= ev_year b)%Z) (tr_timeline out)
  /\ tr_timeline (region_timeline RT "bAALBEK" None None (Some 25%Z))
     = tr_timeline (region_timeline RT "Baalbek" None None (Some 25%Z))
  /\ tr_timeline (region_timeline RT "baal" None None None)
     = tr_timeline (region_timeline RT "Baalbek" None None (Some 25%Z))
  /\ map ev_year (tr_timeline (region_timeline RT "Baalbek" None None (Some 25%Z)))
     = [60; 150; 685]%Z.
Proof.
  apply (@region_timeline_within_limit FlatRuntime.flat_runtime "Beirut"
           (Some 0%Z) None (Some 3%Z)).
  cbn. lia.
Defined.

(** C7. A path with fewer than two points is answered without raising:
    the three keys ["selected_events"], ["summary"] and ["path_length_km"],
    with an empty list, the fixed note and the integer 0. The key
    ["corridor_km"] of the full result is not in this dictionary. *)
Theorem route_history_summary_short (RT : Runtime) (p : float * float)
  (corridor_km : float) :
  let short := [ ("selected_events", VEvents []);
                 ("summary", VStr "Route is too short for evaluation.");
                 ("path_length_km", VInt 0) ] in
  route_history_summary RT [] corridor_km = Ok short
  /\ route_history_summary RT [p] corridor_km = Ok short
  /\ dict_get short "path_length_km" = Some (VInt 0)
  /\ dict_get short "selected_events" = Some (VEvents [])
  /\ dict_get short "corridor_km" = None
  /\ dict_keys short = ["selected_events"; "summary"; "path_length_km"].
Proof.
  repeat split; vm_compute; reflexivity.
Qed.

(* ================================================================== *)
(** * Nearest place *)
(* ================================================================== *)

Section ReverseGeocode.

Import FloatFacts FloatArith.

Variable RT : Runtime.
Variables lat lon : float.

(** The distance from the query point to an item of the table. *)
Definition place_distance (item : string * Place) : res float :=
  _haversine_km RT lat lon (place_lat (snd item)) (place_lon (snd item)).

(** What the loop of [reverse_geocode] knows after the items [seen]:
    nothing seen is strictly below [best_d]; [best], when set, is a seen
    item at distance [best_d], below [inf], and every item before it is
    not at most [best_d] away. *)
Definition scan_inv (seen : list (string * Place))
  (best : option (string * Place)) (best_d : float) : Prop :=
  (forall item d, In item seen -> place_distance item = Ok d -> (d <? best_d) = false)
  /\ match best with
     | None => best_d = inf
     | Some b =>
         exists pre post, seen = pre ++ b :: post /\
           place_distance b = Ok best_d /\ (best_d <? inf) = true /\
           forall item d, In item pre -> place_distance item = Ok d ->
                          (d <=? best_d) = false
     end.

Lemma reverse_scan_inv (items seen : list (string * Place))
  (best out : option (string * Place)) (best_d out_d : float) :
  reverse_scan RT lat lon items best best_d = Ok (out, out_d) ->
  scan_inv seen best best_d -> scan_inv (seen ++ items) out out_d.
Proof.
  revert seen best best_d. induction items as [|[name info] rest IH];
    intros seen best best_d H I; simpl in H.
  - injection H as <- <-. now rewrite app_nil_r.
  - change (_haversine_km RT lat lon (place_lat info) (place_lon info))
      with (place_distance (name, info)) in H.
    destruct (place_distance (name, info)) as [d|e] eqn:D; simpl in H; [|discriminate].
    replace (seen ++ (name, info) :: rest) with ((seen ++ [(name, info)]) ++ rest)
      by (rewrite <- app_assoc; reflexivity).
    destruct I as [I1 I2].
    destruct (d <? best_d) eqn:L; apply (IH _ _ _ H); split.
    + intros item d' Hin Hd. apply in_app_or in Hin. destruct Hin as [Hin|[<-|[]]].
      * destruct (d' <? d) eqn:C; auto.
        pose proof (@ltb_trans _ _ _ C L) as T. now rewrite (I1 _ _ Hin Hd) in T.
      * rewrite D in Hd. injection Hd as <-. apply ltb_irrefl.
    + exists seen, []. repeat split; auto.
      * now apply ltb_lt_inf with (y := best_d).
      * intros item d' Hin Hd. destruct (d' <=? d) eqn:C; auto.
        pose proof (@leb_ltb_trans _ _ _ C L) as T.
        now rewrite (I1 _ _ Hin Hd) in T.
    + intros item d' Hin Hd. apply in_app_or in Hin. destruct Hin as [Hin|[<-|[]]].
      * eauto.
      * rewrite D in Hd. now injection Hd as <-.
    + destruct best as [b|]; auto.
      destruct I2 as (pre & post & -> & Hb & Hi & Hpre).
      exists pre, (post ++ [(name, info)]). rewrite <- app_assoc. repeat split; auto.
Qed.

(** A scan that returns has computed every distance. *)
Lemma reverse_scan_ok (items : list (string * Place))
  (best out : option (string * Place)) (best_d out_d : float) :
  reverse_scan RT lat lon items best best_d = Ok (out, out_d) ->
  forall item, In item items -> exists d, place_distance item = Ok d.
Proof.
  revert best best_d. induction items as [|[name info] rest IH];
    intros best best_d H item Hin; [contradiction|]. simpl in H.
  change (_haversine_km RT lat lon (place_lat info) (place_lon info))
      with (place_distance (name, info)) in H.
  destruct (place_distance (name, info)) as [d|e] eqn:D; simpl in H; [|discriminate].
  destruct Hin as [<-|Hin]; eauto.
  destruct (d <? best_d); eauto.
Qed.

(** A scan that raises stopped at an item whose distance raises. *)
Lemma reverse_scan_raise (items : list (string * Place))
  (best : option (string * Place)) (best_d : float) (e : exn) :
  reverse_scan RT lat lon items best best_d = Raise e ->
  exists item, In item items /\ place_distance item = Raise e.
Proof.
  revert best best_d. induction items as [|[name info] rest IH];
    intros best best_d H; simpl in H; [discriminate|].
  change (_haversine_km RT lat lon (place_lat info) (place_lon info))
      with (place_distance (name, info)) in H.
  destruct (place_distance (name, info)) as [d|e'] eqn:D; simpl in H.
  - destruct (d <? best_d); apply IH in H; destruct H as (item & Hin & Hd);
      exists item; split; auto; now right.
  - injection H as <-. exists (name, info). split; auto. now left.
Qed.

(** The items of the table have finite coordinates. *)
Definition finite_places (places : list (string * Place)) : Prop :=
  Forall (fun item => is_finite (place_lat (snd item)) = true /\
                      is_finite (place_lon (snd item)) = true) places.

Hypothesis lat_finite : is_finite lat = true.
Hypothesis lon_finite : is_finite lon = true.

Lemma place_distance_finite (places : list (string * Place))
  (item : string * Place) (d : float) :
  finite_places places -> In item places -> place_distance item = Ok d ->
  is_finite d = true /\ (0 <=? d) = true.
Proof.
  intros F Hin Hd. unfold finite_places in F. rewrite Forall_forall in F.
  destruct (F _ Hin) as [Fa Fo].
  exact (@_haversine_km_nonneg RT lat lon _ _ d lat_finite lon_finite Fa Fo Hd).
Qed.

(** [reverse_geocode] at a finite query point, over a table of finite
    coordinates: an exception of a distance, or the first place at the
    least distance; the error value only for the empty table. *)
Lemma reverse_geocode_in_finite (places : list (string * Place)) :
  finite_places places ->
  (exists e item, reverse_geocode_in RT places lat lon = Raise e /\
                  In item places /\ place_distance item = Raise e)
  \/ (places = [] /\
      reverse_geocode_in RT places lat lon = Ok (RevError "No places available."))
  \/ (exists pre name info post d,
        places = pre ++ (name, info) :: post /\
        place_distance (name, info) = Ok d /\
        reverse_geocode_in RT places lat lon =
          Ok (RevMatch (mkNearest name (place_city info) (place_type info)
                          (round3 RT d) (place_lat info) (place_lon info))) /\
        (forall item d', In item places -> place_distance item = Ok d' ->
                         (d <=? d') = true) /\
        (forall item d', In item pre -> place_distance item = Ok d' ->
                         (d <? d') = true)).
Proof.
  intros F. unfold reverse_geocode_in.
  destruct (reverse_scan RT lat lon places None inf) as [[best best_d]|e] eqn:S.
  - assert (I0 : scan_inv [] None inf).
    { split; [intros ? ? []|reflexivity]. }
    pose proof (@reverse_scan_inv _ _ _ _ _ _ S I0) as [I1 I2]. simpl in I1, I2.
    destruct best as [[name info]|].
    + right. right. destruct I2 as (pre & post & E & Hb & Hi & Hpre).
      exists pre, name, info, post, best_d. simpl. repeat split; auto.
      * intros item d' Hin Hd.
        assert (Hinb : In (name, info) places).
        { rewrite E. apply in_or_app. right. now left. }
        destruct (@place_distance_finite _ _ _ F Hinb Hb) as [Fb _].
        destruct (@place_distance_finite _ _ _ F Hin Hd) as [Fd _].
        apply not_ltb_leb; auto using is_finite_not_nan.
        exact (I1 _ _ Hin Hd).
      * intros item d' Hin Hd.
        assert (Hinb : In (name, info) places).
        { rewrite E. apply in_or_app. right. now left. }
        assert (Hin' : In item places).
        { rewrite E. apply in_or_app. now left. }
        destruct (@place_distance_finite _ _ _ F Hinb Hb) as [Fb _].
        destruct (@place_distance_finite _ _ _ F Hin' Hd) as [Fd _].
        apply not_leb_ltb; auto using is_finite_not_nan.
        exact (Hpre _ _ Hin Hd).
    + right. left. split; [|reflexivity].
      destruct places as [|item rest]; auto. exfalso.
      destruct (@reverse_scan_ok _ _ _ _ _ S item (or_introl eq_refl)) as [d Hd].
      destruct (@place_distance_finite _ _ _ F (or_introl eq_refl) Hd) as [Fd _].
      pose proof (I1 _ _ (or_introl eq_refl) Hd) as C.
      subst best_d. unfold inf in C. rewrite (@finite_lt_inf _ Fd) in C. discriminate.
  - left. destruct (@reverse_scan_raise _ _ _ _ S) as (item & Hin & Hd).
    exists e, item. simpl. auto.
Qed.

End ReverseGeocode.

Lemma PLACES_finite : finite_places PLACES.
Proof.
  unfold finite_places, PLACES. repeat constructor.
Qed.

(** A NaN query point is at distance NaN from every place, no distance is
    below [inf], and the scan ends with no best candidate. *)
Lemma reverse_scan_nan (RT : Runtime) (places : list (string * Place)) :
  finite_places places ->
  reverse_scan RT nan nan places None inf = Ok (None, inf).
Proof.
  induction 1 as [|[name info] rest [Fa Fo] F IH]; simpl in *; auto.
  rewrite (@_haversine_km_nan RT _ (place_lon info) Fa). simpl. exact IH.
Qed.

Lemma reverse_geocode_nan (RT : Runtime) :
  reverse_geocode RT nan nan = Ok (RevError "No places available.").
Proof.
  unfold reverse_geocode, reverse_geocode_in.
  now rewrite (@reverse_scan_nan RT _ PLACES_finite).
Qed.

(* ================================================================== *)
(** * Radius scans: filter by distance, annotate, sort *)
(* ================================================================== *)

Section RadiusScan.

Import FloatFacts.

Variables (A H : Type).
Variable dist : A -> res float.
Variable radius : float.
Variable mk : A -> float -> H.

(** The loop shared by [nearby_search], [events_near_location] and
    [route_history_summary]: compute the distance of each element, keep
    the element when the distance is at most [radius], and append the
    annotated copy. *)
Fixpoint radius_scan (l : list A) (acc : list H) : res (list H) :=
  match l with
  | [] => Ok acc
  | a :: rest =>
      d <- dist a ;;
      if d <=? radius
      then radius_scan rest (acc ++ [mk a d])
      else radius_scan rest acc
  end.

(** An element with its distance passes the radius test. *)
Definition within (ad : A * float) : bool := snd ad <=? radius.

(** The annotated copy of an element. *)
Definition annotate (ad : A * float) : H := mk (fst ad) (snd ad).

(** The elements kept, in table order, given the distances of all. *)
Definition kept_of (l : list A) (ds : list float) : list H :=
  map annotate (filter within (combine l ds)).

Lemma kept_of_cons (a : A) (d : float) (l : list A) (ds : list float) :
  kept_of (a :: l) (d :: ds) =
  if d <=? radius then mk a d :: kept_of l ds else kept_of l ds.
Proof.
  unfold kept_of. cbn [combine filter]. unfold within at 1. cbn [snd].
  destruct (d <=? radius); reflexivity.
Qed.

Lemma radius_scan_eq (l : list A) (acc : list H) :
  radius_scan l acc = (ds <- mapM dist l ;; Ok (acc ++ kept_of l ds)).
Proof.
  revert acc. induction l as [|a rest IH]; intros acc; cbn [radius_scan mapM].
  - cbn [bind]. unfold kept_of. cbn. now rewrite app_nil_r.
  - destruct (dist a) as [d|e]; cbn [bind]; auto.
    destruct (d <=? radius) eqn:L; rewrite IH;
      destruct (mapM dist rest) as [ds|e]; cbn [bind]; auto;
      rewrite kept_of_cons, L; auto.
    now rewrite <- app_assoc.
Qed.

Lemma mapM_length {X Y : Type} (f : X -> res Y) (l : list X) (ys : list Y) :
  mapM f l = Ok ys -> List.length ys = List.length l.
Proof.
  revert ys. induction l as [|x l IH]; intros ys; simpl.
  - now intros [= <-].
  - destruct (f x); simpl; [|discriminate].
    destruct (mapM f l); simpl; [|discriminate].
    intros [= <-]. simpl. f_equal. now apply IH.
Qed.

Lemma mapM_ok_iff {X Y : Type} (f : X -> res Y) (l : list X) :
  (exists ys, mapM f l = Ok ys) <-> (forall x, In x l -> exists y, f x = Ok y).
Proof.
  induction l as [|x l IH]; simpl.
  - split; [intros _ ? []|eauto].
  - split.
    + intros [ys Hy] z [<-|Hz].
      * destruct (f x); simpl in Hy; [eauto|discriminate].
      * destruct (f x); simpl in Hy; [|discriminate].
        destruct (mapM f l) as [ys'|]; simpl in Hy; [|discriminate].
        apply (proj1 IH); eauto.
    + intros Hall. destruct (Hall x (or_introl eq_refl)) as [y Hy]. rewrite Hy.
      destruct (proj2 IH (fun z Hz => Hall z (or_intror Hz))) as [ys Hys].
      rewrite Hys. simpl. eauto.
Qed.

(** The distances [mapM] returns are the distances of the elements. *)
Lemma mapM_combine {X Y : Type} (f : X -> res Y) (l : list X) (ys : list Y) :
  mapM f l = Ok ys -> forall x y, In (x, y) (combine l ys) -> f x = Ok y.
Proof.
  revert ys. induction l as [|a l IH]; intros ys; simpl.
  - intros _ x y [].
  - destruct (f a) eqn:E; simpl; [|discriminate].
    destruct (mapM f l) eqn:M; simpl; [|discriminate].
    intros [= <-] x y [[= <- <-]|Hin]; auto. eapply IH; eauto.
Qed.

End RadiusScan.

Section DistanceSort.

Import FloatFacts.

Variable RT : Runtime.

Lemma round3_not_nan (d : float) : is_nan d = false -> is_nan (round3 RT d) = false.
Proof.
  intros N. unfold round3. destruct (is_finite d) eqn:F; auto.
  apply is_finite_not_nan. now apply round_finite.
Qed.

Lemma ltb_negtrans (x y z : float) :
  is_nan x = false -> is_nan y = false -> is_nan z = false ->
  (y <? x) = false -> (z <? y) = false -> (z <? x) = false.
Proof.
  intros Nx Ny Nz H1 H2. apply leb_not_ltb.
  apply leb_trans with (y := y); now apply not_ltb_leb.
Qed.

(** Sorting by a float key that is never NaN. *)
Lemma sort_by_float_stable {X : Type} (key : X -> float) (l : list X) :
  Forall (fun a => is_nan (key a) = false) l ->
  stable_sorted PrimFloat.ltb key (fun k => is_nan k = false) l
    (sort_by PrimFloat.ltb key l)
  /\ StronglySorted (fun a b => (key a <=? key b) = true)
       (sort_by PrimFloat.ltb key l).
Proof.
  intros G.
  assert (S : stable_sorted PrimFloat.ltb key (fun k => is_nan k = false) l
                (sort_by PrimFloat.ltb key l)).
  { apply sort_by_stable_sorted; auto.
    - exact ltb_asym.
    - exact ltb_negtrans. }
  split; auto. destruct S as (P & S & _).
  assert (G' : Forall (fun a => is_nan (key a) = false) (sort_by PrimFloat.ltb key l)).
  { rewrite Forall_forall in *. intros a Ha. apply G.
    eapply Permutation_in; eauto. }
  clear P G. induction S as [|a m S IH F]; constructor.
  - apply IH. now inversion G'.
  - inversion G' as [|? ? Ga Gm]; subst. rewrite Forall_forall in *.
    intros b Hb. apply not_ltb_leb; auto. now apply F.
Qed.

(** The annotated copies of a radius scan have keys that are numbers. *)
Lemma kept_of_not_nan {X Y : Type} (radius : float) (mk : X -> float -> Y)
  (key : Y -> float) (l : list X) (ds : list float) :
  (forall x d, key (mk x d) = round3 RT d) ->
  Forall (fun h => is_nan (key h) = false) (kept_of radius mk l ds).
Proof.
  intros K. unfold kept_of. apply Forall_forall. intros h Hh.
  apply in_map_iff in Hh. destruct Hh as ([x d] & <- & Hin).
  apply filter_In in Hin. destruct Hin as [_ W]. unfold within in W. simpl in W.
  unfold annotate. simpl. rewrite K. apply round3_not_nan.
  now apply leb_not_nan in W.
Qed.

End DistanceSort.

(* ================================================================== *)
(** * Route length, closest vertex and the narrative *)
(* ================================================================== *)

(** ** Strings in alphabetical order *)

Lemma str_ltb_lt (a b : string) : PyStr.ltb a b = true <-> String_as_OT.lt a b.
Proof.
  unfold PyStr.ltb, String.ltb. rewrite <- String_as_OT.cmp_lt.
  unfold String_as_OT.cmp. destruct (String.compare a b); split; congruence.
Qed.

Lemma str_ltb_asym (a b : string) : PyStr.ltb a b = true -> PyStr.ltb b a = false.
Proof.
  unfold PyStr.ltb, String.ltb. rewrite (String.compare_antisym a b).
  destruct (String.compare b a); simpl; congruence.
Qed.

Lemma str_compare_eq (a b : string) : String.compare a b = Eq <-> a = b.
Proof. exact (String_as_OT.cmp_eq a b). Qed.

Lemma str_ltb_negtrans (x y z : string) :
  True -> True -> True ->
  PyStr.ltb y x = false -> PyStr.ltb z y = false -> PyStr.ltb z x = false.
Proof.
  intros _ _ _ H1 H2. destruct (PyStr.ltb z x) eqn:C; auto. exfalso.
  apply str_ltb_lt in C.
  assert (L : forall a b, PyStr.ltb b a = false -> String_as_OT.lt a b \/ a = b).
  { intros a b H. unfold PyStr.ltb, String.ltb in H.
    rewrite (String.compare_antisym b a) in H.
    destruct (String.compare a b) eqn:E; simpl in H; try discriminate.
    - right. now apply str_compare_eq.
    - left. now apply String_as_OT.cmp_lt. }
  destruct (L _ _ H1) as [A | E1], (L _ _ H2) as [B | E2]; subst.
  - pose proof (String_as_OT.lt_trans _ _ _ (String_as_OT.lt_trans _ _ _ A B) C) as T.
    exact (String_as_OT.lt_not_eq _ _ T eq_refl).
  - pose proof (String_as_OT.lt_trans _ _ _ A C) as T.
    exact (String_as_OT.lt_not_eq _ _ T eq_refl).
  - pose proof (String_as_OT.lt_trans _ _ _ B C) as T.
    exact (String_as_OT.lt_not_eq _ _ T eq_refl).
  - exact (String_as_OT.lt_not_eq _ _ C eq_refl).
Qed.

(** A sorted list without repetition is strictly ascending. *)
Lemma sorted_nodup_strict (l : list string) :
  NoDup l ->
  StronglySorted (fun a b => PyStr.ltb b a = false) l ->
  StronglySorted (fun a b => PyStr.ltb a b = true) l.
Proof.
  intros N S. induction S as [|a l S IH F]; constructor.
  - apply IH. now inversion N.
  - inversion N as [|? ? Na Nl]; subst. rewrite Forall_forall in *.
    intros b Hb. pose proof (F b Hb) as H.
    unfold PyStr.ltb, String.ltb in *.
    rewrite (String.compare_antisym b a) in H.
    destruct (String.compare a b) eqn:E; simpl in H; try discriminate; auto.
    apply str_compare_eq in E. subst. contradiction.
Qed.

(** [sorted_regions]: the distinct regions, strictly ascending. *)
Lemma sorted_regions_spec (nearby : list RouteEntry) :
  StronglySorted (fun a b => PyStr.ltb a b = true) (sorted_regions nearby)
  /\ forall s, In s (sorted_regions nearby) <->
               exists e, In e nearby /\ ev_region (re_event e) = s.
Proof.
  unfold sorted_regions.
  set (rs := nodup string_dec (map (fun e => ev_region (re_event e)) nearby)).
  assert (G : Forall (fun a : string => True) rs) by (apply Forall_forall; auto).
  destruct (@sort_by_stable_sorted string string PyStr.ltb (fun s => s)
              (fun _ => True) str_ltb_asym str_ltb_negtrans rs G) as (P & S & _).
  split.
  - apply sorted_nodup_strict; auto.
    eapply Permutation_NoDup; [symmetry; exact P|]. apply NoDup_nodup.
  - intros s. split.
    + intros H. apply (Permutation_in _ P) in H. unfold rs in H.
      apply nodup_In, in_map_iff in H. destruct H as (e & E & Hin). eauto.
    + intros (e & Hin & E). apply (Permutation_in _ (Permutation_sym P)).
      unfold rs. apply nodup_In, in_map_iff. eauto.
Qed.

(** ** The legs of a path *)

(** The consecutive pairs of vertices. *)
Fixpoint legs (path : list (float * float)) : list ((float * float) * (float * float)) :=
  match path with
  | p :: ((q :: _) as rest) => (p, q) :: legs rest
  | _ => []
  end.

Section RouteFacts.

Import FloatFacts.

Variable RT : Runtime.

(** The length of a leg. *)
Definition leg_distance (l : (float * float) * (float * float)) : res float :=
  _distance_km RT (fst (fst l)) (snd (fst l)) (fst (snd l)) (snd (snd l)).

Lemma route_length_step (p q : float * float) (rest : list (float * float))
  (total : float) :
  route_length RT (p :: q :: rest) total =
  (d <- leg_distance (p, q) ;; route_length RT (q :: rest) (total + d)).
Proof. destruct p, q. reflexivity. Qed.

Lemma legs_step (p q : float * float) (rest : list (float * float)) :
  legs (p :: q :: rest) = (p, q) :: legs (q :: rest).
Proof. reflexivity. Qed.

Lemma route_length_eq (path : list (float * float)) (total : float) :
  route_length RT path total =
  (ds <- mapM leg_distance (legs path) ;; Ok (fold_left PrimFloat.add ds total)).
Proof.
  revert total. induction path as [|p rest IH]; intros total; auto.
  destruct rest as [|q rest']; [now destruct p|].
  rewrite route_length_step, legs_step. cbn [mapM].
  destruct (leg_distance (p, q)) as [d|e]; cbn [bind]; auto.
  rewrite IH. destruct (mapM leg_distance (legs (q :: rest'))); reflexivity.
Qed.

(** The distance from a vertex to an event. *)
Definition vertex_distance (ev : Event) (v : float * float) : res float :=
  _distance_km RT (fst v) (snd v) (ev_lat ev) (ev_lon ev).

Lemma min_scan_spec (ev : Event) (path : list (float * float)) (cur c : float) :
  min_scan RT ev path cur = Ok c ->
  (forall v, In v path -> exists d, vertex_distance ev v = Ok d)
  /\ (c = cur \/ exists v, In v path /\ vertex_distance ev v = Ok c)
  /\ (is_nan cur = false ->
      (forall v d, In v path -> vertex_distance ev v = Ok d -> is_nan d = false) ->
      (c <=? cur) = true /\
      forall v d, In v path -> vertex_distance ev v = Ok d -> (c <=? d) = true).
Proof.
  revert cur. induction path as [|[lat lon] rest IH]; intros cur H; cbn [min_scan] in H.
  - injection H as <-. split; [intros ? []|]. split; auto.
    intros N _. split; [now apply leb_refl|intros ? ? []].
  - change (_distance_km RT lat lon (ev_lat ev) (ev_lon ev))
      with (vertex_distance ev (lat, lon)) in H.
    destruct (vertex_distance ev (lat, lon)) as [d|] eqn:D; cbn [bind] in H;
      [|discriminate].
    destruct (IH _ H) as (A & B & C). split; [|split].
    + intros v [<-|Hv]; eauto.
    + destruct B as [E | (v & Hv & E)]; [subst c|].
      * destruct (d <? cur); auto. right. exists (lat, lon). split; auto. now left.
      * right. exists v. split; auto. now right.
    + intros N G.
      assert (Nd : is_nan d = false) by (apply (G (lat, lon) d); auto; now left).
      assert (N' : is_nan (if d <? cur then d else cur) = false).
      { now destruct (d <? cur). }
      destruct (C N' (fun v d' Hv => G v d' (or_intror Hv))) as [C1 C2].
      assert (L : ((if d <? cur then d else cur) <=? cur) = true
                  /\ ((if d <? cur then d else cur) <=? d) = true).
      { destruct (d <? cur) eqn:E.
        - split; [now apply ltb_leb | now apply leb_refl].
        - split; [now apply leb_refl | now apply not_ltb_leb]. }
      destruct L as [L1 L2]. split.
      * eapply leb_trans; eauto.
      * intros v d' [<-|Hv] Hd.
        -- rewrite D in Hd. injection Hd as <-. eapply leb_trans; eauto.
        -- eapply C2; eauto.
Qed.

(** [closest_vertex]: every vertex distance is computed; the result is
    one of them; when none is NaN it is the least. *)
Lemma closest_vertex_spec (ev : Event) (path : list (float * float)) (c : float) :
  closest_vertex RT ev path = Ok c ->
  (forall v, In v path -> exists d, vertex_distance ev v = Ok d)
  /\ (exists v, In v path /\ vertex_distance ev v = Ok c)
  /\ ((forall v d, In v path -> vertex_distance ev v = Ok d -> is_nan d = false) ->
      forall v d, In v path -> vertex_distance ev v = Ok d -> (c <=? d) = true).
Proof.
  destruct path as [|[lat lon] rest]; cbn [closest_vertex]; [discriminate|].
  change (_distance_km RT lat lon (ev_lat ev) (ev_lon ev))
    with (vertex_distance ev (lat, lon)).
  destruct (vertex_distance ev (lat, lon)) as [d0|] eqn:D; cbn [bind]; [|discriminate].
  intros H. destruct (min_scan_spec _ _ _ H) as (A & B & C). split; [|split].
  - intros v [<-|Hv]; eauto.
  - destruct B as [E | (v & Hv & E)]; [subst c|].
    + exists (lat, lon). split; auto. now left.
    + exists v. split; auto. now right.
  - intros G.
    assert (N0 : is_nan d0 = false) by (apply (G (lat, lon) d0); auto; now left).
    destruct (C N0 (fun v d' Hv => G v d' (or_intror Hv))) as [C1 C2].
    intros v d' [<-|Hv] Hd.
    + rewrite D in Hd. now injection Hd as <-.
    + eapply C2; eauto.
Qed.

(** [entry = dict(ev); entry["distance_to_route_km"] = round(closest, 3)]. *)
Definition route_entry (ev : Event) (c : float) : RouteEntry :=
  mkRouteEntry ev (round3 RT c).

Lemma corridor_scan_radius (path : list (float * float)) (corridor_km : float)
  (events : list Event) (nearby : list RouteEntry) :
  corridor_scan RT path corridor_km events nearby =
  radius_scan (fun ev => closest_vertex RT ev path) corridor_km route_entry
    events nearby.
Proof.
  revert nearby. induction events as [|ev rest IH]; intros nearby;
    cbn [corridor_scan radius_scan]; auto.
  destruct (closest_vertex RT ev path) as [c|e]; cbn [bind]; auto.
  unfold route_entry at 1. destruct (c <=? corridor_km); apply IH.
Qed.

End RouteFacts.

(** The year of a selected event. *)
Definition entry_year (e : RouteEntry) : Z := ev_year (re_event e).

(** In a list in ascending year order the first entry is the earliest and
    the last one the latest. *)
Lemma sorted_years_bounds (first : RouteEntry) (rest : list RouteEntry) :
  StronglySorted (fun a b => (entry_year a <= entry_year b)%Z) (first :: rest) ->
  forall e, In e (first :: rest) ->
    (entry_year first <= entry_year e <= entry_year (last (first :: rest) first))%Z.
Proof.
  intros S. assert (G : forall l d, StronglySorted
                      (fun a b => (entry_year a <= entry_year b)%Z) l ->
                    forall e, In e l -> (entry_year e <= entry_year (last l d))%Z).
  { induction l as [|x l IH]; intros d Hs e He; [contradiction|].
    inversion Hs as [|? ? Hs' F]; subst. rewrite Forall_forall in F.
    destruct l as [|y l].
    - destruct He as [<-|[]]. simpl. lia.
    - assert (R : forall a, last (a :: y :: l) d = last (y :: l) d) by reflexivity.
      rewrite R. destruct He as [E|He].
      + subst e. pose proof (IH d Hs' y (or_introl eq_refl)).
        pose proof (F y (or_introl eq_refl)). lia.
      + now apply IH. }
  intros e He. split; [|now apply G].
  inversion S as [|? ? _ F]; subst. rewrite Forall_forall in F.
  destruct He as [<-|He]; [lia | now apply F].
Qed.

(* ================================================================== *)
(** * The distance contract and the nearest place *)
(* ================================================================== *)

Import FloatFacts FloatArith FlatRuntime.

(** The eighth claim's totality, as the specification words it: the
    distance returns for every finite input. *)
Definition haversine_total_on_finite : Prop :=
  forall (RT : Runtime) (lat1 lon1 lat2 lon2 : float),
    is_finite lat1 = true -> is_finite lon1 = true ->
    is_finite lat2 = true -> is_finite lon2 = true ->
    exists d, _haversine_km RT lat1 lon1 lat2 lon2 = Ok d.

(** The latitudes [1e308] and [-1e308] are finite, their difference is
    not, and [math.sin] of an infinity raises [ValueError]. *)
Lemma haversine_overflow_raises : ~ haversine_total_on_finite.
Proof.
  intros H.
  destruct (H flat_runtime 1e308 0 (-1e308) 0 eq_refl eq_refl eq_refl eq_refl)
    as [d Hd].
  rewrite _haversine_km_overflow in Hd. discriminate Hd.
Qed.

(** What the distance contract gives at two finite points. *)
Definition haversine_contract_at (RT : Runtime) (lat1 lon1 lat2 lon2 : float) : Prop :=
  _haversine_km RT lat1 lon1 lat1 lon1 = Ok 0
  /\ _haversine_km RT lat1 lon1 lat2 lon2 = _haversine_km RT lat2 lon2 lat1 lon1
  /\ (forall d, _haversine_km RT lat1 lon1 lat2 lon2 = Ok d ->
                is_finite d = true /\ (0 <=? d) = true)
  /\ _distance_km RT lat1 lon1 lat2 lon2 = _haversine_km RT lat1 lon1 lat2 lon2
  /\ _haversine_km RT 1e308 0 (-1e308) 0 = Raise (ValueError "math domain error").

(** C8 (amended). At finite coordinates the haversine distance, one
    formula with the radius 6371 in both servers, is exactly [0.0] from a
    point to itself, has the same outcome in both directions, and when it
    returns it returns a finite number that is not negative. Ranges are
    not validated, and the function is not total on finite inputs: a
    coordinate difference that overflows makes [math.sin] raise. *)
Theorem haversine_contract (RT : Runtime) (lat1 lon1 lat2 lon2 : float) :
  is_finite lat1 = true -> is_finite lon1 = true ->
  is_finite lat2 = true -> is_finite lon2 = true ->
  haversine_contract_at RT lat1 lon1 lat2 lon2.
Proof.
  intros F1 G1 F2 G2. unfold haversine_contract_at.
  split; [|split; [|split; [|split]]].
  - now apply _haversine_km_self.
  - apply _haversine_km_sym.
  - intros d Hd. exact (@_haversine_km_nonneg RT _ _ _ _ d F1 G1 F2 G2 Hd).
  - apply _distance_km_eq.
  - apply _haversine_km_overflow.
Qed.

(** The contract between Beirut and Baalbek. *)
Lemma haversine_contract_witness :
  haversine_contract_at flat_runtime 33.8938 35.5018 34.006 36.203.
Proof.
  apply (haversine_contract flat_runtime 33.8938 35.5018 34.006 36.203);
    reflexivity.
Defined.

(** The outcome of [reverse_geocode] at a finite query point. *)
Definition reverse_geocode_outcome (RT : Runtime) (lat lon : float) : Prop :=
  ((exists e item, reverse_geocode RT lat lon = Raise e /\
                   In item PLACES /\ place_distance RT lat lon item = Raise e)
   \/ (exists pre name info post d,
         PLACES = pre ++ (name, info) :: post /\
         place_distance RT lat lon (name, info) = Ok d /\
         reverse_geocode RT lat lon =
           Ok (RevMatch (mkNearest name (place_city info) (place_type info)
                           (round3 RT d) (place_lat info) (place_lon info))) /\
         (forall item d', In item PLACES ->
            place_distance RT lat lon item = Ok d' -> (d <=? d') = true) /\
         (forall item d', In item pre ->
            place_distance RT lat lon item = Ok d' -> (d <? d') = true)))
  /\ (forall places msg, finite_places places ->
        reverse_geocode_in RT places lat lon = Ok (RevError msg) -> places = [])
  /\ reverse_geocode_in RT [] lat lon = Ok (RevError "No places available.").

(** At a finite query point [reverse_geocode] raises the exception of a
    distance computation, or returns the place at the least distance, the
    first in table order among equals (every earlier place is strictly
    farther: the scan replaces its candidate on [<] only), with its name,
    city, type, coordinates and the distance rounded to three decimals.
    Over tables of finite coordinates the error value comes back only
    from the empty table. *)
Theorem reverse_geocode_nearest (RT : Runtime) (lat lon : float) :
  is_finite lat = true -> is_finite lon = true ->
  reverse_geocode_outcome RT lat lon.
Proof.
  intros Flat Flon. unfold reverse_geocode_outcome. split; [|split].
  - destruct (@reverse_geocode_in_finite RT lat lon Flat Flon PLACES PLACES_finite)
      as [(e & item & H)|[[E _]|H]].
    + left. exists e, item. exact H.
    + discriminate E.
    + right. exact H.
  - intros places msg F H.
    destruct (@reverse_geocode_in_finite RT lat lon Flat Flon places F)
      as [(e & item & H1 & _)|[[E _]|(pre & name & info & post & d & _ & _ & H1 & _)]];
      auto; rewrite H1 in H; discriminate H.
  - reflexivity.
Qed.

(** The outcome at a point of Beirut. *)
Lemma reverse_geocode_nearest_witness :
  reverse_geocode_outcome flat_runtime 33.9 35.5.
Proof.
  apply (reverse_geocode_nearest flat_runtime 33.9 35.5); reflexivity.
Defined.

(** C2. The query point (NaN, NaN) over the nine places of [PLACES]: the
    distance to every place is computed and is NaN, and the call answers
    with the error value ["No places available."], the answer that the
    source keeps for an empty table, although the table is not empty and
    no place was compared as farther than another. *)
Theorem reverse_geocode_nan_no_match (RT : Runtime) :
  List.length PLACES = 9%nat
  /\ (forall item, In item PLACES -> place_distance RT nan nan item = Ok nan)
  /\ reverse_geocode RT nan nan = Ok (RevError "No places available.")
  /\ reverse_geocode_in RT [] nan nan = Ok (RevError "No places available.").
Proof.
  split; [reflexivity|]. split; [|split].
  - intros item Hin. pose proof PLACES_finite as F.
    unfold finite_places in F. rewrite Forall_forall in F.
    destruct (F item Hin) as [Fa _]. unfold place_distance.
    exact (@_haversine_km_nan RT _ (place_lon (snd item)) Fa).
  - apply reverse_geocode_nan.
  - reflexivity.
Qed.




(** C10. The scan of [reverse_geocode] from the query point (NaN, NaN):
    no comparison [d < best_d] holds, the scan of the nine places ends as
    it started, with no candidate and the bound [inf], and the call takes
    the branch written for an empty table: it returns the error value and
    no nearest-location record. *)
Theorem reverse_geocode_nan_error_branch (RT : Runtime) :
  PLACES <> []
  /\ reverse_scan RT nan nan PLACES None inf = Ok (None, inf)
  /\ reverse_geocode RT nan nan = Ok (RevError "No places available.")
  /\ (forall nearest, reverse_geocode RT nan nan <> Ok (RevMatch nearest)).
Proof.
  split; [discriminate|]. split; [|split].
  - exact (@reverse_scan_nan RT PLACES PLACES_finite).
  - apply reverse_geocode_nan.
  - intros nearest H. rewrite reverse_geocode_nan in H. discriminate H.
Qed.

(* ================================================================== *)
(** * Radius searches over the POIs and the events *)
(* ================================================================== *)

(** The distance from the query point to a POI. *)
Definition poi_distance (RT : Runtime) (lat lon : float) (poi : Poi) : res float :=
  _haversine_km RT lat lon (poi_lat poi) (poi_lon poi).

(** [poi["type"].lower() == t]. *)
Definition type_is (RT : Runtime) (t : string) (poi : Poi) : bool :=
  String.eqb (str_lower RT (poi_type poi)) t.

(** [entry = dict(poi); entry["distance_km"] = round(d, 3)]. *)
Definition poi_hit (RT : Runtime) (poi : Poi) (d : float) : PoiHit :=
  mkPoiHit poi (round3 RT d).

Lemma nearby_scan_radius (RT : Runtime) (lat lon : float) (t : string)
  (radius_km : float) (pois : list Poi) (hits : list PoiHit) :
  nearby_scan RT lat lon t radius_km pois hits =
  radius_scan (poi_distance RT lat lon) radius_km (poi_hit RT)
    (filter (type_is RT t) pois) hits.
Proof.
  revert hits. induction pois as [|poi rest IH]; intros hits; cbn [nearby_scan filter].
  - reflexivity.
  - unfold type_is at 1. destruct (String.eqb (str_lower RT (poi_type poi)) t);
      cbn [negb radius_scan]; auto.
    unfold poi_distance at 1, poi_hit at 1.
    destruct (_haversine_km RT lat lon (poi_lat poi) (poi_lon poi)) as [d|e];
      cbn [bind]; auto.
    destruct (d <=? radius_km); apply IH.
Qed.

Lemma type_is_iff (RT : Runtime) (t : string) (poi : Poi) :
  type_is RT t poi = true <-> str_lower RT (poi_type poi) = t.
Proof. unfold type_is. apply String.eqb_eq. Qed.

(** [nearby_search] over any table of POIs, for a limit that is null or
    not negative; [query_type] is the [poi_type] argument. *)
Definition nearby_search_outcome_in (RT : Runtime) (pois : list Poi)
  (lat lon : float) (query_type : string) (radius_km : float) (limit : option Z)
  : Prop :=
  let trimmed := PyStr.strip query_type in
  let t := str_lower RT trimmed in
  let candidates := filter (type_is RT t) pois in
  trimmed_of query_type trimmed
  /\ t = (if PyStr.is_ascii trimmed then PyStr.ascii_lower trimmed
          else case_lower RT trimmed)
  /\ (forall poi, In poi candidates <->
                  In poi pois /\ str_lower RT (poi_type poi) = t)
  /\ match mapM (poi_distance RT lat lon) candidates with
     | Raise e =>
         nearby_search_in RT pois lat lon query_type radius_km limit = Raise e
     | Ok ds =>
         let kept := kept_of radius_km (poi_hit RT) candidates ds in
         (forall poi d, In (poi, d) (combine candidates ds) ->
                        poi_distance RT lat lon poi = Ok d)
         /\ exists sorted,
           stable_sorted PrimFloat.ltb hit_distance_km
             (fun k => is_nan k = false) kept sorted
           /\ StronglySorted
                (fun a b => (hit_distance_km a <=? hit_distance_km b) = true) sorted
           /\ nearby_search_in RT pois lat lon query_type radius_km limit =
              Ok (mkNearbyResult (mkNearbyQuery lat lon query_type radius_km)
                    (first_entries limit sorted))
     end.

Lemma nearby_search_in_outcome (RT : Runtime) (pois : list Poi)
  (lat lon : float) (query_type : string) (radius_km : float) (limit : option Z) :
  limit_given limit ->
  nearby_search_outcome_in RT pois lat lon query_type radius_km limit.
Proof.
  intros L. unfold nearby_search_outcome_in. cbv zeta.
  split; [apply strip_spec|]. split; [reflexivity|]. split.
  - intros poi. rewrite filter_In, type_is_iff. tauto.
  - unfold nearby_search_in. rewrite nearby_scan_radius, radius_scan_eq.
    destruct (mapM (poi_distance RT lat lon) _) as [ds|e] eqn:M; cbn [bind]; auto.
    split; [now apply mapM_combine|].
    rewrite app_nil_l.
    set (kept := kept_of radius_km (poi_hit RT) _ ds).
    assert (G : Forall (fun h => is_nan (hit_distance_km h) = false) kept).
    { apply (kept_of_not_nan RT). reflexivity. }
    destruct (sort_by_float_stable hit_distance_km G) as [S1 S2].
    exists (sort_by PrimFloat.ltb hit_distance_km kept). repeat split; try apply S1; auto.
    destruct limit as [n|]; auto. cbn in L. cbn [first_entries].
    now rewrite slice_to_nonneg.
Qed.

(** Two arguments with the same normal form give the same scan. *)
Lemma nearby_search_same_type (RT : Runtime) (pois : list Poi) (lat lon : float)
  (a b : string) (radius_km : float) (limit : option Z) :
  str_lower RT (PyStr.strip a) = str_lower RT (PyStr.strip b) ->
  match nearby_search_in RT pois lat lon a radius_km limit,
        nearby_search_in RT pois lat lon b radius_km limit with
  | Ok x, Ok y => nr_results x = nr_results y
  | Raise e, Raise e' => e = e'
  | _, _ => False
  end.
Proof.
  intros H. unfold nearby_search_in. cbv zeta. rewrite H.
  destruct (nearby_scan RT lat lon _ radius_km pois []); cbn [bind];
    reflexivity.
Qed.

(** The distance from the query point to an event. *)
Definition event_distance (RT : Runtime) (lat lon : float) (ev : Event) : res float :=
  _distance_km RT lat lon (ev_lat ev) (ev_lon ev).

(** [entry = dict(ev); entry["distance_km"] = round(d, 3)]. *)
Definition event_hit (RT : Runtime) (ev : Event) (d : float) : EventHit :=
  mkEventHit ev (round3 RT d).

Lemma events_scan_radius (RT : Runtime) (lat lon radius_km : float)
  (events : list Event) (results : list EventHit) :
  events_scan RT lat lon radius_km events results =
  radius_scan (event_distance RT lat lon) radius_km (event_hit RT) events results.
Proof.
  revert results. induction events as [|ev rest IH]; intros results;
    cbn [events_scan radius_scan]; auto.
  unfold event_distance at 1, event_hit at 1.
  destruct (_distance_km RT lat lon (ev_lat ev) (ev_lon ev)) as [d|e]; cbn [bind]; auto.
  destruct (d <=? radius_km); apply IH.
Qed.

(** [events_near_location] over any table of events. *)
Definition events_outcome_in (RT : Runtime) (table : list Event)
  (lat lon radius_km : float) (start_year end_year : option Z) : Prop :=
  let in_window :=
    filter (fun ev => year_in_range start_year end_year (ev_year ev)) table in
  (forall ev, In ev in_window <->
     In ev table /\
     (forall s, start_year = Some s -> (s <= ev_year ev)%Z) /\
     (forall e, end_year = Some e -> (ev_year ev <= e)%Z))
  /\ match mapM (event_distance RT lat lon) in_window with
     | Raise e =>
         events_near_location_in RT table lat lon radius_km start_year end_year
         = Raise e
     | Ok ds =>
         let kept := kept_of radius_km (event_hit RT) in_window ds in
         (forall ev d, In (ev, d) (combine in_window ds) ->
                       event_distance RT lat lon ev = Ok d)
         /\ exists sorted,
           stable_sorted PrimFloat.ltb eh_distance_km
             (fun k => is_nan k = false) kept sorted
           /\ StronglySorted
                (fun a b => (eh_distance_km a <=? eh_distance_km b) = true) sorted
           /\ events_near_location_in RT table lat lon radius_km start_year end_year
              = Ok (mkEventsResult (mkEventsQuery lat lon radius_km) sorted)
     end.

Lemma events_near_location_in_outcome (RT : Runtime) (table : list Event)
  (lat lon radius_km : float) (start_year end_year : option Z) :
  events_outcome_in RT table lat lon radius_km start_year end_year.
Proof.
  unfold events_outcome_in. cbv zeta. split.
  - intros ev. rewrite filter_In, year_in_range_iff. tauto.
  - unfold events_near_location_in.
    rewrite _filter_years_filter, events_scan_radius, radius_scan_eq.
    destruct (mapM (event_distance RT lat lon) _) as [ds|e] eqn:M; cbn [bind]; auto.
    split; [now apply mapM_combine|].
    rewrite app_nil_l.
    set (kept := kept_of radius_km (event_hit RT) _ ds).
    assert (G : Forall (fun h => is_nan (eh_distance_km h) = false) kept).
    { apply (kept_of_not_nan RT). reflexivity. }
    destruct (sort_by_float_stable eh_distance_km G) as [S1 S2].
    exists (sort_by PrimFloat.ltb eh_distance_km kept). repeat split; try apply S1; auto.
Qed.

(** The types of the table are ASCII: they are lowered byte by byte. *)
Lemma POIS_ascii (RT : Runtime) (poi : Poi) :
  In poi POIS -> str_lower RT (poi_type poi) = PyStr.ascii_lower (poi_type poi).
Proof.
  intros H.
  assert (A : forallb (fun p => PyStr.is_ascii (poi_type p)) POIS = true)
    by (vm_compute; reflexivity).
  rewrite forallb_forall in A. apply str_lower_ascii. exact (A poi H).
Qed.

(** The third claim as the specification words it: the POIs returned have
    a type equal to [poi_type] up to case. *)
Definition nearby_types_as_claimed : Prop :=
  forall (RT : Runtime) (lat lon : float) (query_type : string)
         (radius_km : float) (limit : option Z) (r : NearbyResult),
    nearby_search RT lat lon query_type radius_km limit = Ok r ->
    forall h, In h (nr_results r) ->
      str_lower RT (poi_type (hit_poi h)) = str_lower RT query_type.

(** Around the AUB medical centre, the type [" hospital"] with a leading
    space selects the hospitals although no type equals it up to case:
    the code trims the argument first. *)
Lemma nearby_search_trims_type : ~ nearby_types_as_claimed.
Proof.
  intros H.
  destruct (nearby_search FlatRuntime.flat_runtime 33.896 35.478 " hospital" 5.0 None)
    as [r|] eqn:E; [|vm_compute in E; discriminate E].
  specialize (H _ _ _ _ _ _ _ E).
  vm_compute in E. injection E as <-.
  specialize (H _ (or_introl eq_refl)). vm_compute in H. discriminate H.
Qed.

(** What [nearby_search] does for a limit that is null or not negative,
    with what its normalization of the type does on the table. *)
Definition nearby_search_outcome (RT : Runtime) (lat lon : float)
  (query_type : string) (radius_km : float) (limit : option Z) : Prop :=
  nearby_search_outcome_in RT POIS lat lon query_type radius_km limit
  /\ (forall poi, In poi POIS ->
        str_lower RT (poi_type poi) = PyStr.ascii_lower (poi_type poi))
  /\ match nearby_search RT lat lon
             (" HosPital" ++ String (ascii_of_nat 10) "") radius_km limit,
           nearby_search RT lat lon "hospital" radius_km limit with
     | Ok x, Ok y => nr_results x = nr_results y
     | Raise e, Raise e' => e = e'
     | _, _ => False
     end
  /\ map poi_name
       (filter (type_is RT (str_lower RT
                              (PyStr.strip (nbsp ++ "MALL" ++ ideographic_space))))
          POIS)
     = ["Beirut Souks"; "ABC Achrafieh"; "ABC Verdun"; "City Centre Beirut"]
  /\ filter (type_is RT (str_lower RT (PyStr.strip "hosp"))) POIS = [].

(** C3 (amended). For a limit that is null or not negative,
    [nearby_search] keeps exactly the POIs whose lower-cased type equals
    the trimmed, lower-cased [poi_type] (equality, not containment: the
    white space of Unicode is cut at both ends of the argument and
    nothing else; an ASCII string is lowered byte by byte, as the types
    of the table are) and whose distance is at most [radius_km] (the
    boundary included), each copied with its distance rounded to three
    decimals; it sorts them by that rounded distance, ascending, ties in
    table order; it returns the whole list when [limit] is null and the
    first [limit] entries otherwise, with the query echoed as it was
    given. An empty list is a result, not an error. When the distance of
    a candidate raises, the call raises. *)
Theorem nearby_search_spec (RT : Runtime) (lat lon : float) (query_type : string)
  (radius_km : float) (limit : option Z) :
  limit_given limit ->
  nearby_search_outcome RT lat lon query_type radius_km limit.
Proof.
  intros L. split; [now apply nearby_search_in_outcome|].
  split; [apply POIS_ascii|].
  split; [apply nearby_search_same_type; vm_compute; reflexivity|].
  split; vm_compute; reflexivity.
Qed.

Lemma nearby_search_spec_witness :
  nearby_search_outcome FlatRuntime.flat_runtime 33.896 35.478 " Hospital " 5.0
    (Some 10%Z).
Proof.
  apply (@nearby_search_spec FlatRuntime.flat_runtime 33.896 35.478 " Hospital "
           5.0 (Some 10%Z)).
  cbn. lia.
Defined.

(** C5. [events_near_location] applies the inclusive year window first,
    computes the distance of each event left, keeps those at most
    [radius_km] away (the boundary included), each copied with its
    distance rounded to three decimals, and sorts them by that rounded
    distance, ascending, ties in table order. An empty list is a result,
    not an error. When the distance of an event in the window raises, the
    call raises. *)
Theorem events_near_location_spec (RT : Runtime) (lat lon radius_km : float)
  (start_year end_year : option Z) :
  events_outcome_in RT EVENTS lat lon radius_km start_year end_year.
Proof. apply events_near_location_in_outcome. Qed.

(* ================================================================== *)
(** * The route summary *)
(* ================================================================== *)

(** The narrative over the selected events: the regions, the first and
    the last year. *)
Definition summary_text (regions : list string) (earliest latest : Z) : string :=
  "This route intersects historically significant regions including "
  ++ PyStr.join ", " regions ++ ". Events span from "
  ++ PyStr.of_Z earliest ++ " to " ++ PyStr.of_Z latest
  ++ ", covering Phoenician, Hellenistic, Roman, Byzantine, Islamic, "
  ++ "Mamluk, Ottoman, and modern Lebanese periods.".

(** [summary] is the narrative of [selected]: the fixed message when
    nothing is selected; otherwise the text that lists the distinct
    regions in strictly ascending (alphabetical) order and gives the
    least and the greatest year among the selected events. *)
Definition narrative_of (selected : list RouteEntry) (summary : string) : Prop :=
  match selected with
  | [] => summary = "No historical events fall within the specified corridor."
  | _ :: _ =>
      exists regions earliest latest,
        StronglySorted (fun a b => PyStr.ltb a b = true) regions
        /\ (forall s, In s regions <->
                      exists e, In e selected /\ ev_region (re_event e) = s)
        /\ (forall e, In e selected -> (earliest <= entry_year e <= latest)%Z)
        /\ (exists e, In e selected /\ entry_year e = earliest)
        /\ (exists e, In e selected /\ entry_year e = latest)
        /\ summary = summary_text regions earliest latest
  end.

Lemma narrative_spec (selected : list RouteEntry) :
  StronglySorted (fun a b => (entry_year a <= entry_year b)%Z) selected ->
  narrative_of selected (narrative selected).
Proof.
  intros S. destruct selected as [|first rest]; [reflexivity|].
  cbn [narrative_of].
  exists (sorted_regions (first :: rest)), (entry_year first),
         (entry_year (last (first :: rest) first)).
  destruct (sorted_regions_spec (first :: rest)) as [R1 R2].
  split; [exact R1|]. split; [exact R2|].
  split; [now apply sorted_years_bounds|].
  split; [exists first; split; [now left|reflexivity]|].
  split; [|reflexivity].
  exists (last (first :: rest) first). split; [|reflexivity].
  destruct (@exists_last _ (first :: rest)) as (l & z & E); [discriminate|].
  rewrite E, last_last. apply in_or_app. right. now left.
Qed.

(** [route_history_summary] on a path with two vertices or more, over any
    table of events. *)
Definition route_outcome_in (RT : Runtime) (table : list Event)
  (p q : float * float) (rest : list (float * float)) (corridor_km : float) : Prop :=
  let path := p :: q :: rest in
  match mapM (leg_distance RT) (legs path) with
  | Raise e => route_history_summary_in RT table path corridor_km = Raise e
  | Ok ls =>
      match mapM (fun ev => closest_vertex RT ev path) table with
      | Raise e => route_history_summary_in RT table path corridor_km = Raise e
      | Ok cs =>
          let kept := kept_of corridor_km (route_entry RT) table cs in
          (forall ev c, In (ev, c) (combine table cs) ->
             (exists v, In v path /\ vertex_distance RT ev v = Ok c)
             /\ ((forall v d, In v path -> vertex_distance RT ev v = Ok d ->
                              is_nan d = false) ->
                 forall v d, In v path -> vertex_distance RT ev v = Ok d ->
                             (c <=? d) = true))
          /\ exists selected summary,
               stable_sorted Z.ltb entry_year (fun _ => True) kept selected
               /\ StronglySorted
                    (fun a b => (entry_year a <= entry_year b)%Z) selected
               /\ narrative_of selected summary
               /\ route_history_summary_in RT table path corridor_km =
                  Ok [ ("path_length_km",
                        VFloat (round3 RT (fold_left PrimFloat.add ls 0)));
                       ("corridor_km", VFloat corridor_km);
                       ("selected_events", VEvents selected);
                       ("summary", VStr summary) ]
      end
  end.

Lemma route_history_summary_in_outcome (RT : Runtime) (table : list Event)
  (p q : float * float) (rest : list (float * float)) (corridor_km : float) :
  route_outcome_in RT table p q rest corridor_km.
Proof.
  unfold route_outcome_in. cbv zeta. unfold route_history_summary_in.
  assert (L : (Z.of_nat (List.length (p :: q :: rest)) <? 2)%Z = false).
  { apply Z.ltb_ge. cbn [List.length]. lia. }
  rewrite L, route_length_eq.
  destruct (mapM (leg_distance RT) (legs (p :: q :: rest))) as [ls|e];
    cbn [bind]; auto.
  rewrite corridor_scan_radius, radius_scan_eq.
  destruct (mapM (fun ev => closest_vertex RT ev (p :: q :: rest)) table)
    as [cs|e] eqn:M; cbn [bind]; auto.
  split.
  - intros ev c Hin. pose proof (mapM_combine _ _ M _ _ Hin) as C.
    destruct (closest_vertex_spec _ _ _ C) as (_ & B & D). split; assumption.
  - rewrite app_nil_l.
    set (kept := kept_of corridor_km (route_entry RT) table cs).
    change (fun e : RouteEntry => ev_year (re_event e)) with entry_year.
    pose proof (sort_by_year_stable entry_year kept) as S.
    assert (S' : StronglySorted (fun a b => (entry_year a <= entry_year b)%Z)
                   (sort_by Z.ltb entry_year kept)).
    { destruct S as (_ & S & _). eapply StronglySorted_weaken; [|exact S].
      intros a b Hab. unfold key_le in Hab. now apply Z.ltb_ge in Hab. }
    exists (sort_by Z.ltb entry_year kept), (narrative (sort_by Z.ltb entry_year kept)).
    split; [exact S|]. split; [exact S'|]. split; [now apply narrative_spec|].
    reflexivity.
Qed.

(** C1. On a path of two vertices or more, [route_history_summary]
    returns the four keys: the path length, the left-to-right float sum of
    the distances of consecutive vertices rounded to three decimals; the
    corridor; the selected events; the summary. For each event the
    closest-vertex distance is one of its vertex distances and, none being
    NaN, the least; exactly the events whose closest distance is at most
    [corridor_km] are kept, each copied with that distance rounded to
    three decimals, and sorted by year, ascending, ties in table order.
    The summary is the fixed message when nothing is selected and
    otherwise lists the distinct regions in alphabetical order and the
    least and greatest year. When a distance raises, the call raises. *)
Theorem route_history_summary_spec (RT : Runtime)
  (p q : float * float) (rest : list (float * float)) (corridor_km : float) :
  route_outcome_in RT EVENTS p q rest corridor_km.
Proof. apply route_history_summary_in_outcome. Qed.

(* ================================================================== *)
(** * Reasoning about the store *)
(* ================================================================== *)

Module StoreFacts.
Import Store.

(** The weakest precondition of a computation: [Q] is what holds of the
    value and the store when it returns, [E] of the store when it
    raises. *)
Definition wp {A : Type} (m : M A) (Q : A -> store -> Prop)
  (E : exn -> store -> Prop) (s : store) : Prop :=
  match m s with
  | (Ok a, s') => Q a s'
  | (Raise e, s') => E e s'
  end.

Lemma wp_ret {A : Type} (a : A) Q E s : wp (ret a) Q E s = Q a s.
Proof. reflexivity. Qed.

Lemma wp_lift {A : Type} (r : res A) Q E s :
  wp (lift r) Q E s = match r with Ok a => Q a s | Raise e => E e s end.
Proof. reflexivity. Qed.

Lemma wp_bind {A B : Type} (m : M A) (k : A -> M B) Q E s :
  wp (mbind m k) Q E s = wp m (fun a => wp (k a) Q E) E s.
Proof.
  unfold wp, mbind. destruct (m s) as [[a | e] s']; reflexivity.
Qed.

Lemma wp_mono {A : Type} (m : M A) (Q Q' : A -> store -> Prop)
  (E E' : exn -> store -> Prop) s :
  (forall a s', Q a s' -> Q' a s') -> (forall e s', E e s' -> E' e s') ->
  wp m Q E s -> wp m Q' E' s.
Proof.
  unfold wp. intros HQ HE. destruct (m s) as [[a | e] s']; auto.
Qed.

Lemma wp_deref l {Q : dict -> store -> Prop} {E s} :
  wp (deref l) Q E s =
  match nth_error (heap s) l with
  | Some d => Q d s
  | None => E (KeyError "dangling reference") s
  end.
Proof.
  unfold wp, deref. destruct (nth_error (heap s) l); reflexivity.
Qed.

Lemma wp_run {A : Type} (m : M A) Q E s r s' :
  wp m Q E s -> m s = (r, s') ->
  match r with Ok a => Q a s' | Raise e => E e s' end.
Proof. unfold wp. intros H Hm. rewrite Hm in H. exact H. Qed.

(** ** Computations that only read *)

(** [m] leaves the store as it is, and its value satisfies [R]. *)
Definition reads {A : Type} (m : M A) (R : store -> A -> Prop) : Prop :=
  forall s, wp m (fun a s' => s' = s /\ R s a) (fun _ s' => s' = s) s.

Lemma reads_ret {A : Type} (a : A) (R : store -> A -> Prop) :
  (forall s, R s a) -> reads (ret a) R.
Proof. intros H s. rewrite wp_ret. auto. Qed.

Lemma reads_lift {A : Type} (r : res A) (R : store -> A -> Prop) :
  (forall s a, r = Ok a -> R s a) -> reads (lift r) R.
Proof. intros H s. rewrite wp_lift. destruct r; auto. Qed.

Lemma reads_bind {A B : Type} (m : M A) (k : A -> M B)
  (R1 : store -> A -> Prop) (R2 : store -> B -> Prop) :
  reads m R1 -> (forall a, reads (k a) (fun s b => R1 s a -> R2 s b)) ->
  reads (mbind m k) R2.
Proof.
  intros Hm Hk s. rewrite wp_bind.
  generalize (Hm s). unfold wp. destruct (m s) as [[a | e] s1]; [|auto].
  intros [-> Ha]. generalize (Hk a s). unfold wp.
  destruct (k a s) as [[b | e] s2]; [|auto].
  intros [-> Hb]. auto.
Qed.

Lemma reads_weaken {A : Type} (m : M A) (R R' : store -> A -> Prop) :
  reads m R -> (forall s a, R s a -> R' s a) -> reads m R'.
Proof.
  intros Hm H s. eapply wp_mono; [| |apply Hm]; cbv beta.
  - intros a s' [-> Ha]. auto.
  - auto.
Qed.

Lemma reads_deref l :
  reads (deref l) (fun s d => nth_error (heap s) l = Some d).
Proof.
  intros s. rewrite wp_deref. destruct (nth_error (heap s) l); auto.
Qed.

Lemma reads_get_places : reads get_places (fun s t => t = PLACES_ref s).
Proof. intros s. unfold wp, get_places. auto. Qed.

Lemma reads_get_pois : reads get_pois (fun s t => t = POIS_ref s).
Proof. intros s. unfold wp, get_pois. auto. Qed.

Lemma reads_get_events : reads get_events (fun s t => t = EVENTS_ref s).
Proof. intros s. unfold wp, get_events. auto. Qed.

(** A read of a field after a dereference. *)
Lemma reads_field {A : Type} (get : dict -> string -> res A) l k :
  reads (mbind (deref l) (fun d => lift (get d k))) (fun _ _ => True).
Proof.
  eapply reads_bind; [apply reads_deref|].
  intros d. apply reads_lift. auto.
Qed.

Lemma reads_mapM {A B : Type} (f : A -> M B) (l : list A) :
  (forall a, reads (f a) (fun _ _ => True)) ->
  reads (mapM_st f l) (fun _ bs => List.length bs = List.length l).
Proof.
  intros Hf. induction l as [|a l IH]; cbn [mapM_st].
  - apply reads_ret. reflexivity.
  - eapply reads_bind; [apply Hf|]. intros b.
    eapply reads_bind; [apply IH|]. intros bs.
    apply reads_ret. intros s Hl _. cbn [List.length]. congruence.
Qed.

Lemma reads_filterM {A : Type} (p : A -> M bool) (l : list A) :
  (forall a, reads (p a) (fun _ _ => True)) ->
  reads (filterM_st p l) (fun _ out => incl out l).
Proof.
  intros Hp. induction l as [|a l IH]; cbn [filterM_st].
  - apply reads_ret. intros _ x Hx. exact Hx.
  - eapply reads_bind; [apply Hp|]. intros b.
    eapply reads_bind; [apply IH|]. intros out.
    apply reads_ret. intros s Hout _. destruct b.
    + intros x [<- | Hx]; [left; reflexivity | right; auto].
    + intros x Hx. right. auto.
Qed.

(** Using a reading computation inside a writing one. *)
Lemma wp_reads {A B : Type} (m : M A) (k : A -> M B) (R : store -> A -> Prop)
  Q E s :
  reads m R -> (forall e, E e s) -> (forall a, R s a -> wp (k a) Q E s) ->
  wp (mbind m k) Q E s.
Proof.
  intros Hm HE Hk. rewrite wp_bind. generalize (Hm s). unfold wp.
  destruct (m s) as [[a | e] s1].
  - intros [-> Ha]. apply Hk. exact Ha.
  - intros ->. apply HE.
Qed.

(** ** Sorting references *)

Lemma map_fst_combine {A B : Type} (l : list A) (l' : list B) :
  List.length l' = List.length l -> map fst (combine l l') = l.
Proof.
  revert l'. induction l as [|a l IH]; intros [|b l'] H; cbn in *;
    try discriminate; try reflexivity.
  f_equal. apply IH. congruence.
Qed.

Lemma sorted_refs_perm {K : Type} (lt : K -> K -> bool) (refs : list loc)
  (keys : list K) :
  List.length keys = List.length refs ->
  Permutation refs (map fst (sort_by lt snd (combine refs keys))).
Proof.
  intros H. rewrite <- (map_fst_combine refs keys H) at 1.
  apply Permutation_map. apply Permutation_sym. apply sort_by_perm.
Qed.

Lemma reads_sort_refs_num k refs :
  reads (sort_refs_num k refs) (fun _ out => Permutation refs out).
Proof.
  unfold sort_refs_num.
  eapply reads_bind.
  - apply reads_mapM. intros r. apply (reads_field get_num).
  - intros keys. apply reads_ret. intros _ H. apply sorted_refs_perm. exact H.
Qed.

Lemma reads_sort_refs_int k refs :
  reads (sort_refs_int k refs) (fun _ out => Permutation refs out).
Proof.
  unfold sort_refs_int.
  eapply reads_bind.
  - apply reads_mapM. intros r. apply (reads_field get_int).
  - intros keys. apply reads_ret. intros _ H. apply sorted_refs_perm. exact H.
Qed.

(** ** The operations that only read *)

Section ReadingOperations.

Variable RT : Runtime.

(** A place found by [geocode]: an item of the table, with the
    coordinates read from the object it refers to, and that reference
    itself as [meta]. *)
Definition found_in (items : list (string * loc)) (s : store) (r : geocode_ref)
  : Prop :=
  match r with
  | GeoFound name la lo meta =>
      In (name, meta) items
      /\ exists info, nth_error (heap s) meta = Some info
                      /\ get_num info "lat" = Ok la /\ get_num info "lon" = Ok lo
  | GeoNone _ => False
  end.

(** The answer of [geocode]: a place found in the table, or the error. *)
Definition geocode_answer (s : store) (r : geocode_ref) : Prop :=
  match r with
  | GeoFound _ _ _ _ => found_in (PLACES_ref s) s r
  | GeoNone _ => True
  end.

Definition found_or_none (items : list (string * loc)) (s : store)
  (r : option geocode_ref) : Prop :=
  match r with
  | Some found => found_in items s found
  | None => True
  end.

Lemma found_in_cons item items s r :
  found_in items s r -> found_in (item :: items) s r.
Proof.
  destruct r as [name la lo meta | e]; cbn; [|auto].
  intros [H1 H2]. split; [right; exact H1 | exact H2].
Qed.

Lemma reads_geo_found name ref (items : list (string * loc)) :
  reads (mbind (geo_entry name ref) (fun r => ret (Some r)))
    (found_or_none ((name, ref) :: items)).
Proof.
  unfold geo_entry.
  eapply reads_bind; [eapply reads_bind; [apply reads_deref|]|].
  - intros info.
    eapply reads_bind;
      [apply reads_lift with (R := fun _ la => get_num info "lat" = Ok la); auto|].
    intros la.
    eapply reads_bind;
      [apply reads_lift with (R := fun _ lo => get_num info "lon" = Ok lo); auto|].
    intros lo. apply reads_ret
      with (R := fun s r => get_num info "lon" = Ok lo ->
                            get_num info "lat" = Ok la ->
                            nth_error (heap s) ref = Some info ->
                            found_in ((name, ref) :: items) s r).
    intros s Hlo Hla Hinfo. cbn. split; [left; reflexivity|].
    exists info. auto.
  - intros r. apply reads_ret. intros s H. exact H.
Qed.

Lemma reads_geocode_exact q items :
  reads (geocode_exact RT q items) (found_or_none items).
Proof.
  induction items as [|[name ref] rest IH]; cbn [geocode_exact].
  - apply reads_ret. cbn. auto.
  - destruct (String.eqb (str_lower RT name) q).
    + apply reads_geo_found.
    + eapply reads_weaken; [apply IH|].
      intros s [found|]; cbn; auto. apply found_in_cons.
Qed.

Lemma reads_geocode_partial q items :
  reads (geocode_partial RT q items) (found_or_none items).
Proof.
  induction items as [|[name ref] rest IH]; cbn [geocode_partial].
  - apply reads_ret. cbn. auto.
  - destruct (PyStr.contains q (str_lower RT name)).
    + apply reads_geo_found.
    + eapply reads_bind; [apply reads_deref|]. intros info.
      eapply reads_bind; [apply reads_lift with (R := fun _ _ => True); auto|].
      intros city.
      destruct (PyStr.contains q (str_lower RT city)).
      * eapply reads_weaken; [apply (reads_geo_found name ref rest)|]. auto.
      * eapply reads_weaken; [apply IH|].
        intros s [found|]; cbn; auto. intros H _ _. now apply found_in_cons.
Qed.

Lemma reads_geocode query : reads (geocode RT query) geocode_answer.
Proof.
  unfold geocode.
  eapply reads_bind; [apply reads_get_places|]. intros places.
  eapply reads_bind; [apply reads_geocode_exact|]. intros r1.
  destruct r1 as [found|].
  - apply reads_ret. intros s H ->. destruct found; cbn in *; tauto.
  - eapply reads_bind; [apply reads_geocode_partial|]. intros r2.
    destruct r2 as [found|].
    + apply reads_ret. intros s H _ ->. destruct found; cbn in *; tauto.
    + apply reads_ret. cbn. auto.
Qed.

Lemma reads_reverse_scan lat lon items best best_d :
  reads (reverse_scan RT lat lon items best best_d) (fun _ _ => True).
Proof.
  revert best best_d.
  induction items as [|[name ref] rest IH]; intros best best_d;
    cbn [reverse_scan].
  - apply reads_ret. auto.
  - eapply reads_bind; [apply reads_deref|]. intros info.
    eapply reads_bind; [apply reads_lift with (R := fun _ _ => True); auto|].
    intros la.
    eapply reads_bind; [apply reads_lift with (R := fun _ _ => True); auto|].
    intros lo.
    eapply reads_bind; [apply reads_lift with (R := fun _ _ => True); auto|].
    intros d.
    destruct (d <? best_d); (eapply reads_weaken; [apply IH | auto]).
Qed.

Lemma reads_reverse_geocode lat lon :
  reads (reverse_geocode RT lat lon) (fun _ _ => True).
Proof.
  unfold reverse_geocode.
  eapply reads_bind; [apply reads_get_places|]. intros places.
  eapply reads_bind; [apply reads_reverse_scan|]. intros [[[name ref]|] best_d].
  - eapply reads_bind; [apply reads_deref|]. intros info.
    eapply reads_bind; [apply reads_lift with (R := fun _ _ => True); auto|].
    intros city.
    eapply reads_bind; [apply reads_lift with (R := fun _ _ => True); auto|].
    intros ty.
    eapply reads_bind; [apply reads_lift with (R := fun _ _ => True); auto|].
    intros la.
    eapply reads_bind; [apply reads_lift with (R := fun _ _ => True); auto|].
    intros lo. apply reads_ret. auto.
  - apply reads_ret. auto.
Qed.

Lemma reads_filter_years events start_year end_year :
  reads (_filter_years events start_year end_year) (fun _ out => incl out events).
Proof.
  induction events as [|ref rest IH]; cbn [_filter_years].
  - apply reads_ret. intros _ x Hx. exact Hx.
  - eapply reads_bind; [apply reads_deref|]. intros ev.
    eapply reads_bind; [apply reads_lift with (R := fun _ _ => True); auto|].
    intros y.
    destruct (match start_year with Some s => (y <? s)%Z | None => false end).
    { eapply reads_weaken; [apply IH|]. intros s out H _ _ x Hx. right. auto. }
    destruct (match end_year with Some e => (y >? e)%Z | None => false end).
    { eapply reads_weaken; [apply IH|]. intros s out H _ _ x Hx. right. auto. }
    eapply reads_bind; [apply IH|]. intros out.
    apply reads_ret. intros s H _ _ x [<- | Hx]; [left; reflexivity | right; auto].
Qed.

(** The timeline is made of stored events themselves. *)
Lemma reads_region_timeline region_name start_year end_year limit :
  reads (region_timeline RT region_name start_year end_year limit)
    (fun s r => incl (snd r) (EVENTS_ref s)).
Proof.
  unfold region_timeline.
  eapply reads_bind; [apply reads_get_events|]. intros table.
  eapply reads_bind.
  { apply reads_filterM. intros ref.
    eapply reads_bind; [apply reads_deref|]. intros ev.
    eapply reads_bind; [apply reads_lift with (R := fun _ _ => True); auto|].
    intros region. apply reads_ret. auto. }
  intros m1.
  eapply reads_bind; [apply reads_filter_years|]. intros m2.
  eapply reads_bind; [apply reads_sort_refs_int|]. intros m3.
  apply reads_ret. intros s H3 H2 H1 ->. cbn [snd].
  assert (Hin : incl m3 (EVENTS_ref s)).
  { intros x Hx. apply H1, H2. eapply Permutation_in; [|exact Hx].
    apply Permutation_sym. exact H3. }
  destruct limit as [n|]; [|exact Hin].
  intros x Hx. apply Hin. revert Hx. unfold slice_to.
  destruct (n <? 0)%Z; apply In_firstn.
Qed.

Lemma reads_narrative nearby : reads (narrative nearby) (fun _ _ => True).
Proof.
  unfold narrative. destruct nearby as [|first rest].
  - apply reads_ret. auto.
  - eapply reads_bind.
    { unfold read_strs. apply reads_mapM. intros r. apply (reads_field get_str). }
    intros regions.
    eapply reads_bind; [apply reads_deref|]. intros ev1.
    eapply reads_bind; [apply reads_lift with (R := fun _ _ => True); auto|].
    intros earliest.
    eapply reads_bind; [apply reads_deref|]. intros ev2.
    eapply reads_bind; [apply reads_lift with (R := fun _ _ => True); auto|].
    intros latest. apply reads_ret. auto.
Qed.

Lemma reads_closest_vertex ev path :
  reads (closest_vertex RT ev path) (fun _ _ => True).
Proof.
  assert (Hmin : forall rest cur, reads (min_scan RT ev rest cur) (fun _ _ => True)).
  { induction rest as [|[lat lon] rest IH]; intros cur; cbn [min_scan].
    - apply reads_ret. auto.
    - eapply reads_bind; [apply reads_lift with (R := fun _ _ => True); auto|].
      intros la.
      eapply reads_bind; [apply reads_lift with (R := fun _ _ => True); auto|].
      intros lo.
      eapply reads_bind; [apply reads_lift with (R := fun _ _ => True); auto|].
      intros d. eapply reads_weaken; [apply IH | auto]. }
  unfold closest_vertex. destruct path as [|[lat lon] rest].
  - apply reads_lift. auto.
  - eapply reads_bind; [apply reads_lift with (R := fun _ _ => True); auto|].
    intros la.
    eapply reads_bind; [apply reads_lift with (R := fun _ _ => True); auto|].
    intros lo.
    eapply reads_bind; [apply reads_lift with (R := fun _ _ => True); auto|].
    intros d. eapply reads_weaken; [apply Hmin | auto].
Qed.

End ReadingOperations.

(** ** The operations that annotate copies *)

(** [s] has the tables of [s0] and its objects, unchanged, followed by
    new ones. *)
Definition extends (s0 s : store) : Prop :=
  PLACES_ref s = PLACES_ref s0 /\ POIS_ref s = POIS_ref s0 /\
  EVENTS_ref s = EVENTS_ref s0 /\ exists fresh, heap s = heap s0 ++ fresh.

(** No reference of [refs] dangles. *)
Definition valid_refs (s : store) (refs : list loc) : Prop :=
  forall r, In r refs -> r < List.length (heap s).

(** The references of the three tables point to objects. *)
Definition valid (s : store) : Prop :=
  valid_refs s (map snd (PLACES_ref s)) /\ valid_refs s (POIS_ref s)
  /\ valid_refs s (EVENTS_ref s).

(** [h] is an object made since [s0]: the items of a stored object of
    [table], with the key [k] set. *)
Definition annotated (k : string) (table : list loc) (s0 s : store) (h : loc)
  : Prop :=
  List.length (heap s0) <= h /\
  exists ref d x,
    In ref table /\ nth_error (heap s0) ref = Some d /\
    nth_error (heap s) h = Some (dict_set d k (FNum x)).

(** The store after [entry = dict(x); entry[k] = v]. *)
Definition annotate (s : store) (d : dict) (k : string) (v : field) : store :=
  mkStore (heap s ++ [dict_set d k v]) (PLACES_ref s) (POIS_ref s) (EVENTS_ref s).

Lemma extends_refl s : extends s s.
Proof.
  repeat split. exists []. symmetry. apply app_nil_r.
Qed.

Lemma extends_lookup s0 s l d :
  extends s0 s -> nth_error (heap s0) l = Some d -> nth_error (heap s) l = Some d.
Proof.
  intros (_ & _ & _ & fresh & ->) H. rewrite nth_error_app1; [exact H|].
  apply nth_error_Some. congruence.
Qed.

Lemma extends_length s0 s :
  extends s0 s -> List.length (heap s0) <= List.length (heap s).
Proof.
  intros (_ & _ & _ & fresh & ->). rewrite length_app. lia.
Qed.

Lemma extends_annotate s0 s d k v : extends s0 s -> extends s0 (annotate s d k v).
Proof.
  intros (H1 & H2 & H3 & fresh & H4). unfold annotate, extends. cbn.
  repeat split; auto. exists (fresh ++ [dict_set d k v]).
  rewrite H4. symmetry. apply app_assoc.
Qed.

Lemma update_last (h : list dict) d d' :
  update (h ++ [d]) (List.length h) d' = h ++ [d'].
Proof.
  induction h as [|x h IH]; cbn; [reflexivity|]. rewrite IH. reflexivity.
Qed.

Lemma nth_error_last {A : Type} (h : list A) a :
  nth_error (h ++ [a]) (List.length h) = Some a.
Proof.
  rewrite nth_error_app2 by lia. rewrite Nat.sub_diag. reflexivity.
Qed.

(** A copy and the write into it, as one step. *)
Lemma annotate_eq {B : Type} ref k v (K : loc -> M B) s d :
  nth_error (heap s) ref = Some d ->
  mbind (copy_dict ref) (fun entry => mbind (set_item entry k v) (fun _ => K entry)) s
  = K (List.length (heap s)) (annotate s d k v).
Proof.
  intros Hd. unfold mbind at 1. unfold copy_dict. rewrite Hd.
  unfold mbind, set_item. cbn [heap PLACES_ref POIS_ref EVENTS_ref].
  rewrite nth_error_last, update_last. reflexivity.
Qed.

Lemma wp_annotate {B : Type} ref k v (K : loc -> M B) Q E s d :
  nth_error (heap s) ref = Some d ->
  wp (K (List.length (heap s))) Q E (annotate s d k v) ->
  wp (mbind (copy_dict ref)
        (fun entry => mbind (set_item entry k v) (fun _ => K entry))) Q E s.
Proof.
  intros Hd H. unfold wp. rewrite (annotate_eq _ _ _ _ _ Hd). exact H.
Qed.

(** What the scans keep true: the store extends the first one, and the
    references collected so far are annotated copies. *)
Definition scan_inv (k : string) (table : list loc) (s0 : store)
  (hits : list loc) (s : store) : Prop :=
  extends s0 s /\
  (valid_refs s0 table -> forall h, In h hits -> annotated k table s0 s h).

Lemma scan_inv_nil k table s0 : scan_inv k table s0 [] s0.
Proof. split; [apply extends_refl|]. intros _ h []. Qed.

Lemma scan_inv_incl k table s0 hits out s :
  incl out hits -> scan_inv k table s0 hits s -> scan_inv k table s0 out s.
Proof. intros Hi [He Ha]. split; [exact He|]. intros Hv h Hh. auto. Qed.

Lemma scan_inv_annotate k table s0 hits s ref d x :
  In ref table -> nth_error (heap s) ref = Some d ->
  scan_inv k table s0 hits s ->
  scan_inv k table s0 (hits ++ [List.length (heap s)]) (annotate s d k (FNum x)).
Proof.
  intros Hin Hd [He Ha]. split; [apply extends_annotate; exact He|].
  intros Hv h Hh. apply in_app_or in Hh. destruct Hh as [Hh | [<- | []]].
  - destruct (Ha Hv h Hh) as (Hfresh & r & d' & x' & Hr & Hd' & Hh').
    split; [exact Hfresh|]. exists r, d', x'. repeat split; auto.
    unfold annotate. cbn [heap]. rewrite nth_error_app1; [exact Hh'|].
    apply nth_error_Some. congruence.
  - split; [apply extends_length; exact He|].
    exists ref, d, x. repeat split; auto.
    + pose proof (Hv ref Hin) as Hlt.
      destruct He as (_ & _ & _ & fresh & Hheap). rewrite Hheap in Hd.
      rewrite nth_error_app1 in Hd; auto.
    + unfold annotate. cbn [heap]. apply nth_error_last.
Qed.

Section AnnotatingOperations.

Variable RT : Runtime.

Lemma nearby_scan_wp lat lon t radius_km table s0 pois :
  incl pois table ->
  forall hits s,
    scan_inv "distance_km" table s0 hits s ->
    wp (nearby_scan RT lat lon t radius_km pois hits)
      (scan_inv "distance_km" table s0) (fun _ => extends s0) s.
Proof.
  induction pois as [|ref rest IH]; intros Hi hits s Hinv; cbn [nearby_scan].
  - rewrite wp_ret. exact Hinv.
  - assert (Hrest : incl rest table) by (intros x Hx; apply Hi; right; exact Hx).
    assert (Href : In ref table) by (apply Hi; left; reflexivity).
    pose proof (proj1 Hinv) as He.
    eapply wp_reads; [apply reads_deref | intros _; exact He |]. intros poi Hd.
    rewrite wp_bind, wp_lift. destruct (get_str poi "type") as [ty|]; [|exact He].
    destruct (negb (String.eqb (str_lower RT ty) t)); [apply IH; auto|].
    rewrite wp_bind, wp_lift. destruct (get_num poi "lat") as [la|]; [|exact He].
    rewrite wp_bind, wp_lift. destruct (get_num poi "lon") as [lo|]; [|exact He].
    rewrite wp_bind, wp_lift.
    destruct (_haversine_km RT lat lon la lo) as [d|]; [|exact He].
    destruct (d <=? radius_km); [|apply IH; auto].
    eapply wp_annotate; [exact Hd|]. apply IH; [exact Hrest|].
    apply scan_inv_annotate with (ref := ref); auto.
Qed.

Lemma events_scan_wp lat lon radius_km table s0 events :
  incl events table ->
  forall results s,
    scan_inv "distance_km" table s0 results s ->
    wp (events_scan RT lat lon radius_km events results)
      (scan_inv "distance_km" table s0) (fun _ => extends s0) s.
Proof.
  induction events as [|ref rest IH]; intros Hi results s Hinv; cbn [events_scan].
  - rewrite wp_ret. exact Hinv.
  - assert (Hrest : incl rest table) by (intros x Hx; apply Hi; right; exact Hx).
    assert (Href : In ref table) by (apply Hi; left; reflexivity).
    pose proof (proj1 Hinv) as He.
    eapply wp_reads; [apply reads_deref | intros _; exact He |]. intros ev Hd.
    rewrite wp_bind, wp_lift. destruct (get_num ev "lat") as [la|]; [|exact He].
    rewrite wp_bind, wp_lift. destruct (get_num ev "lon") as [lo|]; [|exact He].
    rewrite wp_bind, wp_lift.
    destruct (_distance_km RT lat lon la lo) as [d|]; [|exact He].
    destruct (d <=? radius_km); [|apply IH; auto].
    eapply wp_annotate; [exact Hd|]. apply IH; [exact Hrest|].
    apply scan_inv_annotate with (ref := ref); auto.
Qed.

Lemma corridor_scan_wp path corridor_km table s0 events :
  incl events table ->
  forall nearby s,
    scan_inv "distance_to_route_km" table s0 nearby s ->
    wp (corridor_scan RT path corridor_km events nearby)
      (scan_inv "distance_to_route_km" table s0) (fun _ => extends s0) s.
Proof.
  induction events as [|ref rest IH]; intros Hi nearby s Hinv;
    cbn [corridor_scan].
  - rewrite wp_ret. exact Hinv.
  - assert (Hrest : incl rest table) by (intros x Hx; apply Hi; right; exact Hx).
    assert (Href : In ref table) by (apply Hi; left; reflexivity).
    pose proof (proj1 Hinv) as He.
    eapply wp_reads; [apply reads_deref | intros _; exact He |]. intros ev Hd.
    eapply wp_reads; [apply reads_closest_vertex | intros _; exact He |]. intros closest _.
    destruct (closest <=? corridor_km); [|apply IH; auto].
    eapply wp_annotate; [exact Hd|]. apply IH; [exact Hrest|].
    apply scan_inv_annotate with (ref := ref); auto.
Qed.

Lemma incl_slice_to {A : Type} (l : list A) n : incl (slice_to l n) l.
Proof.
  intros x. unfold slice_to. destruct (n <? 0)%Z; apply In_firstn.
Qed.

Lemma nearby_search_wp lat lon poi_type radius_km limit s :
  wp (nearby_search RT lat lon poi_type radius_km limit)
    (fun r s' => scan_inv "distance_km" (POIS_ref s) s (snd r) s')
    (fun _ => extends s) s.
Proof.
  unfold nearby_search.
  eapply wp_reads; [apply reads_get_pois | intros _; apply extends_refl |].
  intros pois ->. rewrite wp_bind.
  eapply wp_mono;
    [| | apply (@nearby_scan_wp lat lon _ radius_km (POIS_ref s) s (POIS_ref s))].
  - intros hits s1 Hinv. cbv beta.
    eapply wp_reads; [apply reads_sort_refs_num | intros _; exact (proj1 Hinv) |].
    intros sorted Hperm. rewrite wp_ret. cbn [snd].
    eapply scan_inv_incl; [|exact Hinv].
    intros x Hx. apply (Permutation_in x (Permutation_sym Hperm)).
    destruct limit as [n|]; [exact (incl_slice_to _ _ _ Hx) | exact Hx].
  - auto.
  - intros x Hx. exact Hx.
  - apply scan_inv_nil.
Qed.

Lemma events_near_location_wp lat lon radius_km start_year end_year s :
  wp (events_near_location RT lat lon radius_km start_year end_year)
    (fun r s' => scan_inv "distance_km" (EVENTS_ref s) s (snd r) s')
    (fun _ => extends s) s.
Proof.
  unfold events_near_location.
  eapply wp_reads; [apply reads_get_events | intros _; apply extends_refl |].
  intros table ->.
  eapply wp_reads; [apply reads_filter_years | intros _; apply extends_refl |].
  intros events Hincl. rewrite wp_bind.
  eapply wp_mono;
    [| | apply (@events_scan_wp lat lon radius_km (EVENTS_ref s) s events)].
  - intros results s1 Hinv. cbv beta.
    eapply wp_reads; [apply reads_sort_refs_num | intros _; exact (proj1 Hinv) |].
    intros sorted Hperm. rewrite wp_ret. cbn [snd].
    eapply scan_inv_incl; [|exact Hinv].
    intros x Hx. exact (Permutation_in x (Permutation_sym Hperm) Hx).
  - auto.
  - exact Hincl.
  - apply scan_inv_nil.
Qed.

Lemma route_history_summary_wp path corridor_km s :
  wp (route_history_summary RT path corridor_km)
    (fun r s' =>
       scan_inv "distance_to_route_km" (EVENTS_ref s) s (selected_events r) s')
    (fun _ => extends s) s.
Proof.
  unfold route_history_summary.
  destruct (Z.of_nat (List.length path) <? 2)%Z.
  { rewrite wp_ret. cbn. apply scan_inv_nil. }
  rewrite wp_bind, wp_lift.
  destruct (route_length RT path 0) as [total|]; [|apply extends_refl].
  eapply wp_reads; [apply reads_get_events | intros _; apply extends_refl |].
  intros table ->. rewrite wp_bind.
  eapply wp_mono;
    [| | apply (@corridor_scan_wp path corridor_km (EVENTS_ref s) s (EVENTS_ref s))].
  - intros nearby s1 Hinv. cbv beta.
    eapply wp_reads; [apply reads_sort_refs_int | intros _; exact (proj1 Hinv) |].
    intros sorted Hperm.
    eapply wp_reads; [apply reads_narrative | intros _; exact (proj1 Hinv) |].
    intros summary _. rewrite wp_ret. cbn.
    eapply scan_inv_incl; [|exact Hinv].
    intros x Hx. exact (Permutation_in x (Permutation_sym Hperm) Hx).
  - auto.
  - intros x Hx. exact Hx.
  - apply scan_inv_nil.
Qed.

End AnnotatingOperations.

End StoreFacts.

(* ================================================================== *)
(** * No operation writes into the stored tables *)
(* ================================================================== *)

(** A new key goes after the items of the dictionary. *)
Lemma dict_set_fresh (d : Store.dict) (k : string) (v : Store.field) :
  Store.lookup d k = None -> Store.dict_set d k v = d ++ [(k, v)].
Proof.
  induction d as [|[k' v'] d IH]; cbn; [reflexivity|].
  destruct (String.eqb k' k); [discriminate|].
  intros H. rewrite (IH H). reflexivity.
Qed.

(** What a call leaves of the store [s] it started from, [s'] being the
    store after it and [r] its result: the three tables hold the same
    references, every object of [s] has the items it had, and each record
    returned with a derived field is an object made by the call, with the
    items of a stored entry of the table and the derived field. *)
Definition tables_untouched (c : Store.call) (s : Store.store)
  (r : res Store.answer) (s' : Store.store) : Prop :=
  Store.PLACES_ref s' = Store.PLACES_ref s
  /\ Store.POIS_ref s' = Store.POIS_ref s
  /\ Store.EVENTS_ref s' = Store.EVENTS_ref s
  /\ (forall l d, nth_error (Store.heap s) l = Some d ->
                  nth_error (Store.heap s') l = Some d)
  /\ (StoreFacts.valid s ->
      forall a h, r = Ok a -> In h (Store.derived_records a) ->
        List.length (Store.heap s) <= h
        /\ exists ref d x,
             In ref (Store.source_table c s)
             /\ nth_error (Store.heap s) ref = Some d
             /\ nth_error (Store.heap s') h
                = Some (Store.dict_set d (Store.derived_field c) (Store.FNum x))
             /\ (Store.lookup d (Store.derived_field c) = None ->
                 nth_error (Store.heap s') h
                 = Some (d ++ [(Store.derived_field c, Store.FNum x)]))).

Lemma tables_untouched_reads {A : Type} (m : Store.M A)
  (R : Store.store -> A -> Prop) (f : A -> Store.answer) (c : Store.call)
  s r s' :
  StoreFacts.reads m R ->
  (forall a, Store.derived_records (f a) = []) ->
  Store.mbind m (fun a => Store.ret (f a)) s = (r, s') ->
  tables_untouched c s r s'.
Proof.
  intros Hm Hf Hrun. unfold Store.mbind in Hrun.
  generalize (Hm s). unfold StoreFacts.wp.
  destruct (m s) as [[a | e] s1]; cbn in Hrun; inversion Hrun; subst r s'.
  - intros [-> _]. split; [|split; [|split; [|split]]]; auto.
    intros _ a' x Ha Hx. inversion Ha; subst a'. rewrite Hf in Hx. destruct Hx.
  - intros ->. split; [|split; [|split; [|split]]]; auto.
    intros _ a' x Ha. discriminate Ha.
Qed.

Lemma tables_untouched_scan {A : Type} (m : Store.M A) (f : A -> Store.answer)
  (c : Store.call) s r s' :
  StoreFacts.wp m
    (fun a s1 => StoreFacts.scan_inv (Store.derived_field c)
                   (Store.source_table c s) s (Store.derived_records (f a)) s1)
    (fun _ => StoreFacts.extends s) s ->
  (StoreFacts.valid s -> StoreFacts.valid_refs s (Store.source_table c s)) ->
  Store.mbind m (fun a => Store.ret (f a)) s = (r, s') ->
  tables_untouched c s r s'.
Proof.
  intros Hm Hv Hrun. unfold Store.mbind in Hrun. unfold StoreFacts.wp in Hm.
  destruct (m s) as [[a | e] s1]; cbn in Hrun; inversion Hrun; subst r s'.
  - destruct Hm as [He Ha]. pose proof He as (H1 & H2 & H3 & _).
    split; [|split; [|split; [|split]]]; auto.
    + intros l d. apply StoreFacts.extends_lookup. exact He.
    + intros Hvalid a' h Ha' Hh. inversion Ha'; subst a'.
      destruct (Ha (Hv Hvalid) h Hh) as (Hfresh & ref & d & x & Hr & Hd & Hc).
      split; [exact Hfresh|]. exists ref, d, x.
      split; [exact Hr|]. split; [exact Hd|]. split; [exact Hc|].
      intros Hk. rewrite Hc. f_equal. apply dict_set_fresh. exact Hk.
  - pose proof Hm as (H1 & H2 & H3 & _).
    split; [|split; [|split; [|split]]]; auto.
    + intros l d. apply StoreFacts.extends_lookup. exact Hm.
    + intros _ a' h Ha'. discriminate Ha'.
Qed.

(** C9. Whatever the call of [geocode], [reverse_geocode], [nearby_search],
    [events_near_location], [region_timeline] or [route_history_summary],
    whatever the store it starts from and whether it returns or raises:
    the tables PLACES, POIS and EVENTS hold the same references after it,
    every object that was in the store has the items it had, and, when
    the references of the tables point to objects, each record returned
    with a derived field ([distance_km], [distance_to_route_km]) is an
    object made by the call, holding the items of a stored entry of the
    table with the derived field set, after them when the entry does
    not have that key. *)
Theorem no_operation_mutates (RT : Runtime) (c : Store.call)
  (s s' : Store.store) (r : res Store.answer) :
  Store.run RT c s = (r, s') -> tables_untouched c s r s'.
Proof.
  destruct c; cbn [Store.run]; intros Hrun.
  - eapply tables_untouched_reads with (f := Store.AGeocode);
      [apply StoreFacts.reads_geocode | reflexivity | exact Hrun].
  - eapply tables_untouched_reads with (f := Store.AReverseGeocode);
      [apply StoreFacts.reads_reverse_geocode | reflexivity | exact Hrun].
  - eapply tables_untouched_scan
      with (f := fun r => Store.ANearbySearch (fst r) (snd r)); [| |exact Hrun].
    + apply StoreFacts.nearby_search_wp.
    + intros (_ & H & _). exact H.
  - eapply tables_untouched_scan
      with (f := fun r => Store.AEventsNearLocation (fst r) (snd r));
      [| |exact Hrun].
    + apply StoreFacts.events_near_location_wp.
    + intros (_ & _ & H). exact H.
  - eapply tables_untouched_reads
      with (f := fun r => Store.ARegionTimeline (fst r) (snd r));
      [apply StoreFacts.reads_region_timeline | reflexivity | exact Hrun].
  - eapply tables_untouched_scan with (f := Store.ARouteHistorySummary);
      [| |exact Hrun].
    + apply StoreFacts.route_history_summary_wp.
    + intros (_ & _ & H). exact H.
Qed.

(** The tables as loaded are a store whose references point to objects. *)
Lemma loaded_valid : StoreFacts.valid Store.loaded.
Proof.
  unfold StoreFacts.valid, StoreFacts.valid_refs, Store.loaded.
  cbn [Store.heap Store.PLACES_ref Store.POIS_ref Store.EVENTS_ref].
  rewrite !length_app, !length_map.
  split; [|split]; intros r Hr.
  - apply in_map_iff in Hr. destruct Hr as ([name l] & <- & Hin).
    apply in_combine_r in Hin. apply in_seq in Hin. cbn [snd]. lia.
  - apply in_seq in Hr. lia.
  - apply in_seq in Hr. lia.
Qed.

(** A search for hospitals around a point of Beirut, on the loaded
    tables. *)
Definition hospitals_near_beirut : Store.call :=
  Store.CallNearbySearch 33.9 35.5 "hospital" 5.0 (Some 10%Z).

Lemma no_operation_mutates_witness :
  StoreFacts.valid Store.loaded
  /\ tables_untouched hospitals_near_beirut Store.loaded
       (fst (Store.run flat_runtime hospitals_near_beirut Store.loaded))
       (snd (Store.run flat_runtime hospitals_near_beirut Store.loaded)).
Proof.
  split; [exact loaded_valid|].
  apply (no_operation_mutates flat_runtime hospitals_near_beirut Store.loaded).
  apply surjective_pairing.
Defined.

(* ================================================================== *)
(** * Year windows and type filters at their edges *)
(* ================================================================== *)

Lemma slice_to_nil {A : Type} (n : Z) : slice_to (@nil A) n = [].
Proof.
  unfold slice_to. destruct (n <? 0)%Z; apply firstn_nil.
Qed.

Lemma filter_none {A : Type} (p : A -> bool) (l : list A) :
  (forall x, In x l -> p x = false) -> filter p l = [].
Proof.
  induction l as [|x l IH]; intros H; cbn; [reflexivity|].
  rewrite (H x (or_introl eq_refl)). apply IH. intros y Hy. apply H. now right.
Qed.

Lemma year_in_range_empty (s e y : Z) :
  (e < s)%Z -> year_in_range (Some s) (Some e) y = false.
Proof.
  intros H. unfold year_in_range.
  destruct (Z.leb_spec s y), (Z.leb_spec y e); cbn; auto. lia.
Qed.

(** With neither bound given, [_filter_years] returns the events it was
    given, all of them and in their order. *)
Theorem filter_years_unbounded (events : list Event) :
  _filter_years events None None = events.
Proof.
  induction events as [|ev rest IH]; cbn; [reflexivity|]. now rewrite IH.
Qed.

(** Filtering twice by the same window is filtering once, and two windows
    can be applied in either order. *)
Theorem filter_years_commute (events : list Event) (s1 e1 s2 e2 : option Z) :
  _filter_years (_filter_years events s1 e1) s1 e1 = _filter_years events s1 e1
  /\ _filter_years (_filter_years events s1 e1) s2 e2
     = _filter_years (_filter_years events s2 e2) s1 e1.
Proof.
  rewrite !_filter_years_filter, !filter_filter. split.
  - apply filter_ext. intros ev. now destruct (year_in_range s1 e1 (ev_year ev)).
  - apply filter_ext. intros ev. apply andb_comm.
Qed.

(** A window whose end is before its start keeps no event. *)
Theorem filter_years_empty_window (events : list Event) (s e : Z) :
  (e < s)%Z -> _filter_years events (Some s) (Some e) = [].
Proof.
  intros H. rewrite _filter_years_filter. apply filter_none.
  intros ev _. now apply year_in_range_empty.
Qed.

Lemma filter_years_empty_window_witness :
  _filter_years EVENTS (Some 1500%Z) (Some 1000%Z) = [].
Proof.
  apply (@filter_years_empty_window EVENTS 1500 1000). lia.
Defined.

(** With a window whose end is before its start, [events_near_location]
    returns the query and no event, whatever the coordinates and the
    radius: no distance is computed, so nothing is raised, not even at
    coordinates that are infinite or not numbers. *)
Theorem events_near_location_empty_window (RT : Runtime)
  (lat lon radius_km : float) (s e : Z) :
  (e < s)%Z ->
  events_near_location RT lat lon radius_km (Some s) (Some e)
  = Ok (mkEventsResult (mkEventsQuery lat lon radius_km) []).
Proof.
  intros H. unfold events_near_location, events_near_location_in.
  rewrite (@filter_years_empty_window EVENTS s e H). reflexivity.
Qed.

Lemma events_near_location_empty_window_witness :
  events_near_location flat_runtime infinity nan 20 (Some 1500%Z) (Some 1000%Z)
  = Ok (mkEventsResult (mkEventsQuery infinity nan 20) []).
Proof.
  apply (@events_near_location_empty_window flat_runtime infinity nan 20
           1500 1000).
  lia.
Defined.

(** With such a window [region_timeline] returns an empty timeline, for
    every region name and every limit. *)
Theorem region_timeline_empty_window (RT : Runtime) (region_name : string)
  (s e : Z) (limit : option Z) :
  (e < s)%Z ->
  region_timeline RT region_name (Some s) (Some e) limit
  = mkTimelineResult region_name [].
Proof.
  intros H. unfold region_timeline, region_timeline_in. cbv zeta.
  rewrite (@filter_years_empty_window _ s e H). cbn [sort_by fold_left].
  destruct limit as [n|]; [|reflexivity]. now rewrite slice_to_nil.
Qed.

Lemma region_timeline_empty_window_witness :
  region_timeline flat_runtime "Beirut" (Some 1500%Z) (Some 1000%Z) (Some 25%Z)
  = mkTimelineResult "Beirut" [].
Proof.
  apply (@region_timeline_empty_window flat_runtime "Beirut" 1500 1000
           (Some 25%Z)).
  lia.
Defined.

(** [nearby_search] tests the type before it computes a distance: for a
    type that no POI of the table has, it returns the query and no
    result, whatever the coordinates, the radius and the limit, and
    raises nothing. *)
Theorem nearby_search_unknown_type (RT : Runtime) (pois : list Poi)
  (lat lon : float) (query_type : string) (radius_km : float) (limit : option Z) :
  (forall poi, In poi pois ->
     str_lower RT (poi_type poi) <> str_lower RT (PyStr.strip query_type)) ->
  nearby_search_in RT pois lat lon query_type radius_km limit
  = Ok (mkNearbyResult (mkNearbyQuery lat lon query_type radius_km) []).
Proof.
  intros H. unfold nearby_search_in. cbv zeta. rewrite nearby_scan_radius.
  rewrite filter_none.
  - cbn [radius_scan bind sort_by fold_left].
    destruct limit as [n|]; [|reflexivity]. now rewrite slice_to_nil.
  - intros poi Hin. destruct (type_is RT _ poi) eqn:E; [|reflexivity].
    apply type_is_iff in E. now apply H in Hin.
Qed.

Lemma nearby_search_unknown_type_witness :
  nearby_search flat_runtime infinity nan "zoo" 5 (Some 10%Z)
  = Ok (mkNearbyResult (mkNearbyQuery infinity nan "zoo" 5) []).
Proof.
  apply (@nearby_search_unknown_type flat_runtime POIS infinity nan "zoo" 5
           (Some 10%Z)).
  intros poi Hin E.
  assert (A : forallb (fun p => negb (String.eqb
                                         (str_lower flat_runtime (poi_type p)) "zoo"))
                POIS = true) by (vm_compute; reflexivity).
  rewrite forallb_forall in A. specialize (A poi Hin).
  change (str_lower flat_runtime (PyStr.strip "zoo")) with "zoo" in E.
  rewrite E, String.eqb_refl in A. discriminate A.
Defined.

(* ================================================================== *)
(** * Coordinates that are infinite or not numbers *)
(* ================================================================== *)

Lemma sub_infinity_r (x y : float) :
  is_finite x = true -> is_infinity y = true -> is_infinity (x - y) = true.
Proof.
  intros F I. rewrite is_finite_spec in F. rewrite is_infinity_spec in I.
  rewrite is_infinity_spec, sub_spec. unfold SF64sub, SFsub.
  destruct (Prim2SF x), (Prim2SF y); cbn in *; try discriminate; reflexivity.
Qed.

Lemma radians_infinity (x : float) :
  is_infinity x = true -> is_infinity (radians x) = true.
Proof.
  intros I. rewrite is_infinity_spec in I.
  unfold radians. rewrite is_infinity_spec, mul_spec.
  replace (Prim2SF degToRad) with (S754_finite false 5030569068109113 (-58))
    by (vm_compute; reflexivity).
  unfold SF64mul, SFmul.
  destruct (Prim2SF x); cbn in *; try discriminate; reflexivity.
Qed.

Lemma half_infinity (x : float) :
  is_infinity x = true -> is_infinity (x / 2) = true.
Proof.
  intros I. rewrite is_infinity_spec in I.
  rewrite is_infinity_spec, div_spec.
  replace (Prim2SF 2) with (S754_finite false 4503599627370496 (-51))
    by (vm_compute; reflexivity).
  unfold SF64div, SFdiv.
  destruct (Prim2SF x); cbn in *; try discriminate; reflexivity.
Qed.

Section InfiniteCoordinates.

Variable RT : Runtime.

Lemma half_sin_sq_infinity (z : float) :
  is_infinity z = true ->
  half_sin_sq RT z = Raise (ValueError "math domain error").
Proof.
  intros H. unfold half_sin_sq.
  rewrite math_sin_inf; [reflexivity|].
  apply half_infinity, radians_infinity, H.
Qed.

Lemma half_sin_sq_raise (z : float) (e : exn) :
  is_nan z = false -> half_sin_sq RT z = Raise e ->
  e = ValueError "math domain error".
Proof.
  intros N H. unfold half_sin_sq in H.
  set (u := radians z / 2) in *.
  assert (Nu : is_nan u = false).
  { unfold u, radians. apply div_nonzero_not_nan; try reflexivity.
    apply mul_nonzero_not_nan; auto. }
  destruct (is_infinity u) eqn:I.
  - rewrite (@math_sin_inf RT u I) in H. cbn in H. congruence.
  - destruct (@math_sin_finite RT u (@not_nan_not_inf_finite _ Nu I)) as [E U].
    rewrite E in H. cbn [bind] in H.
    destruct (@float_pow2_unit RT _ U) as (p' & E' & _). congruence.
Qed.

Lemma _haversine_km_infinite (lat1 lon1 lat2 lon2 : float) :
  is_finite lat2 = true -> is_finite lon2 = true ->
  is_infinity lat1 = true \/ (is_finite lat1 = true /\ is_infinity lon1 = true) ->
  _haversine_km RT lat1 lon1 lat2 lon2 = Raise (ValueError "math domain error").
Proof.
  intros F2 G2 [I | [F1 I]]; rewrite _haversine_km_eq.
  - rewrite half_sin_sq_infinity; [reflexivity|]. now apply sub_infinity_r.
  - destruct (half_sin_sq RT (lat2 - lat1)) as [p1|e] eqn:P1; cbn [bind].
    + destruct (@math_cos_finite RT _ (@radians_finite _ F1)) as [E1 _].
      destruct (@math_cos_finite RT _ (@radians_finite _ F2)) as [E2 _].
      rewrite E1, E2. cbn [bind].
      rewrite half_sin_sq_infinity; [reflexivity|]. now apply sub_infinity_r.
    + f_equal. apply (@half_sin_sq_raise (lat2 - lat1)); auto.
      apply sub_finite_not_nan; auto.
Qed.

End InfiniteCoordinates.

(** An infinite latitude or longitude of the first point, the second
    being finite, makes [_haversine_km] raise [ValueError]: [math.sin]
    is called on an infinite half-angle. The coordinates are not
    validated before. *)
Theorem haversine_infinite_raises (RT : Runtime) (lat1 lon1 lat2 lon2 : float) :
  is_finite lat2 = true -> is_finite lon2 = true ->
  is_infinity lat1 = true \/ (is_finite lat1 = true /\ is_infinity lon1 = true) ->
  _haversine_km RT lat1 lon1 lat2 lon2 = Raise (ValueError "math domain error")
  /\ _distance_km RT lat1 lon1 lat2 lon2 = Raise (ValueError "math domain error").
Proof.
  intros F G H. split.
  - now apply _haversine_km_infinite.
  - change (_distance_km RT lat1 lon1 lat2 lon2)
      with (_haversine_km RT lat1 lon1 lat2 lon2).
    now apply _haversine_km_infinite.
Qed.

Lemma haversine_infinite_raises_witness :
  _haversine_km flat_runtime 33.9 neg_infinity 34.006 36.203
    = Raise (ValueError "math domain error")
  /\ _distance_km flat_runtime 33.9 neg_infinity 34.006 36.203
    = Raise (ValueError "math domain error").
Proof.
  apply (@haversine_infinite_raises flat_runtime 33.9 neg_infinity 34.006 36.203);
    [reflexivity | reflexivity | right; split; reflexivity].
Defined.

(** [reverse_geocode] at an infinite latitude, or at a finite latitude
    and an infinite longitude, raises the [ValueError] of the first
    distance it computes: no result and no error value is returned. *)
Theorem reverse_geocode_infinite_raises (RT : Runtime) (lat lon : float) :
  is_infinity lat = true \/ (is_finite lat = true /\ is_infinity lon = true) ->
  reverse_geocode RT lat lon = Raise (ValueError "math domain error").
Proof.
  intros H. unfold reverse_geocode, reverse_geocode_in, PLACES.
  cbn [reverse_scan place_lat place_lon].
  rewrite _haversine_km_infinite; auto.
Qed.

Lemma reverse_geocode_infinite_raises_witness :
  reverse_geocode flat_runtime infinity 35.5 = Raise (ValueError "math domain error").
Proof.
  apply (@reverse_geocode_infinite_raises flat_runtime infinity 35.5).
  left. reflexivity.
Defined.

(* ================================================================== *)
(** * Radius, corridor and query point *)
(* ================================================================== *)

Lemma kept_of_monotone {A H : Type} (r1 r2 : float) (mk : A -> float -> H)
  (l : list A) (ds : list float) :
  (r1 <=? r2) = true -> incl (kept_of r1 mk l ds) (kept_of r2 mk l ds).
Proof.
  intros R h. unfold kept_of. rewrite !in_map_iff.
  intros (ad & E & Hin). exists ad. split; [exact E|].
  apply filter_In in Hin. destruct Hin as [Hin W]. apply filter_In.
  split; [exact Hin|]. unfold within in *.
  now apply leb_trans with (y := r1).
Qed.

Lemma sort_by_incl {A K : Type} (lt : K -> K -> bool) (key : A -> K)
  (l1 l2 : list A) :
  incl l1 l2 -> incl (sort_by lt key l1) (sort_by lt key l2).
Proof.
  intros H x Hx.
  apply (Permutation_in x (Permutation_sym (sort_by_perm lt key l2))).
  apply H. exact (Permutation_in x (sort_by_perm lt key l1) Hx).
Qed.

(** A larger radius keeps every event a smaller one keeps: when
    [events_near_location] returns at the radius [r1], it returns at
    every radius [r2] that [r1] is at most, with all the events of the
    first result among those of the second; and when it raises at [r1]
    it raises the same at [r2], the distances being computed before the
    radius is looked at. *)
Theorem events_near_location_radius_monotone (RT : Runtime)
  (lat lon r1 r2 : float) (start_year end_year : option Z) :
  (r1 <=? r2) = true ->
  match events_near_location RT lat lon r1 start_year end_year with
  | Ok res1 =>
      exists res2,
        events_near_location RT lat lon r2 start_year end_year = Ok res2
        /\ incl (er_events res1) (er_events res2)
  | Raise e =>
      events_near_location RT lat lon r2 start_year end_year = Raise e
  end.
Proof.
  intros R. unfold events_near_location, events_near_location_in. cbv zeta.
  rewrite !events_scan_radius, !radius_scan_eq.
  destruct (mapM (event_distance RT lat lon) _) as [ds|e]; cbn [bind];
    [|reflexivity].
  eexists. split; [reflexivity|]. cbn [er_events app].
  apply sort_by_incl. now apply kept_of_monotone.
Qed.

Lemma events_near_location_radius_monotone_witness :
  match events_near_location flat_runtime 33.9 35.5 5 None None with
  | Ok res1 =>
      exists res2,
        events_near_location flat_runtime 33.9 35.5 20 None None = Ok res2
        /\ incl (er_events res1) (er_events res2)
  | Raise e => events_near_location flat_runtime 33.9 35.5 20 None None = Raise e
  end.
Proof.
  apply (@events_near_location_radius_monotone flat_runtime 33.9 35.5 5 20
           None None).
  reflexivity.
Defined.

(** So does [nearby_search] when no limit cuts the list: every result
    at the radius [r1] is a result at a radius [r2] that [r1] is at
    most, and an exception does not depend on the radius. *)
Theorem nearby_search_radius_monotone (RT : Runtime) (pois : list Poi)
  (lat lon : float) (query_type : string) (r1 r2 : float) :
  (r1 <=? r2) = true ->
  match nearby_search_in RT pois lat lon query_type r1 None with
  | Ok res1 =>
      exists res2,
        nearby_search_in RT pois lat lon query_type r2 None = Ok res2
        /\ incl (nr_results res1) (nr_results res2)
  | Raise e => nearby_search_in RT pois lat lon query_type r2 None = Raise e
  end.
Proof.
  intros R. unfold nearby_search_in. cbv zeta.
  rewrite !nearby_scan_radius, !radius_scan_eq.
  destruct (mapM (poi_distance RT lat lon) _) as [ds|e]; cbn [bind];
    [|reflexivity].
  eexists. split; [reflexivity|]. cbn [nr_results app].
  apply sort_by_incl. now apply kept_of_monotone.
Qed.

Lemma nearby_search_radius_monotone_witness :
  match nearby_search_in flat_runtime POIS 33.9 35.5 "mall" 2 None with
  | Ok res1 =>
      exists res2,
        nearby_search_in flat_runtime POIS 33.9 35.5 "mall" 5 None = Ok res2
        /\ incl (nr_results res1) (nr_results res2)
  | Raise e => nearby_search_in flat_runtime POIS 33.9 35.5 "mall" 5 None = Raise e
  end.
Proof.
  apply (@nearby_search_radius_monotone flat_runtime POIS 33.9 35.5 "mall" 2 5).
  reflexivity.
Defined.

(** The same for the corridor of [route_history_summary]: a wider
    corridor selects every event a narrower one selects, the length of
    the path is the same, and an exception does not depend on the
    corridor. *)
Theorem route_corridor_monotone (RT : Runtime) (table : list Event)
  (path : list (float * float)) (c1 c2 : float) :
  (c1 <=? c2) = true ->
  match route_history_summary_in RT table path c1 with
  | Ok d1 =>
      exists d2,
        route_history_summary_in RT table path c2 = Ok d2
        /\ dict_get d1 "path_length_km" = dict_get d2 "path_length_km"
        /\ forall sel1, dict_get d1 "selected_events" = Some (VEvents sel1) ->
             exists sel2, dict_get d2 "selected_events" = Some (VEvents sel2)
                          /\ incl sel1 sel2
  | Raise e => route_history_summary_in RT table path c2 = Raise e
  end.
Proof.
  intros R. unfold route_history_summary_in.
  destruct (Z.of_nat (List.length path) <? 2)%Z.
  { eexists. split; [reflexivity|]. split; [reflexivity|].
    intros sel1 E. exists sel1. split; [exact E|]. intros x Hx. exact Hx. }
  destruct (route_length RT path 0) as [total|e]; cbn [bind]; [|reflexivity].
  rewrite !corridor_scan_radius, !radius_scan_eq.
  destruct (mapM (fun ev => closest_vertex RT ev path) table) as [cs|e];
    cbn [bind]; [|reflexivity].
  eexists. split; [reflexivity|]. split; [reflexivity|].
  intros sel1 E. cbn in E. injection E as <-.
  eexists. split; [reflexivity|]. cbn [app].
  apply sort_by_incl. now apply kept_of_monotone.
Qed.

Lemma route_corridor_monotone_witness :
  match route_history_summary flat_runtime [(33.9, 35.5); (34.0, 36.2)] 10 with
  | Ok d1 =>
      exists d2,
        route_history_summary flat_runtime [(33.9, 35.5); (34.0, 36.2)] 40 = Ok d2
        /\ dict_get d1 "path_length_km" = dict_get d2 "path_length_km"
        /\ forall sel1, dict_get d1 "selected_events" = Some (VEvents sel1) ->
             exists sel2, dict_get d2 "selected_events" = Some (VEvents sel2)
                          /\ incl sel1 sel2
  | Raise e =>
      route_history_summary flat_runtime [(33.9, 35.5); (34.0, 36.2)] 40 = Raise e
  end.
Proof.
  apply (@route_corridor_monotone flat_runtime EVENTS
           [(33.9, 35.5); (34.0, 36.2)] 10 40).
  reflexivity.
Defined.

(** ** A query point that is not a number *)

Lemma leb_nan_l (r : float) : (nan <=? r) = false.
Proof. rewrite leb_spec. reflexivity. Qed.

Lemma POIS_finite : Forall (fun poi => is_finite (poi_lat poi) = true) POIS.
Proof. unfold POIS. repeat constructor. Qed.

Lemma EVENTS_finite : Forall (fun ev => is_finite (ev_lat ev) = true) EVENTS.
Proof. unfold EVENTS. repeat constructor. Qed.

Lemma nearby_scan_nan (RT : Runtime) (t : string) (radius_km : float)
  (pois : list Poi) (hits : list PoiHit) :
  Forall (fun poi => is_finite (poi_lat poi) = true) pois ->
  nearby_scan RT nan nan t radius_km pois hits = Ok hits.
Proof.
  induction 1 as [|poi rest F _ IH]; cbn [nearby_scan]; [reflexivity|].
  destruct (negb _); [exact IH|].
  rewrite (@_haversine_km_nan RT _ (poi_lon poi) F). cbn [bind].
  rewrite leb_nan_l. exact IH.
Qed.

Lemma events_scan_nan (RT : Runtime) (radius_km : float)
  (events : list Event) (results : list EventHit) :
  Forall (fun ev => is_finite (ev_lat ev) = true) events ->
  events_scan RT nan nan radius_km events results = Ok results.
Proof.
  induction 1 as [|ev rest F _ IH]; cbn [events_scan]; [reflexivity|].
  change (_distance_km RT nan nan (ev_lat ev) (ev_lon ev))
    with (_haversine_km RT nan nan (ev_lat ev) (ev_lon ev)).
  rewrite (@_haversine_km_nan RT _ (ev_lon ev) F). cbn [bind].
  rewrite leb_nan_l. exact IH.
Qed.

Lemma Forall_filter {A : Type} (P : A -> Prop) (p : A -> bool) (l : list A) :
  Forall P l -> Forall P (filter p l).
Proof.
  rewrite !Forall_forall. intros H x Hx. apply filter_In in Hx. now apply H.
Qed.

(** At the query point (NaN, NaN) every distance is NaN and no test
    [d <= radius] succeeds: [nearby_search] and [events_near_location]
    return an empty list, whatever the type, the radius, the limit and
    the year window, and nothing is raised. *)
Theorem radius_searches_at_nan (RT : Runtime) (query_type : string)
  (radius_km : float) (limit : option Z) (start_year end_year : option Z) :
  nearby_search RT nan nan query_type radius_km limit
  = Ok (mkNearbyResult (mkNearbyQuery nan nan query_type radius_km) [])
  /\ events_near_location RT nan nan radius_km start_year end_year
     = Ok (mkEventsResult (mkEventsQuery nan nan radius_km) []).
Proof.
  split.
  - unfold nearby_search, nearby_search_in. cbv zeta.
    rewrite (nearby_scan_nan RT _ radius_km [] POIS_finite). cbn [bind sort_by fold_left].
    destruct limit as [n|]; [|reflexivity]. now rewrite slice_to_nil.
  - unfold events_near_location, events_near_location_in. cbv zeta.
    rewrite events_scan_nan; [reflexivity|].
    rewrite _filter_years_filter. apply Forall_filter. exact EVENTS_finite.
Qed.

(* ================================================================== *)
(** * Blank queries and listed places *)
(* ================================================================== *)

(** A query that is empty once trimmed names no place, and yet
    [geocode] answers it with the first place of the table: no name is
    the empty string, and the empty string is contained in every name. *)
Theorem geocode_blank_query (RT : Runtime) (query : string) :
  PyStr.strip query = "" ->
  exists item rest, PLACES = item :: rest /\ geocode RT query = geo_found item.
Proof.
  intros H. eexists. eexists. split; [reflexivity|].
  unfold geocode, geocode_in. cbv zeta. rewrite H.
  change (str_lower RT "") with "".
  replace (find (exact_match RT "") PLACES) with (@None (string * Place))
    by (vm_compute; reflexivity).
  reflexivity.
Qed.

Lemma geocode_blank_query_witness :
  exists item rest,
    PLACES = item :: rest
    /\ geocode flat_runtime ("   " ++ nbsp ++ ideographic_space) = geo_found item.
Proof.
  apply (@geocode_blank_query flat_runtime ("   " ++ nbsp ++ ideographic_space)).
  reflexivity.
Defined.

Lemma zero_between (d : float) :
  (d <=? 0) = true -> (0 <=? d) = true -> (d =? 0) = true.
Proof.
  rewrite !leb_spec, eqb_spec. change (Prim2SF 0) with (S754_zero false).
  unfold SFleb, SFeqb.
  destruct (Prim2SF d) as [s|s| |s m e]; try destruct s; cbn;
    try discriminate; auto.
Qed.

(** At the coordinates of a place of the table, [reverse_geocode] does
    not return the error value, and the location it returns, when no
    distance raises, is a place of the table whose distance before
    rounding compares equal to zero. *)
Theorem reverse_geocode_at_listed_place (RT : Runtime) (name : string)
  (info : Place) (r : ReverseResult) :
  In (name, info) PLACES ->
  reverse_geocode RT (place_lat info) (place_lon info) = Ok r ->
  exists found place d,
    In (found, place) PLACES
    /\ _haversine_km RT (place_lat info) (place_lon info)
         (place_lat place) (place_lon place) = Ok d
    /\ (d =? 0) = true
    /\ r = RevMatch (mkNearest found (place_city place) (place_type place)
                       (round3 RT d) (place_lat place) (place_lon place)).
Proof.
  intros Hin Hr.
  pose proof PLACES_finite as F.
  assert (Fi : is_finite (place_lat info) = true /\ is_finite (place_lon info) = true).
  { unfold finite_places in F. rewrite Forall_forall in F. exact (F _ Hin). }
  destruct Fi as [Fa Fo].
  destruct (@reverse_geocode_in_finite RT _ _ Fa Fo PLACES F)
    as [(e & item & H1 & _) | [[E _] | (pre & found & place & post & d & E & D & H1 & Hmin & _)]].
  - unfold reverse_geocode in Hr. rewrite H1 in Hr. discriminate Hr.
  - discriminate E.
  - unfold reverse_geocode in Hr. rewrite H1 in Hr. injection Hr as <-.
    exists found, place, d. split.
    { rewrite E. apply in_or_app. right. left. reflexivity. }
    split; [exact D|]. split; [|reflexivity].
    apply zero_between.
    + apply (Hmin (name, info) 0 Hin). unfold place_distance. cbn [snd].
      now apply _haversine_km_self.
    + assert (Hp : In (found, place) PLACES).
      { rewrite E. apply in_or_app. right. left. reflexivity. }
      exact (proj2 (@place_distance_finite RT _ _ Fa Fo PLACES _ d F Hp D)).
Qed.

Lemma reverse_geocode_at_listed_place_witness :
  exists found place d,
    In (found, place) PLACES
    /\ _haversine_km flat_runtime 34.006 36.203 (place_lat place) (place_lon place)
       = Ok d
    /\ (d =? 0) = true
    /\ RevMatch (mkNearest "AUB" "Beirut" "university" 0 33.901 35.480)
       = RevMatch (mkNearest found (place_city place) (place_type place)
                     (round3 flat_runtime d) (place_lat place) (place_lon place)).
Proof.
  apply (@reverse_geocode_at_listed_place flat_runtime "Baalbek"
           (mkPlace 34.006 36.203 "Baalbek" "city")).
  - right. right. left. reflexivity.
  - vm_compute. reflexivity.
Defined.

(* ================================================================== *)
(** * The two embeddings agree *)
(* ================================================================== *)

(** The operations over the store and the operations over values are
    two embeddings of the same functions. On a store whose tables refer
    to the dictionaries of the value-level tables they return the same
    results, object for object, and raise the same exceptions. *)

(** [refs] refer, in the heap of [s], to the dictionaries of the
    elements of [l], in order. *)
Definition holds {A : Type} (enc : A -> Store.dict) (s : Store.store)
  (refs : list Store.loc) (l : list A) : Prop :=
  Forall2 (fun ref a => nth_error (Store.heap s) ref = Some (enc a)) refs l.

(** The dictionaries of the annotated records. *)
Definition poi_hit_dict (h : PoiHit) : Store.dict :=
  Store.poi_dict (hit_poi h) ++ [("distance_km", Store.FNum (hit_distance_km h))].

Definition event_hit_dict (h : EventHit) : Store.dict :=
  Store.event_dict (eh_event h) ++ [("distance_km", Store.FNum (eh_distance_km h))].

Definition route_entry_dict (e : RouteEntry) : Store.dict :=
  Store.event_dict (re_event e)
  ++ [("distance_to_route_km", Store.FNum (re_distance_to_route_km e))].

(** The computation [m], run from [s], does what the value-level result
    [pure] says: it raises the same exception, or returns a value that
    [R] relates to the value of [pure] in the store it leaves. *)
Definition refines {A B : Type} (m : Store.M A) (s : Store.store) (pure : res B)
  (R : A -> Store.store -> B -> Prop) : Prop :=
  match pure with
  | Ok b => exists a s', m s = (Ok a, s') /\ R a s' b
  | Raise e => exists s', m s = (Raise e, s')
  end.

Lemma refines_wp {A B : Type} (m : Store.M A) (s : Store.store) (pure : res B)
  (R : A -> Store.store -> B -> Prop) :
  StoreFacts.wp m (fun a s' => exists b, pure = Ok b /\ R a s' b)
    (fun e _ => pure = Raise e) s ->
  refines m s pure R.
Proof.
  unfold StoreFacts.wp, refines. destruct (m s) as [[a | e] s'].
  - intros (b & -> & H). eauto.
  - intros ->. eauto.
Qed.

Lemma wp_known {A B : Type} (m : Store.M A) (k : A -> Store.M B) Q E s a :
  m s = (Ok a, s) -> StoreFacts.wp (k a) Q E s ->
  StoreFacts.wp (Store.mbind m k) Q E s.
Proof.
  intros Hm H. rewrite StoreFacts.wp_bind. unfold StoreFacts.wp at 1.
  rewrite Hm. exact H.
Qed.

Lemma wp_deref_known {B : Type} (ref : Store.loc) (k : Store.dict -> Store.M B)
  Q E s d :
  nth_error (Store.heap s) ref = Some d -> StoreFacts.wp (k d) Q E s ->
  StoreFacts.wp (Store.mbind (Store.deref ref) k) Q E s.
Proof.
  intros Hd. apply wp_known. unfold Store.deref. rewrite Hd. reflexivity.
Qed.

Lemma wp_lift_known {A B : Type} (r : res A) (k : A -> Store.M B) Q E s a :
  r = Ok a -> StoreFacts.wp (k a) Q E s ->
  StoreFacts.wp (Store.mbind (Store.lift r) k) Q E s.
Proof. intros ->. apply wp_known. reflexivity. Qed.

Lemma bind_deref_eq {B : Type} (ref : Store.loc) (k : Store.dict -> Store.M B)
  s d :
  nth_error (Store.heap s) ref = Some d ->
  Store.mbind (Store.deref ref) k s = k d s.
Proof. intros H. unfold Store.mbind, Store.deref. now rewrite H. Qed.

Lemma bind_lift_eq {A B : Type} (a : A) (k : A -> Store.M B) s :
  Store.mbind (Store.lift (Ok a)) k s = k a s.
Proof. reflexivity. Qed.

Lemma bind_eq {A B : Type} (m : Store.M A) (k : A -> Store.M B) s a s1 :
  m s = (Ok a, s1) -> Store.mbind m k s = k a s1.
Proof. intros H. unfold Store.mbind. now rewrite H. Qed.

Lemma holds_extends {A : Type} (enc : A -> Store.dict) s0 s refs (l : list A) :
  StoreFacts.extends s0 s -> holds enc s0 refs l -> holds enc s refs l.
Proof.
  intros He H. induction H; constructor; auto.
  eapply StoreFacts.extends_lookup; eauto.
Qed.

Lemma holds_snoc {A : Type} (enc : A -> Store.dict) s refs (l : list A) a d k v :
  holds enc s refs l -> enc a = Store.dict_set d k v ->
  holds enc (StoreFacts.annotate s d k v)
    (refs ++ [List.length (Store.heap s)]) (l ++ [a]).
Proof.
  intros H E. apply Forall2_app.
  - apply (holds_extends (s0 := s)); [|exact H].
    apply StoreFacts.extends_annotate, StoreFacts.extends_refl.
  - constructor; [|constructor]. unfold StoreFacts.annotate. cbn [Store.heap].
    rewrite StoreFacts.nth_error_last. congruence.
Qed.

Lemma holds_length {A : Type} (enc : A -> Store.dict) s refs (l : list A) :
  holds enc s refs l -> List.length refs = List.length l.
Proof. apply Forall2_length. Qed.

Lemma Forall2_firstn {A B : Type} (R : A -> B -> Prop) (n : nat) l1 l2 :
  Forall2 R l1 l2 -> Forall2 R (firstn n l1) (firstn n l2).
Proof.
  intros H. revert n. induction H; intros [|n]; cbn; constructor; auto.
Qed.

Lemma Forall2_slice_to {A B : Type} (R : A -> B -> Prop) (n : Z) l1 l2 :
  Forall2 R l1 l2 -> Forall2 R (slice_to l1 n) (slice_to l2 n).
Proof.
  intros H. unfold slice_to. rewrite (Forall2_length H).
  destruct (n <? 0)%Z; now apply Forall2_firstn.
Qed.

(** Sorting references on keys read from their objects moves them as
    sorting the values on their keys moves the values. *)
Section PairedSort.

Variables (A B K : Type).
Variable lt : K -> K -> bool.
Variable key : B -> K.
Variable R : A -> B -> Prop.

Definition paired (ak : A * K) (b : B) : Prop := R (fst ak) b /\ snd ak = key b.

Lemma insert_by_paired ak b acc1 acc2 :
  paired ak b -> Forall2 paired acc1 acc2 ->
  Forall2 paired (insert_by lt snd ak acc1) (insert_by lt key b acc2).
Proof.
  intros Hp H. induction H as [|ak' b' acc1 acc2 Hp' H IH]; cbn [insert_by].
  - constructor; [exact Hp | constructor].
  - rewrite (proj2 Hp), (proj2 Hp'). destruct (lt (key b) (key b')).
    + constructor; [exact Hp|]. constructor; assumption.
    + constructor; assumption.
Qed.

Lemma fold_insert_paired l1 l2 acc1 acc2 :
  Forall2 paired l1 l2 -> Forall2 paired acc1 acc2 ->
  Forall2 paired
    (fold_left (fun acc x => insert_by lt snd x acc) l1 acc1)
    (fold_left (fun acc x => insert_by lt key x acc) l2 acc2).
Proof.
  intros H. revert acc1 acc2. induction H as [|ak b l1 l2 Hp H IH];
    intros acc1 acc2 Hacc; cbn [fold_left]; [exact Hacc|].
  apply IH. now apply insert_by_paired.
Qed.

Lemma combine_paired (refs : list A) (l : list B) :
  Forall2 R refs l -> Forall2 paired (combine refs (map key l)) l.
Proof.
  induction 1; cbn; constructor; auto. split; auto.
Qed.

Lemma sort_paired (refs : list A) (l : list B) :
  Forall2 R refs l ->
  Forall2 R (map fst (sort_by lt snd (combine refs (map key l))))
    (sort_by lt key l).
Proof.
  intros H. unfold sort_by.
  assert (P : Forall2 paired
                (fold_left (fun acc x => insert_by lt snd x acc)
                   (combine refs (map key l)) [])
                (fold_left (fun acc x => insert_by lt key x acc) l [])).
  { apply fold_insert_paired; [now apply combine_paired | constructor]. }
  induction P as [|ak b l1 l2 Hp _ IH]; cbn [map]; constructor; auto.
  exact (proj1 Hp).
Qed.

End PairedSort.

(** The keys read from the objects are the keys of the values. *)
Lemma mapM_st_keys {A K : Type} (enc : A -> Store.dict) (key : A -> K)
  (get : Store.dict -> string -> res K) (k : string) s refs (l : list A) :
  holds enc s refs l -> (forall a, get (enc a) k = Ok (key a)) ->
  Store.mapM_st
    (fun r => Store.mbind (Store.deref r) (fun d => Store.lift (get d k))) refs s
  = (Ok (map key l), s).
Proof.
  intros H G. induction H as [|ref a refs l Href _ IH]; cbn [Store.mapM_st map].
  - reflexivity.
  - assert (Hf : Store.mbind (Store.deref ref)
                   (fun d => Store.lift (get d k)) s = (Ok (key a), s)).
    { unfold Store.mbind, Store.deref. rewrite Href. unfold Store.lift.
      now rewrite G. }
    unfold Store.mbind at 1. rewrite Hf.
    unfold Store.mbind at 1. rewrite IH. reflexivity.
Qed.

Lemma sort_refs_num_eq {A : Type} (enc : A -> Store.dict) (key : A -> float)
  (k : string) s refs (l : list A) :
  holds enc s refs l -> (forall a, Store.get_num (enc a) k = Ok (key a)) ->
  exists sorted,
    Store.sort_refs_num k refs s = (Ok sorted, s)
    /\ holds enc s sorted (sort_by PrimFloat.ltb key l).
Proof.
  intros H G. eexists. split.
  - unfold Store.sort_refs_num. unfold Store.mbind at 1.
    rewrite (@mapM_st_keys _ _ enc key Store.get_num k s refs l H G). reflexivity.
  - apply sort_paired. exact H.
Qed.

Lemma sort_refs_int_eq {A : Type} (enc : A -> Store.dict) (key : A -> Z)
  (k : string) s refs (l : list A) :
  holds enc s refs l -> (forall a, Store.get_int (enc a) k = Ok (key a)) ->
  exists sorted,
    Store.sort_refs_int k refs s = (Ok sorted, s)
    /\ holds enc s sorted (sort_by Z.ltb key l).
Proof.
  intros H G. eexists. split.
  - unfold Store.sort_refs_int. unfold Store.mbind at 1.
    rewrite (@mapM_st_keys _ _ enc key Store.get_int k s refs l H G). reflexivity.
  - apply sort_paired. exact H.
Qed.

Section Refinement.

Variable RT : Runtime.

Lemma nearby_scan_refines lat lon t radius_km s0 refs pois :
  holds Store.poi_dict s0 refs pois ->
  forall hrefs hits s,
    StoreFacts.extends s0 s -> holds poi_hit_dict s hrefs hits ->
    StoreFacts.wp (Store.nearby_scan RT lat lon t radius_km refs hrefs)
      (fun out s' =>
         exists hits', nearby_scan RT lat lon t radius_km pois hits = Ok hits'
                       /\ holds poi_hit_dict s' out hits')
      (fun e _ => nearby_scan RT lat lon t radius_km pois hits = Raise e) s.
Proof.
  induction 1 as [|ref poi refs pois Href _ IH]; intros hrefs hits s He Hh;
    cbn [Store.nearby_scan nearby_scan].
  - rewrite StoreFacts.wp_ret. eauto.
  - pose proof (StoreFacts.extends_lookup _ He Href) as Hd.
    eapply wp_deref_known; [exact Hd|].
    eapply wp_lift_known; [reflexivity|]. cbv beta.
    destruct (negb (String.eqb (str_lower RT (poi_type poi)) t)); [now apply IH|].
    eapply wp_lift_known; [reflexivity|].
    eapply wp_lift_known; [reflexivity|].
    rewrite StoreFacts.wp_bind, StoreFacts.wp_lift.
    destruct (_haversine_km RT lat lon (poi_lat poi) (poi_lon poi)) as [d|e];
      cbn [bind]; [|reflexivity].
    destruct (d <=? radius_km); [|now apply IH].
    eapply StoreFacts.wp_annotate; [exact Hd|]. apply IH.
    + now apply StoreFacts.extends_annotate.
    + apply holds_snoc; [exact Hh | reflexivity].
Qed.

(** On a store whose table of POIs refers to the dictionaries of
    [pois], [nearby_search] run from the store does what
    [nearby_search] on values does: it raises the same exception, or
    returns the same query and references to objects that are, one for
    one and in the same order, the POIs of the value-level results with
    [distance_km] appended. *)
Theorem nearby_search_refines (pois : list Poi) (s : Store.store)
  (lat lon : float) (query_type : string) (radius_km : float) (limit : option Z) :
  holds Store.poi_dict s (Store.POIS_ref s) pois ->
  refines (Store.nearby_search RT lat lon query_type radius_km limit) s
    (nearby_search_in RT pois lat lon query_type radius_km limit)
    (fun a s' res => fst a = nr_query res
                     /\ holds poi_hit_dict s' (snd a) (nr_results res)).
Proof.
  intros H. apply refines_wp. unfold Store.nearby_search, nearby_search_in.
  cbv zeta. eapply wp_known; [reflexivity|].
  rewrite StoreFacts.wp_bind.
  eapply StoreFacts.wp_mono;
    [| |apply (nearby_scan_refines lat lon _ radius_km H (hrefs := []) (hits := []));
        [apply StoreFacts.extends_refl | constructor]].
  - intros out s1 (hits' & -> & Hout). cbv beta. cbn [bind].
    destruct (@sort_refs_num_eq _ poi_hit_dict hit_distance_km "distance_km"
                _ _ _ Hout) as (sorted & Es & Hs); [reflexivity|].
    eapply wp_known; [exact Es|]. rewrite StoreFacts.wp_ret.
    eexists. split; [reflexivity|]. cbn [fst snd nr_query nr_results].
    split; [reflexivity|].
    destruct limit as [n|]; [now apply Forall2_slice_to | exact Hs].
  - intros e s1 ->. reflexivity.
Qed.

Lemma events_scan_refines lat lon radius_km s0 refs events :
  holds Store.event_dict s0 refs events ->
  forall hrefs hits s,
    StoreFacts.extends s0 s -> holds event_hit_dict s hrefs hits ->
    StoreFacts.wp (Store.events_scan RT lat lon radius_km refs hrefs)
      (fun out s' =>
         exists hits', events_scan RT lat lon radius_km events hits = Ok hits'
                       /\ holds event_hit_dict s' out hits')
      (fun e _ => events_scan RT lat lon radius_km events hits = Raise e) s.
Proof.
  induction 1 as [|ref ev refs events Href _ IH]; intros hrefs hits s He Hh;
    cbn [Store.events_scan events_scan].
  - rewrite StoreFacts.wp_ret. eauto.
  - pose proof (StoreFacts.extends_lookup _ He Href) as Hd.
    eapply wp_deref_known; [exact Hd|].
    eapply wp_lift_known; [reflexivity|].
    eapply wp_lift_known; [reflexivity|].
    rewrite StoreFacts.wp_bind, StoreFacts.wp_lift.
    destruct (_distance_km RT lat lon (ev_lat ev) (ev_lon ev)) as [d|e];
      cbn [bind]; [|reflexivity].
    destruct (d <=? radius_km); [|now apply IH].
    eapply StoreFacts.wp_annotate; [exact Hd|]. apply IH.
    + now apply StoreFacts.extends_annotate.
    + apply holds_snoc; [exact Hh | reflexivity].
Qed.

Lemma filter_years_refines s refs events start_year end_year :
  holds Store.event_dict s refs events ->
  exists out,
    Store._filter_years refs start_year end_year s = (Ok out, s)
    /\ holds Store.event_dict s out (_filter_years events start_year end_year).
Proof.
  induction 1 as [|ref ev refs events Href _ IH];
    cbn [Store._filter_years _filter_years].
  - eexists. split; [reflexivity | constructor].
  - destruct IH as (out & Eo & Ho).
    unfold Store.mbind at 1. unfold Store.deref. rewrite Href.
    change (Store.get_int (Store.event_dict ev) "year") with (Ok (ev_year ev)).
    unfold Store.mbind at 1. unfold Store.lift at 1.
    destruct (match start_year with Some s1 => (ev_year ev <? s1)%Z | None => false end);
      [eauto|].
    destruct (match end_year with Some e => (ev_year ev >? e)%Z | None => false end);
      [eauto|].
    unfold Store.mbind. rewrite Eo. eexists. split; [reflexivity|].
    constructor; assumption.
Qed.

(** On a store whose table of events refers to the dictionaries of
    [table], [events_near_location] run from the store does what it
    does on values: the same exception, or the same query and
    references to objects that are, one for one and in the same order,
    the events of the value-level result with [distance_km] appended. *)
Theorem events_near_location_refines (table : list Event) (s : Store.store)
  (lat lon radius_km : float) (start_year end_year : option Z) :
  holds Store.event_dict s (Store.EVENTS_ref s) table ->
  refines (Store.events_near_location RT lat lon radius_km start_year end_year) s
    (events_near_location_in RT table lat lon radius_km start_year end_year)
    (fun a s' res => fst a = er_query res
                     /\ holds event_hit_dict s' (snd a) (er_events res)).
Proof.
  intros H. apply refines_wp.
  unfold Store.events_near_location, events_near_location_in. cbv zeta.
  eapply wp_known; [reflexivity|].
  destruct (filter_years_refines start_year end_year H) as (evs & Ef & Hf).
  eapply wp_known; [exact Ef|].
  rewrite StoreFacts.wp_bind.
  eapply StoreFacts.wp_mono;
    [| |apply (events_scan_refines lat lon radius_km Hf (hrefs := []) (hits := []));
        [apply StoreFacts.extends_refl | constructor]].
  - intros out s1 (hits' & -> & Hout). cbv beta. cbn [bind].
    destruct (@sort_refs_num_eq _ event_hit_dict eh_distance_km "distance_km"
                _ _ _ Hout) as (sorted & Es & Hs); [reflexivity|].
    eapply wp_known; [exact Es|]. rewrite StoreFacts.wp_ret.
    eexists. split; [reflexivity|]. cbn [fst snd er_query er_events].
    split; [reflexivity | exact Hs].
  - intros e s1 ->. reflexivity.
Qed.

Lemma filterM_st_refines {A : Type} (enc : A -> Store.dict)
  (p : Store.loc -> Store.M bool) (p' : A -> bool) s refs (l : list A) :
  (forall ref a, nth_error (Store.heap s) ref = Some (enc a) ->
                 p ref s = (Ok (p' a), s)) ->
  holds enc s refs l ->
  exists out, Store.filterM_st p refs s = (Ok out, s)
              /\ holds enc s out (filter p' l).
Proof.
  intros Hp. induction 1 as [|ref a refs l Href _ IH];
    cbn [Store.filterM_st filter].
  - eexists. split; [reflexivity | constructor].
  - destruct IH as (out & Eo & Ho).
    unfold Store.mbind at 1. rewrite (Hp ref a Href).
    unfold Store.mbind at 1. rewrite Eo. cbn.
    destruct (p' a); eexists; (split; [reflexivity|]); auto.
    constructor; assumption.
Qed.

(** On such a store [region_timeline] raises nothing, leaves the store
    as it is and returns the region name with references to the
    dictionaries of the events of the value-level timeline, one for one
    and in the same order. *)
Theorem region_timeline_refines (table : list Event) (s : Store.store)
  (region_name : string) (start_year end_year : option Z) (limit : option Z) :
  holds Store.event_dict s (Store.EVENTS_ref s) table ->
  exists refs,
    Store.region_timeline RT region_name start_year end_year limit s
    = (Ok (tr_region (region_timeline_in RT table region_name start_year end_year limit),
           refs), s)
    /\ holds Store.event_dict s refs
         (tr_timeline (region_timeline_in RT table region_name start_year end_year limit)).
Proof.
  intros H. unfold Store.region_timeline, region_timeline_in. cbv zeta.
  cbn [tr_region tr_timeline].
  unfold Store.mbind at 1. unfold Store.get_events at 1.
  set (p := fun ref =>
              Store.mbind (Store.deref ref) (fun ev =>
              Store.mbind (Store.lift (Store.get_str ev "region")) (fun region =>
              Store.ret (PyStr.contains (str_lower RT region_name)
                           (str_lower RT region))))).
  set (p' := fun ev => PyStr.contains (str_lower RT region_name)
                         (str_lower RT (ev_region ev))).
  assert (Hp : forall ref ev,
             nth_error (Store.heap s) ref = Some (Store.event_dict ev) ->
             p ref s = (Ok (p' ev), s)).
  { intros ref ev Href. unfold p, Store.mbind, Store.deref. rewrite Href.
    reflexivity. }
  destruct (@filterM_st_refines _ Store.event_dict p p' s _ _ Hp H)
    as (m1 & E1 & H1).
  unfold Store.mbind at 1. rewrite E1.
  destruct (filter_years_refines start_year end_year H1) as (m2 & E2 & H2).
  unfold Store.mbind at 1. rewrite E2.
  destruct (@sort_refs_int_eq _ Store.event_dict ev_year "year" _ _ _ H2)
    as (m3 & E3 & H3); [reflexivity|].
  unfold Store.mbind at 1. rewrite E3. unfold Store.ret.
  eexists. split; [reflexivity|].
  destruct limit as [n|]; [now apply Forall2_slice_to | exact H3].
Qed.

Lemma min_scan_eq (ev : Event) (path : list (float * float)) (cur : float) s :
  Store.min_scan RT (Store.event_dict ev) path cur s = (min_scan RT ev path cur, s).
Proof.
  revert cur. induction path as [|[lat lon] rest IH]; intros cur;
    cbn [Store.min_scan min_scan]; [reflexivity|].
  change (Store.get_num (Store.event_dict ev) "lat") with (Ok (ev_lat ev)).
  change (Store.get_num (Store.event_dict ev) "lon") with (Ok (ev_lon ev)).
  unfold Store.mbind, Store.lift.
  destruct (_distance_km RT lat lon (ev_lat ev) (ev_lon ev)) as [d|e];
    cbn [bind]; [|reflexivity].
  apply IH.
Qed.

Lemma closest_vertex_eq (ev : Event) (path : list (float * float)) s :
  Store.closest_vertex RT (Store.event_dict ev) path s
  = (closest_vertex RT ev path, s).
Proof.
  destruct path as [|[lat lon] rest]; cbn [Store.closest_vertex closest_vertex];
    [reflexivity|].
  change (Store.get_num (Store.event_dict ev) "lat") with (Ok (ev_lat ev)).
  change (Store.get_num (Store.event_dict ev) "lon") with (Ok (ev_lon ev)).
  unfold Store.mbind, Store.lift.
  destruct (_distance_km RT lat lon (ev_lat ev) (ev_lon ev)) as [d|e];
    cbn [bind]; [|reflexivity].
  apply min_scan_eq.
Qed.

Lemma corridor_scan_refines path corridor_km s0 refs events :
  holds Store.event_dict s0 refs events ->
  forall hrefs nearby s,
    StoreFacts.extends s0 s -> holds route_entry_dict s hrefs nearby ->
    StoreFacts.wp (Store.corridor_scan RT path corridor_km refs hrefs)
      (fun out s' =>
         exists nearby', corridor_scan RT path corridor_km events nearby = Ok nearby'
                         /\ holds route_entry_dict s' out nearby')
      (fun e _ => corridor_scan RT path corridor_km events nearby = Raise e) s.
Proof.
  induction 1 as [|ref ev refs events Href _ IH]; intros hrefs nearby s He Hh;
    cbn [Store.corridor_scan corridor_scan].
  - rewrite StoreFacts.wp_ret. eauto.
  - pose proof (StoreFacts.extends_lookup _ He Href) as Hd.
    eapply wp_deref_known; [exact Hd|].
    rewrite StoreFacts.wp_bind. unfold StoreFacts.wp at 1.
    rewrite closest_vertex_eq.
    destruct (closest_vertex RT ev path) as [closest|e]; cbn [bind]; [|reflexivity].
    destruct (closest <=? corridor_km); [|now apply IH].
    eapply StoreFacts.wp_annotate; [exact Hd|]. apply IH.
    + now apply StoreFacts.extends_annotate.
    + apply holds_snoc; [exact Hh | reflexivity].
Qed.

Lemma Forall2_last {A B : Type} (R : A -> B -> Prop) l1 l2 d1 d2 :
  Forall2 R l1 l2 -> R d1 d2 -> R (last l1 d1) (last l2 d2).
Proof.
  intros H Hd. induction H as [|a b l1 l2 Hab H IH]; [exact Hd|].
  destruct H as [|a' b' l1 l2 Hab' H]; [exact Hab|]. exact IH.
Qed.

Lemma narrative_refines s refs (nearby : list RouteEntry) :
  holds route_entry_dict s refs nearby ->
  Store.narrative refs s = (Ok (narrative nearby), s).
Proof.
  intros H. pose proof H as H0.
  destruct H as [|fref first refs nearby Hf Hrest];
    cbn [Store.narrative narrative]; [reflexivity|].
  unfold Store.read_strs.
  rewrite (@bind_eq _ _ _ _ _ _ _
             (@mapM_st_keys _ _ route_entry_dict
                (fun e => ev_region (re_event e))
                Store.get_str "region" s _ _ H0 (fun _ => eq_refl))).
  rewrite (@bind_deref_eq _ _ _ _ _ Hf).
  change (Store.get_int (route_entry_dict first) "year")
    with (Ok (ev_year (re_event first))).
  rewrite bind_lift_eq.
  pose proof (Forall2_last (R := fun ref a =>
                nth_error (Store.heap s) ref = Some (route_entry_dict a))
                fref first H0 Hf) as Hl.
  cbv beta in Hl. rewrite (@bind_deref_eq _ _ _ _ _ Hl).
  change (Store.get_int (route_entry_dict (last (first :: nearby) first)) "year")
    with (Ok (ev_year (re_event (last (first :: nearby) first)))).
  rewrite bind_lift_eq. reflexivity.
Qed.

(** A value of the answer of [route_history_summary], in the two
    embeddings. *)
Inductive val_matches (s : Store.store) : Store.rval -> pyval -> Prop :=
| match_int (n : Z) : val_matches s (Store.RInt n) (VInt n)
| match_float (x : float) : val_matches s (Store.RFloat x) (VFloat x)
| match_str (t : string) : val_matches s (Store.RStr t) (VStr t)
| match_events (refs : list Store.loc) (l : list RouteEntry) :
    holds route_entry_dict s refs l ->
    val_matches s (Store.RRefs refs) (VEvents l).

Definition dict_matches (s : Store.store) (r : list (string * Store.rval))
  (d : pydict) : Prop :=
  Forall2 (fun kr kv => fst kr = fst kv /\ val_matches s (snd kr) (snd kv)) r d.

(** On such a store [route_history_summary] run from the store does
    what it does on values: the same exception, or a dictionary with the
    same keys in the same order, the same numbers and summary, and under
    [selected_events] references to objects that are, one for one, the
    selected events with [distance_to_route_km] appended. *)
Theorem route_history_summary_refines (table : list Event) (s : Store.store)
  (path : list (float * float)) (corridor_km : float) :
  holds Store.event_dict s (Store.EVENTS_ref s) table ->
  refines (Store.route_history_summary RT path corridor_km) s
    (route_history_summary_in RT table path corridor_km)
    (fun a s' d => dict_matches s' a d).
Proof.
  intros H. apply refines_wp.
  unfold Store.route_history_summary, route_history_summary_in.
  destruct (Z.of_nat (List.length path) <? 2)%Z.
  { rewrite StoreFacts.wp_ret. eexists. split; [reflexivity|].
    repeat constructor. }
  rewrite StoreFacts.wp_bind, StoreFacts.wp_lift.
  destruct (route_length RT path 0) as [total|e]; cbn [bind]; [|reflexivity].
  eapply wp_known; [reflexivity|].
  rewrite StoreFacts.wp_bind.
  eapply StoreFacts.wp_mono;
    [| |apply (corridor_scan_refines path corridor_km H (hrefs := []) (nearby := []));
        [apply StoreFacts.extends_refl | constructor]].
  - intros out s1 (nearby' & -> & Hout). cbv beta. cbn [bind].
    destruct (@sort_refs_int_eq _ route_entry_dict
                (fun e => ev_year (re_event e)) "year" _ _ _ Hout)
      as (sorted & Es & Hs); [reflexivity|].
    eapply wp_known; [exact Es|].
    eapply wp_known; [exact (narrative_refines Hs)|].
    rewrite StoreFacts.wp_ret.
    eexists. split; [reflexivity|].
    repeat (constructor; [split; [reflexivity | constructor] |]);
      try exact Hs; constructor.
  - intros e s1 ->. reflexivity.
Qed.

(** ** The gazetteer *)

(** The items of the table of places refer to the dictionaries of the
    places, under the same names. *)
Definition places_hold (s : Store.store) (refs : list (string * Store.loc))
  (places : list (string * Place)) : Prop :=
  Forall2 (fun nr np =>
             fst nr = fst np
             /\ nth_error (Store.heap s) (snd nr) = Some (Store.place_dict (snd np)))
    refs places.

(** The answers of [geocode] in the two embeddings: the same name and
    coordinates, and as [meta] a reference to the dictionary of the
    place; or the same error. *)
Definition geo_matches (s : Store.store) (r : Store.geocode_ref)
  (g : GeocodeResult) : Prop :=
  match r, g with
  | Store.GeoFound name la lo ref, GeoMatch name' la' lo' place =>
      name = name' /\ la = la' /\ lo = lo'
      /\ nth_error (Store.heap s) ref = Some (Store.place_dict place)
  | Store.GeoNone msg, GeoError msg' => msg = msg'
  | _, _ => False
  end.

Definition found_matches (s : Store.store) (r : option Store.geocode_ref)
  (item : option (string * Place)) : Prop :=
  match r, item with
  | Some found, Some item => geo_matches s found (geo_found item)
  | None, None => True
  | _, _ => False
  end.

Lemma geo_entry_eq s name ref place :
  nth_error (Store.heap s) ref = Some (Store.place_dict place) ->
  Store.geo_entry name ref s
  = (Ok (Store.GeoFound name (place_lat place) (place_lon place) ref), s).
Proof.
  intros H. unfold Store.geo_entry, Store.mbind, Store.deref. rewrite H.
  reflexivity.
Qed.

Lemma geocode_exact_refines s q refs places :
  places_hold s refs places ->
  exists r, Store.geocode_exact RT q refs s = (Ok r, s)
            /\ found_matches s r (find (exact_match RT q) places).
Proof.
  induction 1 as [|[name ref] [name' place] refs places [Hn Href] _ IH];
    cbn [Store.geocode_exact find].
  - eexists. split; [reflexivity | exact I].
  - cbn [fst snd] in Hn, Href. subst name'. unfold exact_match at 1. cbn [fst].
    destruct (String.eqb (str_lower RT name) q); [|exact IH].
    unfold Store.mbind. rewrite (@geo_entry_eq s name ref place Href).
    eexists. split; [reflexivity|]. cbn. auto.
Qed.

Lemma geocode_partial_refines s q refs places :
  places_hold s refs places ->
  exists r, Store.geocode_partial RT q refs s = (Ok r, s)
            /\ found_matches s r (find (partial_match RT q) places).
Proof.
  induction 1 as [|[name ref] [name' place] refs places [Hn Href] _ IH];
    cbn [Store.geocode_partial find].
  - eexists. split; [reflexivity | exact I].
  - cbn [fst snd] in Hn, Href. subst name'. unfold partial_match at 1.
    cbn [fst snd].
    destruct (PyStr.contains q (str_lower RT name)); cbn [orb].
    + unfold Store.mbind. rewrite (@geo_entry_eq s name ref place Href).
      eexists. split; [reflexivity|]. cbn. auto.
    + rewrite (@bind_deref_eq _ _ _ _ _ Href).
      change (Store.get_str (Store.place_dict place) "city")
        with (Ok (place_city place)).
      rewrite bind_lift_eq.
      destruct (PyStr.contains q (str_lower RT (place_city place))); [|exact IH].
      unfold Store.mbind. rewrite (@geo_entry_eq s name ref place Href).
      eexists. split; [reflexivity|]. cbn. auto.
Qed.

(** On a store whose table of places refers to the dictionaries of
    [places] under the same names, [geocode] raises nothing, leaves the
    store as it is, and answers as [geocode] on values does: the same
    name and coordinates with a reference to the dictionary of the
    place found, or the same error message. *)
Theorem geocode_refines (places : list (string * Place)) (s : Store.store)
  (query : string) :
  places_hold s (Store.PLACES_ref s) places ->
  exists r, Store.geocode RT query s = (Ok r, s)
            /\ geo_matches s r (geocode_in RT places query).
Proof.
  intros H. unfold Store.geocode, geocode_in. cbv zeta.
  unfold Store.mbind at 1. unfold Store.get_places at 1.
  destruct (geocode_exact_refines (str_lower RT (PyStr.strip query)) H)
    as (r1 & E1 & M1).
  unfold Store.mbind at 1. rewrite E1.
  destruct r1 as [found|], (find (exact_match RT _) places) as [item|];
    try contradiction.
  - eexists. split; [reflexivity | exact M1].
  - destruct (geocode_partial_refines (str_lower RT (PyStr.strip query)) H)
      as (r2 & E2 & M2).
    unfold Store.mbind at 1. rewrite E2.
    destruct r2 as [found|], (find (partial_match RT _) places) as [item|];
      try contradiction.
    + eexists. split; [reflexivity | exact M2].
    + eexists. split; [reflexivity | reflexivity].
Qed.

Definition best_matches (s : Store.store) (b : option (string * Store.loc))
  (b' : option (string * Place)) : Prop :=
  match b, b' with
  | Some (name, ref), Some (name', place) =>
      name = name'
      /\ nth_error (Store.heap s) ref = Some (Store.place_dict place)
  | None, None => True
  | _, _ => False
  end.

Lemma reverse_scan_refines s lat lon refs places :
  places_hold s refs places ->
  forall best best' best_d,
    best_matches s best best' ->
    match reverse_scan RT lat lon places best' best_d with
    | Ok (b', d) =>
        exists b, Store.reverse_scan RT lat lon refs best best_d s = (Ok (b, d), s)
                  /\ best_matches s b b'
    | Raise e => Store.reverse_scan RT lat lon refs best best_d s = (Raise e, s)
    end.
Proof.
  induction 1 as [|[name ref] [name' place] refs places [Hn Href] _ IH];
    intros best best' best_d Hb; cbn [Store.reverse_scan reverse_scan].
  - eexists. split; [reflexivity | exact Hb].
  - cbn [fst snd] in Hn, Href. subst name'.
    rewrite (@bind_deref_eq _ _ _ _ _ Href).
    change (Store.get_num (Store.place_dict place) "lat") with (Ok (place_lat place)).
    change (Store.get_num (Store.place_dict place) "lon") with (Ok (place_lon place)).
    rewrite !bind_lift_eq.
    destruct (_haversine_km RT lat lon (place_lat place) (place_lon place))
      as [d|e]; cbn [bind]; [|reflexivity].
    rewrite bind_lift_eq.
    destruct (d <? best_d); apply IH; [cbn; auto | exact Hb].
Qed.

(** On such a store [reverse_geocode] leaves the store as it is and
    returns the result, or raises the exception, of [reverse_geocode]
    on values. *)
Theorem reverse_geocode_refines (places : list (string * Place))
  (s : Store.store) (lat lon : float) :
  places_hold s (Store.PLACES_ref s) places ->
  Store.reverse_geocode RT lat lon s = (reverse_geocode_in RT places lat lon, s).
Proof.
  intros H. unfold Store.reverse_geocode, reverse_geocode_in.
  unfold Store.mbind at 1. unfold Store.get_places at 1.
  pose proof (@reverse_scan_refines s lat lon _ _ H None None inf I) as Hs.
  unfold Store.mbind at 1.
  destruct (reverse_scan RT lat lon places None inf) as [[b' d]|e]; cbn [bind].
  - destruct Hs as (b & Es & Hb). rewrite Es.
    destruct b as [[name ref]|], b' as [[name' place]|]; try contradiction.
    + destruct Hb as [-> Href].
      rewrite (@bind_deref_eq _ _ _ _ _ Href). reflexivity.
    + reflexivity.
  - rewrite Hs. reflexivity.
Qed.

End Refinement.

(** ** The tables as loaded *)

Lemma holds_seq {A : Type} (enc : A -> Store.dict) (s : Store.store)
  (pre post : list Store.dict) (l : list A) :
  Store.heap s = pre ++ map enc l ++ post ->
  holds enc s (seq (List.length pre) (List.length l)) l.
Proof.
  unfold holds. intros ->. revert pre.
  induction l as [|a l IH]; intros pre; cbn [seq List.length map]; constructor.
  - rewrite nth_error_app2 by lia. rewrite Nat.sub_diag. reflexivity.
  - specialize (IH (pre ++ [enc a])). rewrite length_app in IH. cbn in IH.
    replace (List.length pre + 1)%nat with (S (List.length pre)) in IH by lia.
    rewrite <- app_assoc in IH. exact IH.
Qed.

Lemma places_hold_seq (s : Store.store) (pre post : list Store.dict)
  (l : list (string * Place)) :
  Store.heap s = pre ++ map (fun item => Store.place_dict (snd item)) l ++ post ->
  places_hold s (combine (map fst l) (seq (List.length pre) (List.length l))) l.
Proof.
  unfold places_hold. intros ->. revert pre.
  induction l as [|a l IH]; intros pre; cbn [seq List.length map combine];
    constructor.
  - cbn [fst snd]. split; [reflexivity|].
    rewrite nth_error_app2 by lia. rewrite Nat.sub_diag. reflexivity.
  - specialize (IH (pre ++ [Store.place_dict (snd a)])).
    rewrite length_app in IH. cbn in IH.
    replace (List.length pre + 1)%nat with (S (List.length pre)) in IH by lia.
    rewrite <- app_assoc in IH. exact IH.
Qed.

(** The store that holds the tables as the modules load them refers to
    the dictionaries of [PLACES], [POIS] and [EVENTS]. *)
Lemma loaded_places : places_hold Store.loaded (Store.PLACES_ref Store.loaded) PLACES.
Proof.
  apply (places_hold_seq Store.loaded []
           (map Store.poi_dict POIS ++ map Store.event_dict EVENTS)).
  reflexivity.
Qed.

Lemma loaded_pois : holds Store.poi_dict Store.loaded (Store.POIS_ref Store.loaded) POIS.
Proof.
  unfold Store.loaded. cbn [Store.POIS_ref].
  rewrite <- (length_map (fun item => Store.place_dict (snd item)) PLACES).
  apply holds_seq with (post := map Store.event_dict EVENTS). reflexivity.
Qed.

Lemma loaded_events :
  holds Store.event_dict Store.loaded (Store.EVENTS_ref Store.loaded) EVENTS.
Proof.
  unfold Store.loaded. cbn [Store.EVENTS_ref].
  rewrite <- (length_map (fun item => Store.place_dict (snd item)) PLACES).
  rewrite <- (length_map Store.poi_dict POIS). rewrite <- length_app.
  apply holds_seq with (post := []). cbn [Store.heap].
  rewrite app_nil_r. apply app_assoc.
Qed.

Lemma nearby_search_refines_witness :
  refines (Store.nearby_search flat_runtime 33.9 35.5 "hospital" 5 (Some 10%Z))
    Store.loaded
    (nearby_search_in flat_runtime POIS 33.9 35.5 "hospital" 5 (Some 10%Z))
    (fun a s' res => fst a = nr_query res
                     /\ holds poi_hit_dict s' (snd a) (nr_results res)).
Proof.
  apply (@nearby_search_refines flat_runtime POIS Store.loaded 33.9 35.5
           "hospital" 5 (Some 10%Z)).
  exact loaded_pois.
Defined.

Lemma events_near_location_refines_witness :
  refines (Store.events_near_location flat_runtime 33.9 35.5 20 (Some 0%Z) None)
    Store.loaded
    (events_near_location_in flat_runtime EVENTS 33.9 35.5 20 (Some 0%Z) None)
    (fun a s' res => fst a = er_query res
                     /\ holds event_hit_dict s' (snd a) (er_events res)).
Proof.
  apply (@events_near_location_refines flat_runtime EVENTS Store.loaded 33.9 35.5
           20 (Some 0%Z) None).
  exact loaded_events.
Defined.

Lemma region_timeline_refines_witness :
  exists refs,
    Store.region_timeline flat_runtime "Baalbek" None None (Some 25%Z) Store.loaded
    = (Ok (tr_region (region_timeline_in flat_runtime EVENTS "Baalbek" None None
                        (Some 25%Z)),
           refs), Store.loaded)
    /\ holds Store.event_dict Store.loaded refs
         (tr_timeline (region_timeline_in flat_runtime EVENTS "Baalbek" None None
                         (Some 25%Z))).
Proof.
  apply (@region_timeline_refines flat_runtime EVENTS Store.loaded "Baalbek"
           None None (Some 25%Z)).
  exact loaded_events.
Defined.

Lemma route_history_summary_refines_witness :
  refines
    (Store.route_history_summary flat_runtime [(33.9, 35.5); (34.0, 36.2)] 40)
    Store.loaded
    (route_history_summary_in flat_runtime EVENTS [(33.9, 35.5); (34.0, 36.2)] 40)
    (fun a s' d => dict_matches s' a d).
Proof.
  apply (@route_history_summary_refines flat_runtime EVENTS Store.loaded
           [(33.9, 35.5); (34.0, 36.2)] 40).
  exact loaded_events.
Defined.

Lemma geocode_refines_witness :
  exists r, Store.geocode flat_runtime " aub " Store.loaded = (Ok r, Store.loaded)
            /\ geo_matches Store.loaded r (geocode_in flat_runtime PLACES " aub ").
Proof.
  apply (@geocode_refines flat_runtime PLACES Store.loaded " aub ").
  exact loaded_places.
Defined.

Lemma reverse_geocode_refines_witness :
  Store.reverse_geocode flat_runtime 33.9 35.5 Store.loaded
  = (reverse_geocode_in flat_runtime PLACES 33.9 35.5, Store.loaded).
Proof.
  apply (@reverse_geocode_refines flat_runtime PLACES Store.loaded 33.9 35.5).
  exact loaded_places.
Defined.

(* ================================================================== *)
(** * What the reading operations hand out *)
(* ================================================================== *)

(** [geocode] allocates nothing and leaves the store as it is, and the
    place it finds carries as [meta] the reference the table holds: the
    stored dictionary itself, from which [lat] and [lon] were read, not
    a copy of it. *)
Theorem geocode_returns_stored_object (RT : Runtime) (query : string)
  (s s' : Store.store)
  (r : res Store.geocode_ref) :
  Store.geocode RT query s = (r, s') ->
  s' = s
  /\ forall name la lo meta,
       r = Ok (Store.GeoFound name la lo meta) ->
       In (name, meta) (Store.PLACES_ref s)
       /\ exists info, nth_error (Store.heap s) meta = Some info
                       /\ Store.get_num info "lat" = Ok la
                       /\ Store.get_num info "lon" = Ok lo.
Proof.
  intros Hrun.
  pose proof (@StoreFacts.wp_run _ _ _ _ _ _ _
                (StoreFacts.reads_geocode RT query s) Hrun) as H.
  cbv beta in H.
  destruct r as [a|e]; [|split; [exact H | discriminate]].
  destruct H as [-> Ha]. split; [reflexivity|].
  intros name la lo meta E. injection E as ->. exact Ha.
Qed.

Lemma geocode_returns_stored_object_witness :
  snd (Store.geocode flat_runtime "Baalbek" Store.loaded) = Store.loaded
  /\ forall name la lo meta,
       fst (Store.geocode flat_runtime "Baalbek" Store.loaded)
       = Ok (Store.GeoFound name la lo meta) ->
       In (name, meta) (Store.PLACES_ref Store.loaded)
       /\ exists info, nth_error (Store.heap Store.loaded) meta = Some info
                       /\ Store.get_num info "lat" = Ok la
                       /\ Store.get_num info "lon" = Ok lo.
Proof.
  apply (@geocode_returns_stored_object flat_runtime "Baalbek" Store.loaded).
  apply surjective_pairing.
Defined.

(** [region_timeline] allocates nothing and leaves the store as it is,
    and the events of its timeline are references the table holds: the
    stored dictionaries themselves, not copies. *)
Theorem region_timeline_returns_stored_objects (RT : Runtime)
  (region_name : string)
  (start_year end_year limit : option Z) (s s' : Store.store)
  (r : res (string * list Store.loc)) :
  Store.region_timeline RT region_name start_year end_year limit s = (r, s') ->
  s' = s
  /\ forall region timeline,
       r = Ok (region, timeline) -> incl timeline (Store.EVENTS_ref s).
Proof.
  intros Hrun.
  pose proof (@StoreFacts.wp_run _ _ _ _ _ _ _
                (StoreFacts.reads_region_timeline RT region_name start_year
                   end_year limit s) Hrun) as H.
  cbv beta in H.
  destruct r as [a|e]; [|split; [exact H | discriminate]].
  destruct H as [-> Ha]. split; [reflexivity|].
  intros region timeline E. injection E as ->. exact Ha.
Qed.

Lemma region_timeline_returns_stored_objects_witness :
  snd (Store.region_timeline flat_runtime "Beirut" None None (Some 3%Z) Store.loaded)
  = Store.loaded
  /\ forall region timeline,
       fst (Store.region_timeline flat_runtime "Beirut" None None (Some 3%Z) Store.loaded)
       = Ok (region, timeline) ->
       incl timeline (Store.EVENTS_ref Store.loaded).
Proof.
  apply (@region_timeline_returns_stored_objects flat_runtime "Beirut" None None
           (Some 3%Z) Store.loaded).
  apply surjective_pairing.
Defined.

(* ================================================================== *)
(** * A route that stays at one point, and a region with no name *)
(* ================================================================== *)

Lemma mapM_ext {A B : Type} (f g : A -> res B) (l : list A) :
  (forall a, f a = g a) -> mapM f l = mapM g l.
Proof.
  intros H. induction l as [|a l IH]; cbn [mapM]; [reflexivity|].
  now rewrite H, IH.
Qed.

Lemma closest_vertex_twice (RT : Runtime) (ev : Event) (lat lon : float) :
  closest_vertex RT ev [(lat, lon); (lat, lon)] = event_distance RT lat lon ev.
Proof.
  cbn [closest_vertex min_scan]. unfold event_distance.
  destruct (_distance_km RT lat lon (ev_lat ev) (ev_lon ev)) as [d|e];
    cbn [bind]; [|reflexivity].
  now rewrite ltb_irrefl.
Qed.

Lemma kept_of_pairs (RT : Runtime) (c : float) (table : list Event)
  (ds : list float) :
  map (fun e => (re_event e, re_distance_to_route_km e))
    (kept_of c (route_entry RT) table ds)
  = map (fun h => (eh_event h, eh_distance_km h))
      (kept_of c (event_hit RT) table ds).
Proof.
  unfold kept_of. rewrite !map_map. apply map_ext. intros [ev d]. reflexivity.
Qed.

(** A route whose two vertices are one finite point is a radius search
    around that point: when [events_near_location] with no year window
    returns, [route_history_summary] over the path [[p, p]] with the
    radius as corridor returns too, its length is [round(0.0, 3)], and
    its selected events are the same events with the same rounded
    distances (ordered by year instead of by distance); when the first
    raises, so does the second, with the same exception. *)
Theorem route_at_a_point_is_radius_search (RT : Runtime) (table : list Event)
  (lat lon c : float) :
  is_finite lat = true -> is_finite lon = true ->
  match events_near_location_in RT table lat lon c None None with
  | Ok res =>
      exists d sel,
        route_history_summary_in RT table [(lat, lon); (lat, lon)] c = Ok d
        /\ dict_get d "path_length_km" = Some (VFloat (round3 RT 0))
        /\ dict_get d "selected_events" = Some (VEvents sel)
        /\ Permutation
             (map (fun e => (re_event e, re_distance_to_route_km e)) sel)
             (map (fun h => (eh_event h, eh_distance_km h)) (er_events res))
  | Raise e =>
      route_history_summary_in RT table [(lat, lon); (lat, lon)] c = Raise e
  end.
Proof.
  intros Flat Flon.
  unfold events_near_location_in, route_history_summary_in. cbv zeta.
  rewrite filter_years_unbounded, events_scan_radius, radius_scan_eq.
  change (Z.of_nat (List.length [(lat, lon); (lat, lon)]) <? 2)%Z with false.
  cbv iota. cbn [route_length].
  change (_distance_km RT lat lon lat lon) with (_haversine_km RT lat lon lat lon).
  rewrite (@_haversine_km_self RT lat lon Flat Flon). cbn [bind].
  rewrite corridor_scan_radius, radius_scan_eq.
  rewrite (@mapM_ext _ _ _ (event_distance RT lat lon) table
             (fun ev => closest_vertex_twice RT ev lat lon)).
  destruct (mapM (event_distance RT lat lon) table) as [ds|e]; cbn [bind];
    [|reflexivity].
  eexists. eexists. split; [reflexivity|].
  split; [reflexivity|]. split; [reflexivity|].
  cbn [er_events app].
  rewrite (Permutation_map _ (sort_by_perm Z.ltb _ _)).
  rewrite (Permutation_map _ (sort_by_perm PrimFloat.ltb _ _)).
  cbn [app]. apply Permutation_refl'. apply kept_of_pairs.
Qed.

Lemma route_at_a_point_is_radius_search_witness :
  match events_near_location_in flat_runtime EVENTS 33.9 35.5 20 None None with
  | Ok res =>
      exists d sel,
        route_history_summary_in flat_runtime EVENTS [(33.9, 35.5); (33.9, 35.5)] 20
        = Ok d
        /\ dict_get d "path_length_km" = Some (VFloat (round3 flat_runtime 0))
        /\ dict_get d "selected_events" = Some (VEvents sel)
        /\ Permutation
             (map (fun e => (re_event e, re_distance_to_route_km e)) sel)
             (map (fun h => (eh_event h, eh_distance_km h)) (er_events res))
  | Raise e =>
      route_history_summary_in flat_runtime EVENTS [(33.9, 35.5); (33.9, 35.5)] 20
      = Raise e
  end.
Proof.
  apply (@route_at_a_point_is_radius_search flat_runtime EVENTS 33.9 35.5 20);
    reflexivity.
Defined.

Lemma contains_empty (s : string) : PyStr.contains "" s = true.
Proof.
  apply contains_iff. exists "", s. reflexivity.
Qed.

Lemma filter_all {A : Type} (p : A -> bool) (l : list A) :
  (forall x, p x = true) -> filter p l = l.
Proof.
  intros H. induction l as [|x l IH]; cbn; [reflexivity|].
  now rewrite H, IH.
Qed.

(** The empty region name is contained in every region: with it
    [region_timeline] returns the events of the whole table that pass the
    year window, in ascending year order, cut by the limit. *)
Theorem region_timeline_empty_name (RT : Runtime) (table : list Event)
  (start_year end_year limit : option Z) :
  region_timeline_in RT table "" start_year end_year limit
  = mkTimelineResult ""
      (let all := sort_by Z.ltb ev_year (_filter_years table start_year end_year) in
       match limit with
       | Some n => slice_to all n
       | None => all
       end).
Proof.
  unfold region_timeline_in. cbv zeta.
  change (str_lower RT "") with "".
  rewrite filter_all; [reflexivity|]. intros ev. apply contains_empty.
Qed.
